(** * mac-maintenance: a shallow embedding of [mac_maintenance.py]

    The development follows the layout of the Python module: text helpers,
    the command runner ([_truncate_text], [_ensure_path_prefix],
    [run_command]), the result classifier ([badge_for_result], [_slugify]),
    the maintenance tasks ([validate_home_path], [task_cleanup_archives],
    [task_archive_orphans], [task_find_orphans]) and the dispatcher [main].

    Conventions.
    - Python [str] is a list of code points. Command output, paths and names
      range over the 256 code points of Latin-1 ([ascii]), on which
      [str.lower], [str.isalnum] and [str.splitlines] are given by their
      Unicode tables; the text that [_slugify] takes ranges over all code
      points.
    - Python [int] is [Z]; slices with a negative bound count from the end.
    - [dict] is a [gmap]; the file system is a [gmap] from paths to nodes.
    - Code that prints, spawns processes or touches the file system is written
      in a state-and-exception monad [M] over a [World]. *)

From Stdlib Require Import ZArith QArith Ascii String DecimalString.
From stdpp Require Import gmap strings list.

Local Open Scope Z_scope.
Local Open Scope list_scope.

(** ** Text *)

Abbreviation str := (list ascii).

Definition lit (s : string) : str := list_ascii_of_string s.

Definition code (c : ascii) : N := N_of_ascii c.

Definition in_range (lo hi : N) (c : ascii) : bool :=
  ((lo <=? code c) && (code c <=? hi))%N.

Definition LF : ascii := ascii_of_N 10.
Definition CR : ascii := ascii_of_N 13.
Definition ESC : ascii := ascii_of_N 27.
Definition BEL : ascii := ascii_of_N 7.

(** [len(s)] as a Python [int]. *)
Definition len {A} (l : list A) : Z := Z.of_nat (length l).

(** [l[:n]] for a Python [int] n: a negative bound drops from the end. *)
Definition slice_to {A} (n : Z) (l : list A) : list A :=
  if 0 <=? n then take (Z.to_nat n) l
  else take (length l - Z.to_nat (- n)) l.

(** [s.startswith(p)] *)
Fixpoint startswith (p s : str) : bool :=
  match p, s with
  | [], _ => true
  | _ :: _, [] => false
  | a :: p', b :: s' => bool_decide (a = b) && startswith p' s'
  end.

(** [s.endswith(p)] *)
Definition endswith (p s : str) : bool := startswith (rev p) (rev s).

(** [needle in hay] on strings. *)
Fixpoint contains (needle hay : str) : bool :=
  startswith needle hay ||
  match hay with
  | [] => false
  | _ :: hay' => contains needle hay'
  end.

(** [sep.join(parts)] *)
Fixpoint join (sep : str) (parts : list str) : str :=
  match parts with
  | [] => []
  | [p] => p
  | p :: rest => p ++ sep ++ join sep rest
  end.

(** [str(n)] and [f"{n}"] for an [int]. *)
Definition str_of_Z (n : Z) : str := lit (NilZero.string_of_int (Z.to_int n)).

(** *** Case and character classes (Latin-1 rows of the Unicode tables) *)

Definition isupper_char (c : ascii) : bool :=
  in_range 65 90 c || in_range 192 214 c || in_range 216 222 c.

Definition lower_char (c : ascii) : ascii :=
  if isupper_char c then ascii_of_N (code c + 32) else c.

(** [s.lower()] *)
Definition lower (s : str) : str := map lower_char s.

(** [ch.isalnum()]: letters, decimal digits and the other numeric characters. *)
Definition isalnum (c : ascii) : bool :=
  in_range 48 57 c || in_range 65 90 c || in_range 97 122 c
  || bool_decide (code c = 170%N) || in_range 178 179 c
  || bool_decide (code c = 181%N) || in_range 185 186 c
  || in_range 188 190 c || in_range 192 214 c || in_range 216 246 c
  || in_range 248 255 c.

(** *** Lines *)

(** The line boundaries of [str.splitlines]: LF, VT, FF, CR, FS, GS, RS, NEL. *)
Definition is_linebreak (c : ascii) : bool :=
  in_range 10 13 c || in_range 28 30 c || bool_decide (code c = 133%N).

(** [s.splitlines()]: CR LF counts as one boundary; a final boundary does not
    open a further, empty line. *)
Fixpoint splitlines (s : str) : list str :=
  match s with
  | [] => []
  | c :: s' =>
      if is_linebreak c then
        [] :: (if bool_decide (c = CR)
               then match s' with
                    | d :: s'' => if bool_decide (d = LF) then splitlines s''
                                  else splitlines s'
                    | [] => splitlines s'
                    end
               else splitlines s')
      else match splitlines s' with
           | [] => [[c]]
           | l :: ls => (c :: l) :: ls
           end
  end.

(** *** Comparison ([<=] on [str] compares code points lexicographically) *)

Fixpoint str_compare (a b : str) : comparison :=
  match a, b with
  | [], [] => Eq
  | [], _ :: _ => Lt
  | _ :: _, [] => Gt
  | x :: a', y :: b' =>
      match N.compare (code x) (code y) with
      | Eq => str_compare a' b'
      | r => r
      end
  end.

Definition str_le (a b : str) : bool :=
  match str_compare a b with Gt => false | _ => true end.

(** ** Data model *)

Record CommandResult := mkCommandResult {
  title : str;
  command : str;
  duration_s : Q;
  returncode : option Z;
  stdout : str;
  stderr : str;
  skipped_reason : option str
}.

(** Truthiness of an [Optional[str]]: [None] and the empty string are false. *)
Definition truthy (o : option str) : bool :=
  match o with
  | Some (_ :: _) => true
  | _ => false
  end.

(** ** Result classifier *)

Definition permission_phrases : list str :=
  [ lit "operation not permitted"; lit "not authorized";
    lit "permission denied"; lit "requires full disk access" ].

Definition rc_badge (rc : Z) : str := lit "RC=" ++ str_of_Z rc.

Definition badge_for_result (result : CommandResult) : str * str :=
  if truthy (skipped_reason result) then (lit "warn", lit "SKIPPED")
  else match returncode result with
  | Some 0 => (lit "ok", lit "OK")
  | None =>
      if startswith (lit "[exception]") (stderr result)
      then (lit "bad", lit "EXC")
      else (lit "warn", lit "TIMEOUT")
  | Some rc =>
      if bool_decide (rc = 126) || bool_decide (rc = 127)
      then (lit "warn", lit "MISSING")
      else
        let err := lower (stderr result) in
        if existsb (fun s => contains s err) permission_phrases
        then (lit "warn", rc_badge rc)
        else if bool_decide (rc = 1) then (lit "warn", lit "RC=1")
        else (lit "bad", rc_badge rc)
  end.

(** The classification table of the specification: rows are tried from the
    top and the first row whose condition holds gives the outcome. *)
Record table_row := mkRow {
  row_cond : CommandResult -> bool;
  row_out : CommandResult -> str * str
}.

Definition code_is (n : Z) (r : CommandResult) : bool :=
  bool_decide (returncode r = Some n).

Definition code_is_none (r : CommandResult) : bool :=
  bool_decide (returncode r = None).

Definition rc_label (r : CommandResult) : str :=
  lit "RC=" ++ match returncode r with Some n => str_of_Z n | None => lit "None" end.

Definition permission_denied_text (r : CommandResult) : bool :=
  existsb (fun phrase => contains phrase (lower (stderr r))) permission_phrases.

Definition spec_table : list table_row :=
  [ mkRow (fun r => truthy (skipped_reason r))
          (fun _ => (lit "warn", lit "SKIPPED"));
    mkRow (code_is 0)
          (fun _ => (lit "ok", lit "OK"));
    mkRow (fun r => code_is_none r && startswith (lit "[exception]") (stderr r))
          (fun _ => (lit "bad", lit "EXC"));
    mkRow code_is_none
          (fun _ => (lit "warn", lit "TIMEOUT"));
    mkRow (fun r => code_is 126 r || code_is 127 r)
          (fun _ => (lit "warn", lit "MISSING"));
    mkRow permission_denied_text
          (fun r => (lit "warn", rc_label r));
    mkRow (code_is 1)
          (fun _ => (lit "warn", lit "RC=1")) ].

Fixpoint first_row (rows : list table_row) (r : CommandResult) : str * str :=
  match rows with
  | [] => (lit "bad", rc_label r)
  | row :: rows' => if row_cond row r then row_out row r else first_row rows' r
  end.

(** The hyphen of Latin-1 text. *)
Definition hyphen : ascii := "-"%char.

(** *** Text beyond Latin-1

    A title handed to [_slugify] may hold any character, so its text is a
    list of Unicode code points. Below 256, [str.lower], [str.isalnum] and
    [str.isupper] are the tables above. Beyond, they are rows of the
    interpreter's character database, which is passed in; there the
    lowercase mapping of a character may have several characters, and that of
    U+03A3 depends on its neighbours, so it is given the text and the
    position. *)
Abbreviation ustr := (list N).

Record Unicode := mkUnicode {
  lower_beyond : ustr -> nat -> ustr;
  isalnum_beyond : N -> bool;
  isupper_beyond : N -> bool
}.

Definition latin1 (c : N) : bool := (c <? 256)%N.

Definition chr (c : N) : ascii := ascii_of_N c.

Definition ulit (s : string) : ustr := map code (lit s).

(** [text.lower()] *)
Definition ulower (db : Unicode) (text : ustr) : ustr :=
  concat (imap (fun i c => if latin1 c then [code (lower_char (chr c))]
                           else lower_beyond db text i) text).

(** [ch.isalnum()] and [ch.isupper()] for one character. *)
Definition uisalnum (db : Unicode) (c : N) : bool :=
  if latin1 c then isalnum (chr c) else isalnum_beyond db c.

Definition uisupper (db : Unicode) (c : N) : bool :=
  if latin1 c then isupper_char (chr c) else isupper_beyond db c.

Definition dash : N := 45%N.

(** *** [_slugify] *)

(** One turn of the loop over [text.lower()]; the state is [keep] and
    [last_dash]. *)
Definition slug_step (db : Unicode) (st : ustr * bool) (ch : N) : ustr * bool :=
  let '(keep, last_dash) := st in
  if uisalnum db ch then (keep ++ [ch], false)
  else if negb last_dash then (keep ++ [dash], true)
  else (keep, last_dash).

Fixpoint lstrip (c : N) (s : ustr) : ustr :=
  match s with
  | x :: s' => if bool_decide (x = c) then lstrip c s' else s
  | [] => []
  end.

(** [s.strip(c)] for a one-character set. *)
Definition strip (c : N) (s : ustr) : ustr :=
  rev (lstrip c (rev (lstrip c s))).

Definition _slugify (db : Unicode) (text : ustr) : ustr :=
  let keep := fst (fold_left (slug_step db) (ulower db text) ([], false)) in
  let slug := strip dash keep in
  match slug with
  | [] => ulit "section"
  | _ :: _ => slug
  end.

(** ** Command runner *)

(** *** [_strip_ansi]: [ANSI_ESCAPE_RE.sub("", text)]

    The three alternatives are tried in order at every ESC.  Their character
    classes are disjoint, so the greedy runs never have to give characters
    back, except in the OSC form, whose body stops at the first BEL and
    otherwise is cut back to the last ESC-backslash. *)
Fixpoint span (p : ascii -> bool) (s : str) : nat :=
  match s with
  | c :: s' => if p c then S (span p s') else O
  | [] => O
  end.

Fixpoint index_of (c : ascii) (s : str) : option nat :=
  match s with
  | [] => None
  | x :: s' => if bool_decide (x = c) then Some O else S <$> index_of c s'
  end.

(** Position of the last ESC-backslash pair. *)
Fixpoint last_st (s : str) : option nat :=
  match s with
  | [] => None
  | c :: s' =>
      match last_st s' with
      | Some q => Some (S q)
      | None =>
          match s' with
          | d :: _ =>
              if bool_decide (c = ESC) && bool_decide (d = "\"%char)
              then Some O else None
          | [] => None
          end
      end
  end.

(** Length of the control sequence that starts at an ESC followed by [rest]
    (the ESC included), or 0 when there is none. *)
Definition csi_len (rest : str) : nat :=
  match rest with
  | c :: body =>
      if bool_decide (c = "["%char) then
        let a := span (in_range 48 63) body in
        let b := span (in_range 32 47) (drop a body) in
        match drop (a + b) body with
        | f :: _ => if in_range 64 126 f then (3 + a + b)%nat else O
        | [] => O
        end
      else O
  | [] => O
  end.

Definition osc_len (rest : str) : nat :=
  match rest with
  | c :: body =>
      if bool_decide (c = "]"%char) then
        match index_of BEL body with
        | Some p => (3 + p)%nat
        | None =>
            match last_st body with
            | Some q => (4 + q)%nat
            | None => O
            end
        end
      else O
  | [] => O
  end.

Definition two_byte_len (rest : str) : nat :=
  match rest with
  | c :: _ => if in_range 64 95 c then 2%nat else O
  | [] => O
  end.

Definition esc_len (rest : str) : nat :=
  match csi_len rest with
  | S n => S n
  | O => match osc_len rest with
         | S n => S n
         | O => two_byte_len rest
         end
  end.

Fixpoint strip_go (skip : nat) (s : str) : str :=
  match s with
  | [] => []
  | c :: s' =>
      match skip with
      | S k => strip_go k s'
      | O =>
          if bool_decide (c = ESC) then
            match esc_len s' with
            | S k => strip_go k s'
            | O => c :: strip_go O s'
            end
          else c :: strip_go O s'
      end
  end.

Definition _strip_ansi (text : str) : str := strip_go O text.

(** *** [_truncate_text] *)
Definition _truncate_text (text : str) (max_chars max_lines : Z) : str * bool :=
  match text with
  | [] => ([], false)
  | _ :: _ =>
      let lines := splitlines text in
      let '(lines, truncated) :=
        if len lines >? max_lines then (slice_to max_lines lines, true)
        else (lines, false) in
      let text := join [LF] lines in
      if len text >? max_chars then (slice_to max_chars text, true)
      else (text, truncated)
  end.

Definition output_note : str := LF :: LF :: lit "[output truncated]".
Definition stderr_note : str := LF :: LF :: lit "[stderr truncated]".

(** A stream as [run_command] stores it: truncated, then the note appended
    when a cap was hit. *)
Definition stored (note : str) (text : str) (max_chars max_lines : Z) : str :=
  let '(out, out_trunc) := _truncate_text text max_chars max_lines in
  if out_trunc then out ++ note else out.

(** *** [_ensure_path_prefix] *)
Definition path_prefix : str := lit "/usr/sbin:/sbin".

Definition _ensure_path_prefix (env : gmap str str) : gmap str str :=
  let path := default [] (env !! lit "PATH") in
  if negb (contains path_prefix path) then
    <[ lit "PATH" := match path with
                     | _ :: _ => path_prefix ++ lit ":" ++ path
                     | [] => path_prefix
                     end ]> env
  else env.

(** [path.split(":")]: the entries of a search path. *)
Fixpoint split_on (sep : ascii) (s : str) : list str :=
  match s with
  | [] => [[]]
  | c :: s' =>
      if bool_decide (c = sep) then [] :: split_on sep s'
      else match split_on sep s' with
           | l :: ls => (c :: l) :: ls
           | [] => [[c]]
           end
  end.

Definition path_entries (env : gmap str str) : list str :=
  split_on ":"%char (default [] (env !! lit "PATH")).

(** *** [run_command] *)

(** What [subprocess.run(..., text=True, capture_output=True, timeout=...)]
    does: it returns a completed process, or raises [TimeoutExpired], or
    raises another exception, of which the class name and [str(e)] are kept.

    A [TimeoutExpired] carries, for each stream, what was read before the
    timeout: [None] when nothing was read; otherwise the raw [bytes] on POSIX,
    also with [text=True]; and decoded text on Windows, where the streams are
    read once more after the kill. *)
Inductive captured :=
  | NoCapture
  | CapturedBytes (data : list Byte.byte)
  | CapturedText (text : str).

Inductive run_outcome :=
  | Completed (rc : Z) (out err : str)
  | TimeoutExpired (out err : captured)
  | Raised (ename msg : str).

(** The process's surroundings: its environment, the shell, and the two
    readings of [time.monotonic()] around the call. *)
Record Host := mkHost {
  os_environ : gmap str str;
  subprocess_run : str -> Q -> gmap str str -> run_outcome;
  clock_start : Q;
  clock_end : Q
}.

(** An exception that leaves [run_command]. *)
Inductive escaped :=
  | TypeError (msg : str).

Definition bytes_pattern_error : escaped :=
  TypeError (lit "cannot use a string pattern on a bytes-like object").

(** [_strip_ansi(e.stdout or "")] in the handler of [TimeoutExpired]:
    [ANSI_ESCAPE_RE] is a [str] pattern, and [re] refuses to apply one to
    [bytes]. Empty [bytes] are false and give way to the empty text. *)
Definition strip_captured (c : captured) : escaped + str :=
  match c with
  | NoCapture | CapturedBytes [] => inr (_strip_ansi [])
  | CapturedText text => inr (_strip_ansi text)
  | CapturedBytes (_ :: _) => inl bytes_pattern_error
  end.

Definition timed_out_note : str := lit "[command timed out]".

(** The handler of [TimeoutExpired] raises from inside an [except] clause, so
    the [except Exception] that follows it does not apply. *)
Definition run_command (h : Host) (title command : str) (timeout_s : Q)
    (max_chars max_lines : Z) (skip_reason : option str)
    : escaped + CommandResult :=
  if truthy skip_reason then
    inr (mkCommandResult title command 0 None
           (lit "Skipped: " ++ default [] skip_reason) [] skip_reason)
  else
    let env := _ensure_path_prefix (os_environ h) in
    let duration := (clock_end h - clock_start h)%Q in
    match subprocess_run h command timeout_s env with
    | Completed rc out err =>
        inr (mkCommandResult title command duration (Some rc)
               (stored output_note (_strip_ansi out) max_chars max_lines)
               (stored stderr_note (_strip_ansi err) max_chars max_lines)
               None)
    | TimeoutExpired out err =>
        match strip_captured out with
        | inl e => inl e
        | inr out =>
            match strip_captured err with
            | inl e => inl e
            | inr err =>
                let stdout := fst (_truncate_text out max_chars max_lines) in
                let stderr := fst (_truncate_text err max_chars max_lines) in
                inr (mkCommandResult title command duration None
                       (match stdout with
                        | _ :: _ => stdout ++ LF :: LF :: timed_out_note
                        | [] => timed_out_note
                        end)
                       (match stderr with
                        | _ :: _ => stderr ++ LF :: LF :: timed_out_note
                        | [] => stderr
                        end)
                       None)
            end
        end
    | Raised ename msg =>
        inr (mkCommandResult title command duration None []
               (lit "[exception] " ++ ename ++ lit ": " ++ msg) None)
    end.
(** ** Maintenance tasks *)

Definition MODE_REPORT : str := lit "report".
Definition MODE_DRY_RUN : str := lit "dry-run".
Definition MODE_APPLY : str := lit "apply".

Definition TASK_REPORT : str := lit "report-html".
Definition TASK_BREW : str := lit "brew-maintenance".
Definition TASK_FIND_ORPHANS : str := lit "find-orphans".
Definition TASK_ARCHIVE_ORPHANS : str := lit "archive-orphans".
Definition TASK_CLEANUP_ARCHIVES : str := lit "cleanup-archives".
Definition TASK_CHROME : str := lit "chrome-cleanup".
Definition TASK_COPY : str := lit "copy-speed-test".

Definition DEFAULT_ARCHIVE_FOLDERS : list str :=
  [ lit "360Works"; lit "Amazon Cloud Drive"; lit "Alfred 2";
    lit "anythingllm-desktop"; lit "AIR Music Technology"; lit "Ableton";
    lit "Backup"; lit "AIM"; lit "Appfluence"; lit "amazon-q" ].

(** *** Paths, the file system and the monad of the tasks *)

(** A [Path] is the list of the components of an absolute path; [str(p)]
    writes them after slashes. *)
Abbreviation path := (list str).

Definition path_str (p : path) : str :=
  match p with
  | [] => lit "/"
  | _ :: _ => concat (map (fun c => "/"%char :: c) p)
  end.

Inductive node := File | Dir.

#[global] Instance node_eq_dec : EqDecision node.
Proof. solve_decision. Defined.

Record World := mkWorld {
  fs : gmap path node;           (* what exists on disk *)
  logged : list str;             (* the messages given to [log], oldest first *)
  spawned : list (list str)      (* argv of every process started *)
}.

Inductive exn :=
  | ValueError (msg : str)
  | OSError (msg : str).

Definition exn_msg (e : exn) : str :=
  match e with ValueError msg => msg | OSError msg => msg end.

Definition M (A : Type) : Type := World -> World * (exn + A).

Definition ret {A} (a : A) : M A := fun w => (w, inr a).

Definition raise {A} (e : exn) : M A := fun w => (w, inl e).

Definition bind {A B} (c : M A) (k : A -> M B) : M B :=
  fun w => match c w with
           | (w', inr a) => k a w'
           | (w', inl e) => (w', inl e)
           end.

Notation "'let!' x ':=' c 'in' k" := (bind c (fun x => k))
  (at level 10, x name, c at level 100, k at level 200).
Notation "c >> k" := (bind c (fun _ => k))
  (at level 90, right associativity).

(** [try: c except Exception as e: handler(e)] *)
Definition try_except {A} (c : M A) (handler : exn -> M A) : M A :=
  fun w => match c w with
           | (w', inl e) => handler e w'
           | r => r
           end.

Definition lift {A} (r : exn + A) : M A :=
  match r with inl e => raise e | inr a => ret a end.

Fixpoint for_each {A} (l : list A) (body : A -> M unit) : M unit :=
  match l with
  | [] => ret tt
  | x :: l' => body x >> for_each l' body
  end.

Definition log (msg : str) : M unit :=
  fun w => (mkWorld (fs w) (logged w ++ [msg]) (spawned w), inr tt).

Definition spawn (argv : list str) : M unit :=
  fun w => (mkWorld (fs w) (logged w) (spawned w ++ [argv]), inr tt).

Definition node_at (f : gmap path node) (p : path) : option node :=
  match p with
  | [] => Some Dir
  | _ :: _ => f !! p
  end.

(** [p.exists()] and [p.is_dir()] *)
Definition path_exists (p : path) : M bool :=
  fun w => (w, inr (bool_decide (is_Some (node_at (fs w) p)))).

Definition is_dir (p : path) : M bool :=
  fun w => (w, inr (bool_decide (node_at (fs w) p = Some Dir))).

Fixpoint strip_prefix (pre p : path) : option path :=
  match pre, p with
  | [], _ => Some p
  | a :: pre', b :: p' => if bool_decide (a = b) then strip_prefix pre' p' else None
  | _ :: _, [] => None
  end.

(** The entries of a directory, as [iterdir()] lists them, with their kind. *)
Definition entries (f : gmap path node) (dir : path) : list (str * node) :=
  omap (fun '(q, nd) => match strip_prefix dir q with
                        | Some [name] => Some (name, nd)
                        | _ => None
                        end) (map_to_list f).

(** [path.mkdir(parents=True, exist_ok=True)]: every missing directory on the
    way is created; a file in the way makes it raise. *)
Fixpoint mkdir_chain (pre rest : path) (f : gmap path node) : exn + gmap path node :=
  match rest with
  | [] => inr f
  | c :: rest' =>
      let q := pre ++ [c] in
      match f !! q with
      | Some File => inl (OSError (lit "[Errno 17] File exists: " ++ path_str q))
      | Some Dir => mkdir_chain q rest' f
      | None => mkdir_chain q rest' (<[q := Dir]> f)
      end
  end.

Definition ensure_dir (p : path) : M path :=
  fun w => match mkdir_chain [] p (fs w) with
           | inr f' => (mkWorld f' (logged w) (spawned w), inr p)
           | inl e => (w, inl e)
           end.

(** [shutil.rmtree(p)] *)
Definition rmtree (p : path) : M unit :=
  fun w => (mkWorld (filter (fun '(q, _) => strip_prefix p q = None) (fs w))
              (logged w) (spawned w), inr tt).

(** What the tasks read from their surroundings. *)
Record Machine := mkMachine {
  home : path;                   (* [Path.home().resolve()] *)
  resolve : path -> path;        (* [p.expanduser().resolve()] *)
  today_plus : Z -> str;         (* [(date.today() + timedelta(days)).strftime("%Y-%m-%d")] *)
  du_answer : path -> option Z;  (* the figure [du -sk] prints, [None] when it fails *)
  mtime_of : path -> option str; (* the formatted [st_mtime], [None] when [stat] raises *)
  zip_answer : list str -> Z * str; (* exit code and [stderr.strip()] of [zip] *)
  removal_error : path -> option str
    (* [str(e)] of the [OSError] with which the removal of the entry fails
       (permissions, flags, a file in use, a link that [rmtree] will not
       follow); [None] when the entry can be removed *)
}.

(** [p.unlink()] *)
Definition unlink (m : Machine) (p : path) : M unit :=
  fun w => match node_at (fs w) p with
           | Some File =>
               match removal_error m p with
               | None => (mkWorld (delete p (fs w)) (logged w) (spawned w), inr tt)
               | Some msg => (w, inl (OSError msg))
               end
           | _ => (w, inl (OSError (lit "[Errno 2] No such file: " ++ path_str p)))
           end.

(** *** [validate_home_path] *)
Definition validate_home_path (m : Machine) (p : path) (label : str) : exn + path :=
  let resolved := resolve m p in
  if negb (startswith (path_str (home m)) (path_str resolved))
  then inl (ValueError (label ++ lit " must be within " ++ path_str (home m)))
  else inr resolved.

(** *** [human_size_kb] and [du_kb]

    Dividing by 1024 twice is exact in binary floating point, and [:.2f] rounds
    the exact value to the nearest hundredth, ties to even. *)
Definition two_digits (n : Z) : str :=
  if n <? 10 then lit "0" ++ str_of_Z n else str_of_Z n.

Definition human_size_kb (kb : Z) : str :=
  let n := Z.abs kb * 100 in
  let q := n / 1048576 in
  let r := n mod 1048576 in
  let h := if (524288 <? r) || ((r =? 524288) && Z.odd q) then q + 1 else q in
  (if kb <? 0 then lit "-" else []) ++
  str_of_Z (h / 100) ++ lit "." ++ two_digits (h mod 100) ++ lit " GB".

Definition du_kb (m : Machine) (p : path) : M (option Z) :=
  spawn [lit "/usr/bin/du"; lit "-sk"; path_str p] >> ret (du_answer m p).

(** [human_size_kb(size) if size else "unknown"] *)
Definition size_str (size : option Z) : str :=
  match size with
  | Some 0 | None => lit "unknown"
  | Some kb => human_size_kb kb
  end.

(** *** [task_cleanup_archives] *)

Definition is_digit (c : ascii) : bool := in_range 48 57 c.

(** [[0-9]{4}-[0-9]{2}-[0-9]{2}] against a whole string. *)
Definition is_date (s : str) : bool :=
  match s with
  | [y1; y2; y3; y4; h1; m1; m2; h2; d1; d2] =>
      forallb is_digit [y1; y2; y3; y4; m1; m2; d1; d2]
      && bool_decide (h1 = hyphen) && bool_decide (h2 = hyphen)
  | _ => false
  end.

(** The glob [*_delete_*.zip] against a name. *)
Definition glob_delete_zip (name : str) : bool :=
  endswith (lit ".zip") name
  && contains (lit "_delete_") (take (length name - 4) name).

(** [pattern.match(name)] for [.*_delete_([0-9]{4}-[0-9]{2}-[0-9]{2})\.zip$],
    giving group 1.  The dot does not match a line feed, and [$] also matches
    before a final line feed. *)
Definition pattern_group (name : str) : option str :=
  let name := if endswith [LF] name then take (length name - 1) name else name in
  let body := take (length name - 4) name in
  let front := take (length body - 10) body in
  let date := drop (length body - 10) body in
  if endswith (lit ".zip") name && is_date date
     && endswith (lit "_delete_") front
     && negb (bool_decide (LF ∈ front))
  then Some date else None.

(** [delete_date <= today] *)
Definition eligible (today name : str) : bool :=
  match pattern_group name with
  | Some delete_date => str_le delete_date today
  | None => false
  end.

Definition glob_archives (archive_dir : path) : M (list str) :=
  fun w => (w, inr (List.filter glob_delete_zip (map fst (entries (fs w) archive_dir)))).

Definition task_cleanup_archives (m : Machine) (archive_dir : path) (mode : str)
    : M unit :=
  let! archive_dir := lift (validate_home_path m archive_dir (lit "archive-dir")) in
  let! present := path_exists archive_dir in
  if negb present then
    log (lit "cleanup-archives: directory not found: " ++ path_str archive_dir)
  else
    let today := today_plus m 0 in
    let! names := glob_archives archive_dir in
    let candidates := List.filter (eligible today) names in
    match candidates with
    | [] => log (lit "cleanup-archives: no archives eligible for deletion")
    | _ :: _ =>
        log (lit "cleanup-archives: " ++ str_of_Z (len candidates)
             ++ lit " archive(s) eligible for deletion") >>
        for_each candidates (fun name =>
          let p := archive_dir ++ [name] in
          let! size := du_kb m p in
          if bool_decide (mode = MODE_APPLY) then
            try_except
              (unlink m p >>
               log (lit "deleted: " ++ name ++ lit " (" ++ size_str size ++ lit ")"))
              (fun e => log (lit "failed to delete " ++ name ++ lit ": " ++ exn_msg e))
          else
            log (lit "would delete: " ++ name ++ lit " (" ++ size_str size ++ lit ")"))
    end.

(** *** [task_archive_orphans] *)

Definition replace_char (a b : ascii) (s : str) : str :=
  map (fun c => if bool_decide (c = a) then b else c) s.

Definition zip_argv (archive_path : path) (folder : str) : list str :=
  [lit "/usr/bin/zip"; lit "-r"; path_str archive_path; folder].

(** A [zip] that exits with 0 has written the archive. *)
Definition run_zip (m : Machine) (archive_path : path) (folder : str) : M (Z * str) :=
  spawn (zip_argv archive_path folder) >>
  fun w =>
    let r := zip_answer m (zip_argv archive_path folder) in
    (if bool_decide (r.1 = 0)
     then mkWorld (<[archive_path := File]> (fs w)) (logged w) (spawned w)
     else w, inr r).

(** [app_support_dir / folder] is taken as the entry [folder] of the
    directory, which is what it is for a name that is a single path
    component. *)
Definition task_archive_orphans (m : Machine) (app_support_dir archive_dir : path)
    (folders : list str) (days : Z) (mode : str) : M unit :=
  let app_support_dir := resolve m app_support_dir in
  let! archive_dir := lift (validate_home_path m archive_dir (lit "archive-dir")) in
  ensure_dir archive_dir >>
  let delete_date := today_plus m days in
  log (lit "archive-orphans: delete date set to " ++ delete_date) >>
  for_each folders (fun folder =>
    let folder_path := app_support_dir ++ [folder] in
    let! found := is_dir folder_path in
    if negb found then log (lit "skip (not found): " ++ folder)
    else
      let archive_name :=
        replace_char " "%char "_"%char folder ++ lit "_delete_" ++ delete_date
        ++ lit ".zip" in
      let archive_path := archive_dir ++ [archive_name] in
      if negb (bool_decide (mode = MODE_APPLY)) then
        log (lit "would archive: " ++ folder ++ lit " -> " ++ path_str archive_path)
      else
        try_except
          (log (lit "archiving: " ++ folder) >>
           let! proc := run_zip m archive_path folder in
           if negb (bool_decide (proc.1 = 0)) then
             log (lit "zip failed for " ++ folder ++ lit ": " ++ proc.2)
           else
             rmtree folder_path >>
             log (lit "archived and removed: " ++ folder))
          (fun e => log (lit "archive failed for " ++ folder ++ lit ": " ++ exn_msg e))).

(** *** [task_find_orphans] *)

(** Regular expressions, as far as the skip pattern needs them.  [re_match]
    is the truth value of [skip_re.match(s)]: some prefix of [s] matches. *)
Inductive regex :=
  | Void
  | Eps
  | Sym (p : ascii -> bool)
  | Cat (r1 r2 : regex)
  | Alt (r1 r2 : regex)
  | Star (r : regex).

Fixpoint nullable (r : regex) : bool :=
  match r with
  | Void | Sym _ => false
  | Eps | Star _ => true
  | Cat r1 r2 => nullable r1 && nullable r2
  | Alt r1 r2 => nullable r1 || nullable r2
  end.

Fixpoint deriv (c : ascii) (r : regex) : regex :=
  match r with
  | Void | Eps => Void
  | Sym p => if p c then Eps else Void
  | Cat r1 r2 =>
      if nullable r1 then Alt (Cat (deriv c r1) r2) (deriv c r2)
      else Cat (deriv c r1) r2
  | Alt r1 r2 => Alt (deriv c r1) (deriv c r2)
  | Star r1 => Cat (deriv c r1) (Star r1)
  end.

Fixpoint re_match (r : regex) (s : str) : bool :=
  nullable r ||
  match s with
  | c :: s' => re_match (deriv c r) s'
  | [] => false
  end.

(** [re.compile(text)] for a text without special characters. *)
Fixpoint re_literal (text : str) : regex :=
  match text with
  | [] => Eps
  | c :: text' => Cat (Sym (fun x => bool_decide (x = c))) (re_literal text')
  end.

Fixpoint insert_sorted (x : str) (l : list str) : list str :=
  match l with
  | [] => [x]
  | y :: l' => if str_le x y then x :: l else y :: insert_sorted x l'
  end.

(** [sorted(names)] *)
Definition sorted (l : list str) : list str := foldr insert_sorted [] l.

Definition app_matches (support_lower app : str) : bool :=
  contains support_lower app || contains app support_lower.

Definition is_orphan (installed_apps : list str) (skip_re : regex)
    (support_dir : str) : bool :=
  negb (re_match skip_re support_dir)
  && negb (existsb (app_matches (lower support_dir)) installed_apps).

Definition orphan_names (installed_apps : list str) (skip_re : regex)
    (support_dirs : list str) : list str :=
  List.filter (is_orphan installed_apps skip_re) support_dirs.

(** [entry.name[:-4].lower()] of the entries whose name ends in [.app]. *)
Definition installed_app_names (names : list str) : list str :=
  map (fun n => lower (slice_to (-4) n))
      (List.filter (endswith (lit ".app")) names).

Definition task_find_orphans (m : Machine) (app_support_dir applications_dir : path)
    (limit : Z) (skip_re : regex) : M unit :=
  let app_support_dir := resolve m app_support_dir in
  let applications_dir := resolve m applications_dir in
  let! found := is_dir app_support_dir in
  if negb found then
    log (lit "find-orphans: Application Support not found: "
         ++ path_str app_support_dir)
  else
    let! listable := is_dir applications_dir in
    if negb listable then
      log (lit "find-orphans: failed to list /Applications: "
           ++ lit "[Errno 2] No such file or directory: '"
           ++ path_str applications_dir ++ lit "'")
    else fun w =>
      let installed_apps :=
        installed_app_names (map fst (entries (fs w) applications_dir)) in
      let support_dirs :=
        sorted (omap (fun '(name, nd) => match nd with
                                         | Dir => Some name
                                         | File => None
                                         end)
                  (entries (fs w) app_support_dir)) in
      let orphans := orphan_names installed_apps skip_re support_dirs in
      (log (lit "find-orphans: found " ++ str_of_Z (len orphans)
            ++ lit " potential orphaned folders") >>
       for_each (slice_to limit orphans) (fun name =>
         let full := app_support_dir ++ [name] in
         let! size := du_kb m full in
         let mtime := default (lit "unknown") (mtime_of m full) in
         log (lit "  " ++ name ++ lit " (" ++ size_str size
              ++ lit ", last modified: " ++ mtime ++ lit ")"))) w.

(** *** [main] *)

(** The parsed command line, as far as [main] and the tasks above read it. *)
Record Args := mkArgs {
  arg_mode : str;
  arg_task : option (list str);      (* [None] without any [--task] *)
  arg_app_support_dir : path;
  arg_applications_dir : path;
  arg_orphans_limit : Z;
  arg_archive_dir : path;
  arg_archive_days : Z;
  arg_archive_folder : list str
}.

(** The tasks that are not embedded here: the report and the brew, Chrome and
    copy tasks, each as what it does to the world given the arguments. *)
Record OtherTasks := mkOtherTasks {
  generate_report : Args -> M unit;
  task_brew_maintenance : Args -> M unit;
  task_chrome_cleanup : Args -> M unit;
  task_copy_speed_test : Args -> M unit
}.

Definition DEFAULT_ORPHANS_LIMIT : Z := 30.
Definition DEFAULT_ARCHIVE_DAYS : Z := 90.

Definition when (b : bool) (c : M unit) : M unit := if b then c else ret tt.

Definition selected (t : str) (tasks : list str) : bool := bool_decide (t ∈ tasks).

Definition run_tasks (m : Machine) (o : OtherTasks) (skip_re : regex)
    (args : Args) (tasks : list str) : M Z :=
  let mode := arg_mode args in
  when (selected TASK_REPORT tasks) (generate_report o args) >>
  when (selected TASK_BREW tasks) (task_brew_maintenance o args) >>
  when (selected TASK_FIND_ORPHANS tasks)
    (task_find_orphans m (arg_app_support_dir args) (arg_applications_dir args)
       (arg_orphans_limit args) skip_re) >>
  when (selected TASK_ARCHIVE_ORPHANS tasks)
    (let folders := match arg_archive_folder args with
                    | [] => DEFAULT_ARCHIVE_FOLDERS
                    | fs => fs
                    end in
     task_archive_orphans m (arg_app_support_dir args) (arg_archive_dir args)
       folders (arg_archive_days args) mode) >>
  when (selected TASK_CLEANUP_ARCHIVES tasks)
    (task_cleanup_archives m (arg_archive_dir args) mode) >>
  when (selected TASK_CHROME tasks) (task_chrome_cleanup o args) >>
  when (selected TASK_COPY tasks) (task_copy_speed_test o args) >>
  ret 0.

(** [main] after [parse_args]; [skip_re] is [DEFAULT_ORPHANS_SKIP_RE]. *)
Definition main (m : Machine) (o : OtherTasks) (skip_re : regex) (args : Args)
    : M Z :=
  let mode := arg_mode args in
  let tasks := default [] (arg_task args) in
  match tasks with
  | [] =>
      if bool_decide (mode = MODE_REPORT) then
        run_tasks m o skip_re args [TASK_REPORT]
      else
        log (lit "No tasks selected. Use --task to choose what to run.") >>
        ret 2
  | _ :: _ => run_tasks m o skip_re args tasks
  end.

(** ** Vocabulary of the statements *)

(** The characters of an identifier: the hyphen and the alphanumeric ones;
    and those among them that are lowercase characters of Latin-1. *)
Definition slug_char (db : Unicode) (c : N) : Prop :=
  c = dash \/ uisalnum db c = true.

Definition lower_latin1 (db : Unicode) (c : N) : Prop :=
  latin1 c = true /\ uisupper db c = false.

Definition plain_slug_char (db : Unicode) (c : N) : Prop :=
  c = dash \/ (uisalnum db c = true /\ lower_latin1 db c).

(** The loop invariant of [_slugify], for a property [ok] that the characters
    of the lowered text have: kept characters are hyphens or alphanumeric
    characters with [ok], [last_dash] tells whether the last kept one is a
    hyphen, and no two hyphens are adjacent. *)
Definition slug_inv (db : Unicode) (ok : N -> Prop) (st : ustr * bool) : Prop :=
  Forall (fun c => c = dash \/ (uisalnum db c = true /\ ok c)) st.1
  /\ (st.2 = true <-> last st.1 = Some dash)
  /\ (forall a b, st.1 <> a ++ dash :: dash :: b).

(** A property of the character database: lowering never turns a character
    that is not alphanumeric into alphanumeric ones. (Below 256 this is a
    fact of the tables.) *)
Definition keeps_non_alnum (db : Unicode) : Prop :=
  forall text i c,
    text !! i = Some c -> latin1 c = false -> isalnum_beyond db c = false ->
    Forall (fun d => uisalnum db d = false) (lower_beyond db text i).

(** A character database in which, beyond Latin-1, only U+2102
    DOUBLE-STRUCK CAPITAL C is assigned: an uppercase letter without a
    lowercase mapping. *)
Definition letterlike : Unicode :=
  mkUnicode (fun text i => match text !! i with Some c => [c] | None => [] end)
    (fun c => bool_decide (c = 8450%N))
    (fun c => bool_decide (c = 8450%N)).

Definition nobreak (l : str) : Prop := Forall (fun c => is_linebreak c = false) l.

(** Texts whose only line boundaries are line feeds. *)
Definition lf_only (u : str) : Prop :=
  Forall (fun c => is_linebreak c = true -> c = LF) u.

(** A note as [run_command] appends it: two line feeds and a bracketed word. *)
Definition is_note (note : str) : Prop :=
  exists N, note = LF :: LF :: N /\ nobreak N /\ N <> [].

Definition three_lines : str := lit "ab" ++ LF :: lit "cd" ++ LF :: lit "ef".

Definition a_two_feeds : str := lit "a" ++ [LF; LF].


(** A path is under a directory when its components extend the directory's. *)
Definition under (dir p : path) : Prop := exists rest, p = dir ++ rest.

(** A machine whose home is [/Users/jpaul], without symbolic links, on
    4 November 2026. *)
Definition jpaul_home : path := [lit "Users"; lit "jpaul"].

Definition jpaul_mac : Machine :=
  mkMachine jpaul_home (fun p => p)
    (fun days => if days =? 0 then lit "2026-11-04" else lit "2027-02-02")
    (fun _ => Some 131072) (fun _ => Some (lit "2020-01-01"))
    (fun _ => (0, [])) (fun _ => None).

Definition sibling_of_home : path := [lit "Users"; lit "jpaul2"; lit "secret"].

(** Dates read off a string of the shape [YYYY-MM-DD], and their order in
    time. *)
Definition digit_val (c : ascii) : N := (code c - 48)%N.

Definition number (digits : str) : N :=
  fold_left (fun acc d => (10 * acc + digit_val d)%N) digits 0%N.

Definition ymd (s : str) : N * N * N :=
  (number (take 4 s), number (take 2 (drop 5 s)), number (drop 8 s)).

Definition chrono_le (a b : N * N * N) : Prop :=
  let '(y1, m1, d1) := a in
  let '(y2, m2, d2) := b in
  (y1 < y2 \/ (y1 = y2 /\ (m1 < m2 \/ (m1 = m2 /\ d1 <= d2))))%N.

(** Computations that leave the disk alone and start nothing but [du]. *)
Definition is_du (argv : list str) : Prop := head argv = Some (lit "/usr/bin/du").

Definition read_only {A} (c : M A) : Prop :=
  forall w, fs (c w).1 = fs w
            /\ exists extra, spawned (c w).1 = spawned w ++ extra /\ Forall is_du extra.

Definition never_raises {A} (c : M A) : Prop :=
  forall w, exists w' a, c w = (w', inr a).

(** A home directory holding an archive directory with one archive whose date
    has passed and one whose date has not. *)
Definition archive_dir_0 : path := jpaul_home ++ [lit "archives"].

Definition archives_world : World :=
  mkWorld
    (<[ archive_dir_0 ++ [lit "x_delete_2000-01-01.zip"] := File ]>
     (<[ archive_dir_0 ++ [lit "y_delete_2999-01-01.zip"] := File ]>
      (<[ archive_dir_0 := Dir ]>
       (<[ jpaul_home := Dir ]> (<[ [lit "Users"] := Dir ]> ∅)))))
    [] [].

(** A home directory with one support folder and no archive directory yet. *)
Definition support_dir_0 : path := jpaul_home ++ [lit "Application Support"].
Definition new_archive_dir : path := jpaul_home ++ [lit "Desktop"; lit "Archives"].

Definition support_world : World :=
  mkWorld
    (<[ support_dir_0 ++ [lit "SomeApp"] := Dir ]>
     (<[ support_dir_0 := Dir ]>
      (<[ jpaul_home := Dir ]> (<[ [lit "Users"] := Dir ]> ∅))))
    [] [].

(** The applications [{Foo}] and the support folders [{Foo Helper, Bar}]. *)
Definition apps_dir_0 : path := [lit "Applications"].

Definition orphans_world : World :=
  mkWorld
    (<[ support_dir_0 ++ [lit "Foo Helper"] := Dir ]>
     (<[ support_dir_0 ++ [lit "Bar"] := Dir ]>
      (<[ support_dir_0 := Dir ]>
       (<[ jpaul_home := Dir ]>
        (<[ [lit "Users"] := Dir ]>
         (<[ apps_dir_0 ++ [lit "Foo.app"] := Dir ]>
          (<[ apps_dir_0 := Dir ]> ∅)))))))
    [] [].

(** The line [task_find_orphans] logs for one folder. *)
Definition orphan_line (m : Machine) (app_support_dir : path) (name : str) : str :=
  let full := app_support_dir ++ [name] in
  lit "  " ++ name ++ lit " (" ++ size_str (du_answer m full)
  ++ lit ", last modified: " ++ default (lit "unknown") (mtime_of m full) ++ lit ")".

(** The seven tasks in the order [main] tries them. *)
Definition task_table (m : Machine) (o : OtherTasks) (skip_re : regex)
    (args : Args) : list (str * M unit) :=
  [ (TASK_REPORT, generate_report o args);
    (TASK_BREW, task_brew_maintenance o args);
    (TASK_FIND_ORPHANS,
     task_find_orphans m (arg_app_support_dir args) (arg_applications_dir args)
       (arg_orphans_limit args) skip_re);
    (TASK_ARCHIVE_ORPHANS,
     task_archive_orphans m (arg_app_support_dir args) (arg_archive_dir args)
       (match arg_archive_folder args with
        | [] => DEFAULT_ARCHIVE_FOLDERS
        | fs => fs
        end) (arg_archive_days args) (arg_mode args));
    (TASK_CLEANUP_ARCHIVES,
     task_cleanup_archives m (arg_archive_dir args) (arg_mode args));
    (TASK_CHROME, task_chrome_cleanup o args);
    (TASK_COPY, task_copy_speed_test o args) ].

Definition no_task_line : str :=
  lit "No tasks selected. Use --task to choose what to run.".

(** A host whose shell cannot be started. *)
Definition broken_host : Host :=
  mkHost ∅
    (fun _ _ _ => Raised (lit "FileNotFoundError")
                    (lit "[Errno 2] No such file or directory: '/bin/sh'"))
    0 (1 # 2).

(** Other tasks that do nothing, and a command line that selects the report. *)
Definition idle_tasks : OtherTasks :=
  mkOtherTasks (fun _ => ret tt) (fun _ => ret tt) (fun _ => ret tt) (fun _ => ret tt).

Definition report_args : Args :=
  mkArgs MODE_REPORT (Some [TASK_REPORT]) support_dir_0 apps_dir_0
    DEFAULT_ORPHANS_LIMIT archive_dir_0 DEFAULT_ARCHIVE_DAYS [].

(** A POSIX host on which the command prints [PING] and then outlives its
    timeout: the exception carries the four bytes read so far and no
    stderr. *)
Definition hung_host : Host :=
  mkHost ∅
    (fun _ _ _ => TimeoutExpired (CapturedBytes [Byte.x50; Byte.x49; Byte.x4e; Byte.x47])
                    NoCapture)
    0 1.

(** ** Section aggregator *)

(** [_section_status]: the worst class among the results of a section. *)
Definition _section_status (results : list CommandResult) : str :=
  let classes := map (fun r => (badge_for_result r).1) results in
  if bool_decide (lit "bad" ∈ classes) then lit "bad"
  else if bool_decide (lit "warn" ∈ classes) then lit "warn"
  else lit "ok".

(** [sum(1 for r in results if badge_for_result(r)[0] == cls)] *)
Definition count_class (cls : str) (results : list CommandResult) : Z :=
  len (List.filter (fun r => bool_decide ((badge_for_result r).1 = cls)) results).

(** [sum(1 for r in all_results if r.skipped_reason)] *)
Definition count_skipped (results : list CommandResult) : Z :=
  len (List.filter (fun r => truthy (skipped_reason r)) results).

(** [_format_section_meta].  Its bullet is U+2022, which lies outside the code
    points of [str]; the text of the bullet is passed in. *)
Definition _format_section_meta (bullet : str) (results : list CommandResult) : str :=
  str_of_Z (len results) ++ lit " checks " ++ bullet ++ lit " "
  ++ str_of_Z (count_class (lit "ok") results) ++ lit " ok " ++ bullet ++ lit " "
  ++ str_of_Z (count_class (lit "warn") results) ++ lit " warn " ++ bullet ++ lit " "
  ++ str_of_Z (count_class (lit "bad") results) ++ lit " bad".

(** A clean identifier of Latin-1: hyphens and lowercase alphanumeric
    characters, not empty, no hyphen at either end, no two hyphens in a
    row. *)
Definition clean_slug (db : Unicode) (s : ustr) : Prop :=
  s <> [] /\ Forall (plain_slug_char db) s /\ head s <> Some dash
  /\ last s <> Some dash /\ (forall a b, s <> a ++ dash :: dash :: b).

(** A host on which every command completes with exit code 0 and prints
    [ok]. *)
Definition quiet_host : Host :=
  mkHost ∅ (fun _ _ _ => Completed 0 (lit "ok") []) 0 (1 # 10).

(** A captured stream that the handler of [TimeoutExpired] can pass to
    [_strip_ansi]: anything but bytes that are not empty. *)
Definition readable (c : captured) : Prop :=
  forall b data, c <> CapturedBytes (b :: data).

(** Computations that create nothing on disk, change no entry, and remove
    only entries that satisfy [P]. *)
Definition shrinks {A} (P : path -> node -> Prop) (c : M A) : Prop :=
  forall w,
    (forall q n, fs (c w).1 !! q = Some n -> fs w !! q = Some n)
    /\ (forall q n, fs w !! q = Some n -> fs (c w).1 !! q = None -> P q n).

(** A name that is a single path component: joined to a directory with [/],
    it names an entry of that directory. (The empty name and [.] name the
    directory itself, [..] and names with a slash lead elsewhere.) *)
Definition plain_name (name : str) : Prop :=
  name <> [] /\ ("/"%char ∉ name) /\ name <> lit "." /\ name <> lit "..".

(** The name [task_archive_orphans] gives to the archive of a folder. *)
Definition archive_name (folder delete_date : str) : str :=
  replace_char " "%char "_"%char folder ++ lit "_delete_" ++ delete_date ++ lit ".zip".

(** A computation all of whose runs relate the world before to the world
    after by [R]. *)
Definition steps {A} (R : World -> World -> Prop) (c : M A) : Prop :=
  forall w, R w (c w).1.

(** Every process started between two worlds satisfies [S]. *)
Definition spawned_only (S : list str -> Prop) (w w' : World) : Prop :=
  exists extra, spawned w' = spawned w ++ extra /\ Forall S extra.

(** Every entry that was on disk and is gone satisfies [P]. *)
Definition removed_only (P : path -> Prop) (w w' : World) : Prop :=
  forall q n, fs w !! q = Some n -> fs w' !! q = None -> P q.

(** Nothing that was on disk is removed or changed, and every entry that is
    new satisfies [Q]. *)
Definition grows (Q : path -> node -> Prop) (w w' : World) : Prop :=
  (forall q n, fs w !! q = Some n -> fs w' !! q = Some n)
  /\ (forall q n, fs w !! q = None -> fs w' !! q = Some n -> Q q n).

Definition no_process : list str -> Prop := fun _ => False.



(** A command line that asks for the copy test, the cleanup and the brew
    task, with an archive directory outside the home directory. *)
Definition brew_etc_args : Args :=
  mkArgs MODE_APPLY (Some [TASK_COPY; TASK_CLEANUP_ARCHIVES; TASK_BREW]) support_dir_0
    apps_dir_0 DEFAULT_ORPHANS_LIMIT [lit "etc"] DEFAULT_ARCHIVE_DAYS [].

(** Other tasks that leave a trace in the log. *)
Definition noisy_tasks : OtherTasks :=
  mkOtherTasks (fun _ => log (lit "report")) (fun _ => log (lit "brew"))
    (fun _ => log (lit "chrome")) (fun _ => log (lit "copy")).

(** ** Package upkeep *)

(** [s.strip()]: the white space of [str] in the Latin-1 range. *)
Definition isspace (c : ascii) : bool :=
  in_range 9 13 c || in_range 28 32 c
  || bool_decide (code c = 133%N) || bool_decide (code c = 160%N).

Fixpoint lstrip_by (p : ascii -> bool) (s : str) : str :=
  match s with
  | x :: s' => if p x then lstrip_by p s' else s
  | [] => []
  end.

Definition strip_ws (s : str) : str :=
  rev (lstrip_by isspace (rev (lstrip_by isspace s))).

(** [shlex.quote] *)
Definition shell_safe (c : ascii) : bool :=
  in_range 48 57 c || in_range 65 90 c || in_range 97 122 c
  || bool_decide (c ∈ lit "_@%+=:,./-").

Definition squote : ascii := ascii_of_N 39.
Definition dquote : ascii := ascii_of_N 34.

Definition shlex_quote (s : str) : str :=
  match s with
  | [] => [squote; squote]
  | _ :: _ =>
      if forallb shell_safe s then s
      else squote
           :: flat_map (fun c => if bool_decide (c = squote)
                                 then [squote; dquote; squote; dquote; squote]
                                 else [c]) s
           ++ [squote]
  end.

(** What the brew task reads from its surroundings: whether a path exists and
    may be executed, what running a command line gives (a completed process
    with exit code, stdout and stderr, or an exception), and the text of the
    arrow U+2192 that starts the log line of [run_brew] (it lies outside the
    code points of [str]). *)
Record BrewHost := mkBrewHost {
  brew_executable : str -> bool;
  brew_answer : list str -> exn + (Z * str * str);
  arrow : str
}.

Definition validate_brew_bin (b : BrewHost) (brew_bin : str) : exn + str :=
  if negb (startswith (lit "/") brew_bin)
  then inl (ValueError (lit "brew bin must be an absolute path"))
  else if negb (brew_executable b brew_bin)
  then inl (ValueError (lit "brew bin not executable: " ++ brew_bin))
  else inr brew_bin.

Definition run_brew (b : BrewHost) (brew_bin : str) (args : list str)
    : M (Z * str * str) :=
  let cmd := brew_bin :: args in
  log (arrow b ++ lit " " ++ join (lit " ") (map shlex_quote cmd)) >>
  spawn cmd >>
  lift (brew_answer b cmd).

(** [p.write_text(text)]: the file is created or overwritten; a missing
    parent directory or a directory in its place makes it raise. *)
Definition write_text (p : path) : M unit :=
  fun w =>
    if bool_decide (node_at (fs w) (removelast p) = Some Dir)
       && negb (bool_decide (node_at (fs w) p = Some Dir))
    then (mkWorld (<[p := File]> (fs w)) (logged w) (spawned w), inr tt)
    else (w, inl (OSError (lit "[Errno 2] No such file or directory: '"
                           ++ path_str p ++ lit "'"))).

Record BrewFlags := mkBrewFlags {
  do_update : bool;
  do_upgrade : bool;
  do_upgrade_cask : bool;
  do_autoremove : bool;
  do_cleanup : bool;
  do_doctor : bool;
  do_missing : bool;
  do_list : bool;
  do_cask_list : bool;
  do_untap : bool;
  do_fix_casks : bool
}.

Definition any_flag (f : BrewFlags) : bool :=
  do_update f || do_upgrade f || do_upgrade_cask f || do_autoremove f
  || do_cleanup f || do_doctor f || do_missing f || do_list f
  || do_cask_list f || do_untap f || do_fix_casks f.

(** In report and dry-run mode, no flag at all means doctor, list and cask
    list. *)
Definition effective_flags (mode : str) (f : BrewFlags) : BrewFlags :=
  if (bool_decide (mode = MODE_REPORT) || bool_decide (mode = MODE_DRY_RUN))
     && negb (any_flag f)
  then mkBrewFlags (do_update f) (do_upgrade f) (do_upgrade_cask f)
         (do_autoremove f) (do_cleanup f) true (do_missing f) true true
         (do_untap f) (do_fix_casks f)
  else f.

Definition maybe_run (b : BrewHost) (mode brew_bin desc : str) (args : list str)
    (allow_in_report : bool) : M unit :=
  if bool_decide (mode = MODE_REPORT) && negb allow_in_report then
    log (lit "brew: report mode skip " ++ desc)
  else if bool_decide (mode = MODE_DRY_RUN) then
    log (lit "brew: would run " ++ desc ++ lit ": " ++ join (lit " ") args)
  else
    let! proc := run_brew b brew_bin args in
    if negb (bool_decide (proc.1.1 = 0)) then
      log (lit "brew: " ++ desc ++ lit " failed: " ++ strip_ws proc.2)
    else ret tt.

(** The cask to reinstall for an application whose bundle is missing. *)
Definition cask_for (app : str) : str :=
  if bool_decide (app = lit "JupyterLab") then lit "jupyterlab-app"
  else if bool_decide (app = lit "LosslessCut") then lit "losslesscut"
  else if bool_decide (app = lit "RsyncUI") then lit "rsyncui"
  else lower app.

(** [[line.strip().lower() for line in text.splitlines() if line.strip()]] *)
Definition stripped_lines (text : str) : list str :=
  map (fun line => lower (strip_ws line))
      (List.filter (fun line => match strip_ws line with [] => false | _ => true end)
         (splitlines text)).

Definition write_listing (b : BrewHost) (brew_bin : str) (args : list str)
    (target : path) (what : str) : M unit :=
  let! proc := run_brew b brew_bin args in
  if bool_decide (proc.1.1 = 0) then
    write_text target >>
    log (lit "brew: wrote " ++ what ++ lit " to " ++ path_str target)
  else
    log (lit "brew: " ++ what ++ lit " failed: " ++ strip_ws proc.2).

(** The part of [task_brew_maintenance] under [if do_fix_casks:].  The bundle
    of an application is looked up as the entry [<app>.app] of
    [/Applications], which is what the path means for a name without a
    slash. *)
Definition fix_missing_casks (b : BrewHost) (mode brew_bin : str)
    (fix_casks : list str) : M unit :=
  let! proc := run_brew b brew_bin [lit "list"; lit "--cask"] in
  if negb (bool_decide (proc.1.1 = 0)) then
    log (lit "brew: could not list casks for fix")
  else fun w =>
    let installed := stripped_lines proc.1.2 in
    let missing_casks :=
      map cask_for
        (List.filter
           (fun app =>
              bool_decide (lower app ∈ installed)
              && negb (bool_decide
                         (is_Some (node_at (fs w)
                                     [lit "Applications"; app ++ lit ".app"]))))
           fix_casks) in
    match missing_casks with
    | [] => log (lit "brew: no missing cask apps detected") w
    | _ :: _ =>
        if negb (bool_decide (mode = MODE_APPLY)) then
          log (lit "brew: would reinstall missing casks: "
               ++ join (lit ", ") missing_casks) w
        else
          (log (lit "brew: reinstalling missing casks: "
                ++ join (lit ", ") missing_casks) >>
           run_brew b brew_bin ([lit "uninstall"; lit "--cask"] ++ missing_casks) >>
           run_brew b brew_bin ([lit "install"; lit "--cask"] ++ missing_casks) >>
           ret tt) w
    end.

Definition brew_maintenance (m : Machine) (b : BrewHost) (mode brew_bin : str)
    (list_file cask_file : path) (flags : BrewFlags) (fix_casks : list str)
    : M unit :=
  let! brew_bin := lift (validate_brew_bin b brew_bin) in
  let! list_file := lift (validate_home_path m list_file (lit "brew list file")) in
  let! cask_file := lift (validate_home_path m cask_file (lit "brew cask file")) in
  let f := effective_flags mode flags in
  let run := maybe_run b mode brew_bin in
  when (do_update f) (run (lit "update") [lit "update"] false) >>
  when (do_upgrade f) (run (lit "upgrade") [lit "upgrade"] false) >>
  when (do_upgrade_cask f)
    (run (lit "upgrade cask") [lit "upgrade"; lit "--cask"; lit "--greedy"] false) >>
  when (do_autoremove f) (run (lit "autoremove") [lit "autoremove"] false) >>
  when (do_cleanup f)
    (run (lit "cleanup") [lit "cleanup"; lit "--prune=7"; lit "--quiet"] false) >>
  when (do_doctor f) (run (lit "doctor") [lit "doctor"] true) >>
  when (do_missing f) (run (lit "missing") [lit "missing"] true) >>
  when (do_untap f)
    (run (lit "untap")
       [lit "untap"; lit "--force"; lit "Homebrew/homebrew-bundle";
        lit "Homebrew/homebrew-services"] false) >>
  when (do_list f)
    (if bool_decide (mode = MODE_DRY_RUN) then
       log (lit "brew: would write list to " ++ path_str list_file)
     else write_listing b brew_bin [lit "list"] list_file (lit "list")) >>
  when (do_cask_list f)
    (if bool_decide (mode = MODE_DRY_RUN) then
       log (lit "brew: would write cask list to " ++ path_str cask_file)
     else write_listing b brew_bin [lit "list"; lit "--cask"] cask_file
            (lit "cask list")) >>
  when (do_fix_casks f) (fix_missing_casks b mode brew_bin fix_casks).

(** The disk is the same in both worlds. *)
Definition same_disk (w w' : World) : Prop := fs w' = fs w.

(** The disk differs at most at the paths that satisfy [T]. *)
Definition writes_only (T : path -> Prop) (w w' : World) : Prop :=
  forall q, ~ T q -> fs w' !! q = fs w !! q.

(** The brew commands that only inspect. *)
Definition inspecting (brew_bin : str) (argv : list str) : Prop :=
  argv = [brew_bin; lit "doctor"] \/ argv = [brew_bin; lit "missing"]
  \/ argv = [brew_bin; lit "list"] \/ argv = [brew_bin; lit "list"; lit "--cask"].

(** A brew that answers every command with exit code 0 and no output. *)
Definition calm_brew : BrewHost :=
  mkBrewHost (fun _ => true) (fun _ => inr (0, [], [])) (lit "->").

Definition no_flags : BrewFlags :=
  mkBrewFlags false false false false false false false false false false false.

Definition brew_bin_0 : str := lit "/opt/homebrew/bin/brew".
Definition list_file_0 : path := jpaul_home ++ [lit ".brew-list.txt"].
Definition cask_file_0 : path := jpaul_home ++ [lit ".brew-cask.txt"].

(** ** Copy throughput *)

(** What the copy test reads from its surroundings: what [rsync] does to the
    disk and its exit code, the whole seconds it took, and the text of the
    rate [f"{(size_kb / 1024) / duration:.2f}"] (a floating-point division). *)
Record CopyHost := mkCopyHost {
  rsync_run : list str -> gmap path node -> Z * gmap path node;
  elapsed_s : Z;
  rate_text : Z -> Z -> str
}.

Definition rsync_argv (src dst : path) : list str :=
  [lit "/usr/bin/rsync"; lit "-ah"; lit "--progress"; lit "--partial";
   lit "--inplace"; lit "--compress-level=1"; path_str src; path_str dst].

Definition run_rsync (h : CopyHost) (src dst : path) : M Z :=
  spawn (rsync_argv src dst) >>
  fun w => let r := rsync_run h (rsync_argv src dst) (fs w) in
           (mkWorld r.2 (logged w) (spawned w), inr r.1).

(** [size_kb] when it is true as a condition: neither [None] nor 0. *)
Definition known_size (size_kb : option Z) : option Z :=
  match size_kb with
  | Some 0 | None => None
  | Some kb => Some kb
  end.

Definition copy_speed_test (m : Machine) (h : CopyHost) (src dst : path)
    (mode : str) : M unit :=
  let src := resolve m src in
  let dst := resolve m dst in
  let! src_found := path_exists src in
  if negb src_found then
    log (lit "copy-speed-test: source not found: " ++ path_str src)
  else
    let! parent_found := path_exists (removelast dst) in
    if negb parent_found then
      log (lit "copy-speed-test: destination parent missing: "
           ++ path_str (removelast dst))
    else
      let! size_kb := du_kb m src in
      match known_size size_kb with
      | Some kb => log (lit "copy-speed-test: source size " ++ human_size_kb kb)
      | None => ret tt
      end >>
      if negb (bool_decide (mode = MODE_APPLY)) then
        log (lit "copy-speed-test: would copy " ++ path_str src ++ lit " -> "
             ++ path_str dst)
      else
        log (lit "copy-speed-test: starting copy " ++ path_str src ++ lit " -> "
             ++ path_str dst) >>
        let! rc := run_rsync h src dst in
        let duration := Z.max 1 (elapsed_s h) in
        if negb (bool_decide (rc = 0)) then
          log (lit "copy-speed-test: rsync failed with " ++ str_of_Z rc)
        else
          match known_size size_kb with
          | Some kb => log (lit "copy-speed-test: avg speed "
                            ++ rate_text h kb duration ++ lit " MB/s")
          | None => ret tt
          end >>
          log (lit "copy-speed-test: completed in " ++ str_of_Z duration ++ lit "s").

(** ** Browser cache cleanup *)

Definition CHROME_CLEAN_DIRS : list str :=
  [ lit "Service Worker"; lit "IndexedDB"; lit "File System"; lit "Local Storage";
    lit "GPUCache"; lit "WebStorage"; lit "Application Cache"; lit "Pepper Data";
    lit "Platform Notifications"; lit "Session Storage" ].

(** Whether [pgrep] finds the browser, given the processes started so far. *)
Record ChromeHost := mkChromeHost {
  chrome_alive : list (list str) -> bool
}.

Definition chrome_name : str := lit "Google Chrome Beta".

Definition pgrep_argv : list str := [lit "/usr/bin/pgrep"; lit "-f"; chrome_name].

Definition quit_argv : list str :=
  [lit "/usr/bin/osascript"; lit "-e";
   lit "quit app " ++ dquote :: chrome_name ++ [dquote]].

Definition term_argv : list str := [lit "/usr/bin/pkill"; lit "-TERM"; lit "-f"; chrome_name].
Definition kill_argv : list str := [lit "/usr/bin/pkill"; lit "-KILL"; lit "-f"; chrome_name].

Definition chrome_running (h : ChromeHost) : M bool :=
  spawn pgrep_argv >> fun w => (w, inr (chrome_alive h (spawned w))).

(** [close_chrome]: ask the browser to quit, then terminate it, then kill it,
    looking after each step whether it is still there. *)
Definition close_chrome (h : ChromeHost) : M bool :=
  spawn quit_argv >>
  let! alive := chrome_running h in
  if negb alive then ret true
  else
    spawn term_argv >>
    let! alive := chrome_running h in
    if negb alive then ret true
    else
      spawn kill_argv >>
      let! alive := chrome_running h in
      ret (negb alive).

(** [q] lies strictly below [p]. *)
Definition below (p q : path) : bool :=
  match strip_prefix p q with
  | Some (_ :: _) => true
  | _ => false
  end.

(** An entry cannot be removed when the system refuses to remove it or
    something that lies below it. *)
Definition stuck (m : Machine) (f : gmap path node) (q : path) : bool :=
  existsb (fun '(q', _) => bool_decide (is_Some (strip_prefix q q'))
                           && bool_decide (is_Some (removal_error m q')))
    (map_to_list f).

(** The loop over [os.walk(dir_path)]: the files below [p] are unlinked and
    the directories below it removed with their content, and every failure
    is passed over; what cannot be removed stays, with the directories that
    hold it. [p] itself stays. *)
Definition clear_dir (m : Machine) (p : path) : M unit :=
  fun w => (mkWorld (filter (fun '(q, _) => negb (below p q) || stuck m (fs w) q = true)
                       (fs w))
              (logged w) (spawned w), inr tt).

Definition is_profile (name : str) : bool :=
  bool_decide (name = lit "Default") || startswith (lit "Profile ") name.

(** [chrome_dir.iterdir()] raises when the path is not a directory. *)
Definition list_profiles (chrome_dir : path) : M (list str) :=
  fun w =>
    match node_at (fs w) chrome_dir with
    | Some Dir =>
        (w, inr (omap (fun '(name, nd) =>
                         match nd with
                         | Dir => if is_profile name then Some name else None
                         | File => None
                         end) (entries (fs w) chrome_dir)))
    | _ => (w, inl (OSError (lit "[Errno 20] Not a directory: '"
                             ++ path_str chrome_dir ++ lit "'")))
    end.

(** The body of the loop over [CHROME_CLEAN_DIRS], for one profile. *)
Definition clean_one (m : Machine) (chrome_dir : path) (mode profile name : str)
    : M unit :=
  let dir_path := chrome_dir ++ [profile; name] in
  let! found := is_dir dir_path in
  if negb found then ret tt
  else if bool_decide (mode = MODE_APPLY) then
    clear_dir m dir_path >>
    log (lit "cleaned: " ++ profile ++ lit "/" ++ name)
  else
    log (lit "would clean: " ++ profile ++ lit "/" ++ name).

(** The second half of [task_chrome_cleanup]: the profiles are listed and
    measured, then their cache folders are cleared. *)
Definition clean_profiles (m : Machine) (chrome_dir : path) (mode : str) : M unit :=
  let! profiles := list_profiles chrome_dir in
  match profiles with
  | [] => log (lit "chrome-cleanup: no profiles found")
  | _ :: _ =>
      log (lit "chrome-cleanup: found " ++ str_of_Z (len profiles)
           ++ lit " profile(s)") >>
      for_each profiles (fun profile =>
        let! size := du_kb m (chrome_dir ++ [profile]) in
        log (lit "  " ++ profile ++ lit ": " ++ size_str size)) >>
      for_each profiles (fun profile =>
        for_each CHROME_CLEAN_DIRS (clean_one m chrome_dir mode profile))
  end.

Definition chrome_cleanup (m : Machine) (h : ChromeHost) (chrome_dir : path)
    (mode : str) (kill_chrome : bool) : M unit :=
  let! chrome_dir := lift (validate_home_path m chrome_dir (lit "chrome-dir")) in
  let! found := path_exists chrome_dir in
  if negb found then
    log (lit "chrome-cleanup: directory not found: " ++ path_str chrome_dir)
  else
    let! running := chrome_running h in
    if running then
      if negb kill_chrome then
        log (lit "chrome-cleanup: Chrome Beta is running. Use --kill-chrome to close it.")
      else if negb (bool_decide (mode = MODE_APPLY)) then
        log (lit "chrome-cleanup: would close Chrome Beta")
      else
        let! closed := close_chrome h in
        if negb closed then log (lit "chrome-cleanup: failed to close Chrome Beta")
        else clean_profiles m chrome_dir mode
    else clean_profiles m chrome_dir mode.

(** Nothing is created or changed on disk, and every entry that is gone
    satisfies [P]. *)
Definition shrunk (P : path -> Prop) (w w' : World) : Prop :=
  (forall q n, fs w' !! q = Some n -> fs w !! q = Some n)
  /\ (forall q n, fs w !! q = Some n -> fs w' !! q = None -> P q).


Definition is_pgrep (argv : list str) : Prop := argv = pgrep_argv.


Definition chrome_stubborn : ChromeHost :=
  mkChromeHost (fun started => negb (bool_decide (kill_argv ∈ started))).

(** A browser directory with one profile, holding bookmarks and a cache. *)
Definition chrome_dir_0 : path := jpaul_home ++ [lit "Chrome Beta"].

Definition chrome_world : World :=
  mkWorld
    (<[ chrome_dir_0 ++ [lit "Default"; lit "GPUCache"; lit "data_0"] := File ]>
     (<[ chrome_dir_0 ++ [lit "Default"; lit "GPUCache"] := Dir ]>
      (<[ chrome_dir_0 ++ [lit "Default"; lit "Bookmarks"] := File ]>
       (<[ chrome_dir_0 ++ [lit "Default"] := Dir ]>
        (<[ chrome_dir_0 := Dir ]>
         (<[ jpaul_home := Dir ]> (<[ [lit "Users"] := Dir ]> ∅)))))))
    [] [].

Definition slow_disk : CopyHost :=
  mkCopyHost (fun _ f => (0, f)) 0 (fun _ _ => lit "0.00").

(** ** Report rendering *)

(** [text.replace(old, new)] for a single character [old]. *)
Definition replace_with (old : ascii) (new text : str) : str :=
  flat_map (fun c => if bool_decide (c = old) then new else [c]) text.

(** [html.escape(s)], with quotes escaped as well. *)
Definition html_escape (s : str) : str :=
  replace_with squote (lit "&#x27;")
    (replace_with dquote (lit "&quot;")
       (replace_with ">"%char (lit "&gt;")
          (replace_with "<"%char (lit "&lt;")
             (replace_with "&"%char (lit "&amp;") s)))).

Record ReportSection := mkReportSection {
  section_title : str;
  section_id : str;
  results : list CommandResult
}.

(** An attribute value between double quotes. *)
Definition quoted (s : str) : str := dquote :: s ++ [dquote].

Definition data_tags (r : CommandResult) : list str :=
  let badge_text := (badge_for_result r).2 in
  [(badge_for_result r).1]
  ++ (if truthy (skipped_reason r) then [lit "skipped"] else [])
  ++ (if bool_decide (badge_text = lit "TIMEOUT") then [lit "timeout"] else [])
  ++ (if bool_decide (badge_text = lit "EXC") then [lit "exc"] else [])
  ++ (if bool_decide (badge_text = lit "MISSING") then [lit "missing"] else []).

(** The text of [f"{x:.2f}"] for a float is passed in as [fixed2]. *)
Definition badges (fixed2 : Q -> str) (r : CommandResult) : list str :=
  [ lit "<span class=" ++ quoted (lit "badge " ++ (badge_for_result r).1) ++ lit ">"
    ++ html_escape (badge_for_result r).2 ++ lit "</span>";
    lit "<span class=" ++ quoted (lit "badge") ++ lit ">"
    ++ html_escape (fixed2 (duration_s r) ++ lit "s") ++ lit "</span>" ]
  ++ match skipped_reason r with
     | Some (c :: reason) =>
         [ lit "<span class=" ++ quoted (lit "badge warn") ++ lit ">"
           ++ html_escape (c :: reason) ++ lit "</span>" ]
     | _ => []
     end.

(** The block of one result in [render_results_section]. *)
Definition render_block (fixed2 : Q -> str) (r : CommandResult) : str :=
  let badge_class := (badge_for_result r).1 in
  let default_open := negb (bool_decide (badge_class = lit "ok")) in
  join [LF]
    [ lit "<div class=" ++ quoted (lit "block") ++ lit ">";
      lit "  <details class=" ++ quoted (lit "cmdblock")
      ++ lit " data-status=" ++ quoted (html_escape badge_class)
      ++ lit " data-tags=" ++ quoted (html_escape (join (lit " ") (data_tags r)))
      ++ lit " " ++ (if default_open then lit "open" else []) ++ lit ">";
      lit "    <summary>";
      lit "      <div class=" ++ quoted (lit "sumleft") ++ lit ">";
      lit "        <div class=" ++ quoted (lit "titleline") ++ lit ">"
      ++ html_escape (title r) ++ lit "</div>";
      lit "        <div class=" ++ quoted (lit "cmdinline") ++ lit ">";
      lit "          <code class=" ++ quoted (lit "cmd cmd--summary") ++ lit ">"
      ++ html_escape (command r) ++ lit "</code>";
      lit "          <button class=" ++ quoted (lit "copy") ++ lit " type="
      ++ quoted (lit "button") ++ lit " data-copy=" ++ quoted (html_escape (command r))
      ++ lit ">Copy</button>";
      lit "        </div>";
      lit "      </div>";
      lit "      <div class=" ++ quoted (lit "sumright") ++ lit ">";
      lit "        <div class=" ++ quoted (lit "badges") ++ lit ">"
      ++ concat (badges fixed2 r) ++ lit "</div>";
      lit "      </div>";
      lit "    </summary>";
      lit "    <pre>"
      ++ match stdout r with
         | [] => lit "(no output)"
         | _ :: _ => html_escape (stdout r)
         end
      ++ lit "</pre>";
      match stderr r with
      | [] => []
      | _ :: _ =>
          lit "    <div class=" ++ quoted (lit "subhead") ++ lit ">stderr</div>"
          ++ LF :: lit "    <pre>" ++ html_escape (stderr r) ++ lit "</pre>"
      end;
      lit "  </details>";
      lit "</div>" ].

Definition render_results_section (bullet : str) (fixed2 : Q -> str)
    (section : ReportSection) : str :=
  join [LF]
    [ lit "<section id=" ++ quoted (html_escape (section_id section))
      ++ lit " data-status="
      ++ quoted (html_escape (_section_status (results section))) ++ lit ">";
      lit "  <h2>";
      lit "    <span>" ++ html_escape (section_title section) ++ lit "</span>";
      lit "    <span class=" ++ quoted (lit "sectionmeta") ++ lit ">"
      ++ html_escape (_format_section_meta bullet (results section)) ++ lit "</span>";
      lit "  </h2>";
      join [LF] (map (render_block fixed2) (results section));
      lit "</section>" ].

(** The characters that delimit tags and attribute values, and what is left
    of a text when everything else is dropped. *)
Definition is_markup (c : ascii) : bool :=
  bool_decide (c = "<"%char) || bool_decide (c = ">"%char) || bool_decide (c = dquote).

Definition skeleton (s : str) : str := List.filter is_markup s.

(** Two results have the same parts: both or neither with stderr, both or
    neither skipped. *)
Definition same_parts (r r' : CommandResult) : Prop :=
  (stderr r = [] <-> stderr r' = [])
  /\ truthy (skipped_reason r) = truthy (skipped_reason r').

(** Two sections with one check each: one with plain texts, one whose texts
    are full of markup. *)
Definition tenth : Q -> str := fun _ => lit "0.10".

Definition plain_section : ReportSection :=
  mkReportSection (lit "Disk") (lit "disk")
    [mkCommandResult (lit "df") (lit "df -h") (1 # 10) (Some 0) (lit "ok") [] None].

Definition hostile_section : ReportSection :=
  mkReportSection (lit "<b>Disk</b>") (lit "disk" ++ dquote :: lit " onload=" ++ [dquote])
    [mkCommandResult (lit "<script>") (lit "echo " ++ dquote :: lit "><x>") (1 # 10)
       (Some 1) (lit "</pre><script>alert(1)</script>") [] None].

(** What cannot be removed stays, and still cannot be removed. *)
Definition keeps_stuck (m : Machine) (w w' : World) : Prop :=
  forall q n, fs w !! q = Some n -> stuck m (fs w) q = true ->
              fs w' !! q = Some n /\ stuck m (fs w') q = true.
(** ** Theorems *)

(** C1: for every result, [badge_for_result] is the first matching row of the
    specification's table (skip reason, exit code 0, no exit code with and
    without the [[exception]] prefix, 126/127, a permission phrase in the
    lowercased stderr, exit code 1, anything else). *)
Theorem badge_for_result_table (r : CommandResult) :
  badge_for_result r = first_row spec_table r.
Proof.
  unfold badge_for_result, spec_table, first_row, row_cond, row_out.
  destruct (truthy (skipped_reason r)); [reflexivity|].
  unfold code_is, code_is_none, permission_denied_text, rc_label, rc_badge.
  destruct (returncode r) as [rc|]; cbn [andb orb].
  - assert (Hm : forall n, bool_decide (Some rc = Some n) = bool_decide (rc = n)).
    { intros n. apply bool_decide_ext. split; congruence. }
    rewrite !Hm.
    destruct rc as [|p|p]; reflexivity.
  - rewrite (bool_decide_eq_false_2 (None = Some 0)) by congruence.
    rewrite (bool_decide_eq_true_2 (None = None)) by reflexivity.
    cbn [andb]. destruct (startswith (lit "[exception]") (stderr r)); reflexivity.
Qed.

(** *** Substrings *)

Lemma startswith_spec (p s : str) :
  startswith p s = true <-> exists b, s = p ++ b.
Proof.
  revert s. induction p as [|a p IH]; intros s; simpl.
  - split; eauto.
  - destruct s as [|x s].
    + split; [discriminate|]. intros [b Hb]. discriminate.
    + rewrite andb_true_iff, bool_decide_eq_true, IH. split.
      * intros [-> [b ->]]. eauto.
      * intros [b Hb]. injection Hb as -> ->. eauto.
Qed.

Lemma contains_spec (p s : str) :
  contains p s = true <-> exists a b, s = a ++ p ++ b.
Proof.
  induction s as [|x s IH]; simpl.
  - rewrite orb_false_r, startswith_spec. split.
    + intros [b Hb]. exists [], b. exact Hb.
    + intros (a & b & H). destruct a as [|y a]; [eauto|discriminate].
  - rewrite orb_true_iff, startswith_spec, IH. split.
    + intros [[b Hb]|(a & b & ->)].
      * exists [], b. exact Hb.
      * exists (x :: a), b. reflexivity.
    + intros (a & b & H). destruct a as [|y a].
      * left. eauto.
      * right. injection H as -> ->. eauto.
Qed.

(** *** Slugs *)

Lemma lower_char_not_upper (c : ascii) : isupper_char (lower_char c) = false.
Proof. destruct c as [[] [] [] [] [] [] [] []]; reflexivity. Qed.

Lemma isalnum_lower_char (c : ascii) : isalnum (lower_char c) = isalnum c.
Proof. destruct c as [[] [] [] [] [] [] [] []]; reflexivity. Qed.

Lemma latin1_code (a : ascii) : latin1 (code a) = true.
Proof. apply N.ltb_lt, N_ascii_bounded. Qed.

Lemma chr_code (a : ascii) : chr (code a) = a.
Proof. apply ascii_N_embedding. Qed.

Lemma code_chr (c : N) : latin1 c = true -> code (chr c) = c.
Proof. intros H. apply N_ascii_embedding, N.ltb_lt, H. Qed.

Lemma uisalnum_dash (db : Unicode) : uisalnum db dash = false.
Proof. reflexivity. Qed.

(** Within Latin-1, [lower] works character by character and stays within
    Latin-1. *)
Lemma ulower_latin1 (db : Unicode) (text : ustr) :
  Forall (fun c => latin1 c = true) text ->
  ulower db text = map (fun c => code (lower_char (chr c))) text.
Proof.
  intros H. unfold ulower.
  rewrite (imap_ext _ (fun _ c => [code (lower_char (chr c))])).
  - clear H. induction text as [|c text IH]; [reflexivity|].
    cbn [imap concat map app]. f_equal. rewrite <- IH. reflexivity.
  - intros i c Hc. rewrite Forall_forall in H.
    rewrite (H c); [reflexivity|]. eapply list_elem_of_lookup_2, Hc.
Qed.

Lemma lstrip_decomp (c : N) (s : ustr) :
  exists n, s = replicate n c ++ lstrip c s /\ head (lstrip c s) <> Some c.
Proof.
  induction s as [|x s (n & Hs & Hh)]; simpl.
  - exists O. split; [reflexivity|discriminate].
  - case_bool_decide as Hx.
    + subst x. exists (S n). simpl. split; [congruence|exact Hh].
    + exists O. simpl. split; [reflexivity|congruence].
Qed.

Lemma lstrip_replicate (c : N) (n : nat) : lstrip c (replicate n c) = [].
Proof.
  induction n as [|n IH]; simpl; [reflexivity|].
  rewrite bool_decide_eq_true_2 by reflexivity. exact IH.
Qed.

Lemma last_rev_head {A} (l : list A) : last (rev l) = head l.
Proof. destruct l as [|x l]; simpl; [reflexivity|apply last_snoc]. Qed.

Lemma strip_decomp (c : N) (s : ustr) :
  exists n m, s = replicate n c ++ strip c s ++ replicate m c
    /\ head (strip c s) <> Some c /\ last (strip c s) <> Some c.
Proof.
  unfold strip.
  destruct (lstrip_decomp c s) as (n & Hs & Hh).
  destruct (lstrip_decomp c (rev (lstrip c s))) as (m & Hr & Hl).
  set (X := lstrip c s) in *. set (Y := lstrip c (rev X)) in *.
  assert (HX : X = rev Y ++ replicate m c).
  { rewrite <- (rev_involutive X), Hr, rev_app_distr.
    f_equal. clear. induction m as [|m IH]; simpl; [reflexivity|].
    rewrite IH. clear. induction m as [|m IH]; simpl; congruence. }
  exists n, m. split; [|split].
  - rewrite Hs at 1. rewrite HX at 1. reflexivity.
  - destruct (rev Y) as [|y Y'] eqn:EY; simpl; [discriminate|].
    rewrite HX in Hh. simpl in Hh. exact Hh.
  - rewrite last_rev_head. exact Hl.
Qed.

Lemma slug_step_inv (db : Unicode) (ok : N -> Prop) (st : ustr * bool) (ch : N) :
  ok ch -> slug_inv db ok st -> slug_inv db ok (slug_step db st ch).
Proof.
  intros Hok. destruct st as [keep ld]. intros (Hc & Hl & Hd). simpl in *.
  unfold slug_step. destruct (uisalnum db ch) eqn:Ha; [|destruct ld; simpl].
  - assert (ch <> dash) by (intros ->; discriminate).
    split; [|split]; simpl.
    + apply Forall_app. split; [exact Hc|]. constructor; [right; auto|constructor].
    + rewrite last_snoc. split; [discriminate|congruence].
    + intros a b E. destruct (decide (b = [])) as [->|Hb].
      * change (a ++ [dash; dash]) with (a ++ [dash] ++ [dash]) in E.
        rewrite app_assoc in E. apply app_inj_tail in E. tauto.
      * destruct (exists_last Hb) as (b' & x & ->).
        change (a ++ dash :: dash :: b' ++ [x])
          with (a ++ (dash :: dash :: b') ++ [x]) in E.
        rewrite app_assoc in E. apply app_inj_tail in E. destruct E as [E _].
        exact (Hd _ _ E).
  - split; [|split]; assumption.
  - split; [|split]; simpl.
    + apply Forall_app. split; [exact Hc|]. constructor; [left; auto|constructor].
    + rewrite last_snoc. tauto.
    + intros a b E. destruct (decide (b = [])) as [->|Hb].
      * change (a ++ [dash; dash]) with (a ++ [dash] ++ [dash]) in E.
        rewrite app_assoc in E. apply app_inj_tail in E. destruct E as [E _].
        assert (last keep = Some dash) by (rewrite E; apply last_snoc).
        destruct Hl as [_ Hl]. specialize (Hl H). discriminate.
      * destruct (exists_last Hb) as (b' & x & ->).
        change (a ++ dash :: dash :: b' ++ [x])
          with (a ++ (dash :: dash :: b') ++ [x]) in E.
        rewrite app_assoc in E. apply app_inj_tail in E. destruct E as [E _].
        exact (Hd _ _ E).
Qed.

Lemma slug_fold_inv (db : Unicode) (ok : N -> Prop) (l : ustr) (st : ustr * bool) :
  Forall ok l -> slug_inv db ok st -> slug_inv db ok (fold_left (slug_step db) l st).
Proof.
  revert st. induction l as [|c l IH]; intros st Hl Hst; simpl; [exact Hst|].
  inversion Hl; subst. apply IH; [assumption|]. apply slug_step_inv; assumption.
Qed.

Lemma slug_inv_start (db : Unicode) (ok : N -> Prop) : slug_inv db ok ([], false).
Proof.
  split; [constructor|]. split; simpl; [split; discriminate|].
  intros a b E. destruct a; discriminate.
Qed.

Lemma slug_fold_no_alnum (db : Unicode) (l : ustr) (st : ustr * bool) :
  Forall (fun c => uisalnum db c = false) l ->
  Forall (fun c => c = dash) st.1 ->
  Forall (fun c => c = dash) (fold_left (slug_step db) l st).1.
Proof.
  revert st. induction l as [|c l IH]; intros st Hl Hst; simpl; [exact Hst|].
  inversion Hl as [|? ? Hc Hl']; subst. apply IH; [assumption|].
  destruct st as [keep ld]. unfold slug_step. rewrite Hc.
  destruct ld; simpl; [exact Hst|].
  apply Forall_app. split; [exact Hst|]. constructor; [reflexivity|constructor].
Qed.

Lemma all_eq_replicate (c : N) (s : ustr) :
  Forall (fun x => x = c) s -> s = replicate (length s) c.
Proof. induction 1 as [|x s -> _ IH]; simpl; congruence. Qed.

Lemma strip_all (c : N) (s : ustr) : Forall (fun x => x = c) s -> strip c s = [].
Proof.
  intros H. unfold strip. rewrite (all_eq_replicate c s H), lstrip_replicate.
  reflexivity.
Qed.

(** What the loop and the final [strip] guarantee, for a property [ok] of
    the characters of the lowered text. *)
Lemma slug_kept_shape (db : Unicode) (ok : N -> Prop) (text : ustr) :
  Forall ok (ulower db text) ->
  let slug := strip dash (fold_left (slug_step db) (ulower db text) ([], false)).1 in
  Forall (fun c => c = dash \/ (uisalnum db c = true /\ ok c)) slug
  /\ head slug <> Some dash
  /\ last slug <> Some dash
  /\ (forall a b, slug <> a ++ dash :: dash :: b).
Proof.
  intros Hok slug. subst slug.
  set (keep := (fold_left (slug_step db) (ulower db text) ([], false)).1).
  pose proof (slug_fold_inv db ok (ulower db text) ([], false) Hok
                (slug_inv_start db ok)) as (Hc & _ & Hd).
  fold keep in Hc, Hd.
  destruct (strip_decomp dash keep) as (n & m & Hk & Hh & Hl).
  split.
  { rewrite Hk in Hc. apply Forall_app in Hc as [_ Hc].
    apply Forall_app in Hc as [Hc _]. exact Hc. }
  split; [exact Hh|]. split; [exact Hl|].
  intros a b E.
  apply (Hd (replicate n dash ++ a) (b ++ replicate m dash)).
  rewrite Hk, E. simpl. rewrite <- !app_assoc. reflexivity.
Qed.

Lemma slugify_cases (db : Unicode) (text : ustr) :
  let slug := strip dash (fold_left (slug_step db) (ulower db text) ([], false)).1 in
  (slug = [] /\ _slugify db text = ulit "section")
  \/ (slug <> [] /\ _slugify db text = slug).
Proof.
  intros slug. unfold _slugify. fold slug.
  destruct slug; [left|right]; split; congruence.
Qed.

Lemma section_shape :
  head (ulit "section") <> Some dash /\ last (ulit "section") <> Some dash
  /\ (forall a b, ulit "section" <> a ++ dash :: dash :: b).
Proof.
  split; [discriminate|]. split; [discriminate|].
  intros a b E. vm_compute in E.
  do 7 (destruct a as [|? a]; [discriminate E|injection E as _ E]).
  destruct a; discriminate E.
Qed.

Lemma section_chars (db : Unicode) (c : N) :
  c ∈ ulit "section" -> uisalnum db c = true /\ lower_latin1 db c.
Proof.
  intros H. apply list_elem_of_In in H. simpl in H.
  repeat (destruct H as [<-|H]; [split; [reflexivity|split; reflexivity]|]).
  destruct H.
Qed.

Lemma slugify_shape (db : Unicode) (ok : N -> Prop) (text : ustr) :
  Forall ok (ulower db text) ->
  (forall c, c ∈ ulit "section" -> ok c) ->
  _slugify db text <> []
  /\ Forall (fun c => c = dash \/ (uisalnum db c = true /\ ok c)) (_slugify db text)
  /\ head (_slugify db text) <> Some dash
  /\ last (_slugify db text) <> Some dash
  /\ (forall a b, _slugify db text <> a ++ dash :: dash :: b).
Proof.
  intros Hok Hsec.
  destruct (slug_kept_shape db ok text Hok) as (H1 & H2 & H3 & H4).
  destruct (slugify_cases db text) as [[_ ->]|[Hne ->]].
  - split; [discriminate|]. split.
    { apply Forall_forall. intros c Hin. right.
      split; [apply (section_chars db c Hin)|apply Hsec, Hin]. }
    apply section_shape.
  - split; [exact Hne|]. split; [exact H1|]. split; [exact H2|].
    split; [exact H3|exact H4].
Qed.

Lemma slugify_fallback (db : Unicode) (text : ustr) :
  Forall (fun c => uisalnum db c = false) (ulower db text) ->
  _slugify db text = ulit "section".
Proof.
  intros Hn. unfold _slugify. rewrite strip_all; [reflexivity|].
  apply slug_fold_no_alnum; [exact Hn|constructor].
Qed.

Lemma lower_latin1_text (db : Unicode) (text : ustr) :
  Forall (fun c => latin1 c = true) text -> Forall (lower_latin1 db) (ulower db text).
Proof.
  intros H. rewrite ulower_latin1 by exact H. apply Forall_map, Forall_forall.
  intros c _. split; [apply latin1_code|].
  unfold uisupper. rewrite latin1_code, chr_code. apply lower_char_not_upper.
Qed.

Lemma no_alnum_lower (db : Unicode) (text : ustr) :
  (Forall (fun c => latin1 c = true) text \/ keeps_non_alnum db) ->
  Forall (fun c => uisalnum db c = false) text ->
  Forall (fun c => uisalnum db c = false) (ulower db text).
Proof.
  intros H Hn. unfold ulower. apply Forall_concat, Forall_forall.
  intros piece Hp. apply elem_of_lookup_imap in Hp as (i & c & -> & Hc).
  rewrite Forall_forall in Hn.
  pose proof (Hn c (list_elem_of_lookup_2 _ _ _ Hc)) as Hcn.
  unfold uisalnum in Hcn. destruct (latin1 c) eqn:El.
  - constructor; [|constructor].
    unfold uisalnum. rewrite latin1_code, chr_code, isalnum_lower_char. exact Hcn.
  - destruct H as [H|H].
    + rewrite Forall_forall in H.
      rewrite (H c (list_elem_of_lookup_2 _ _ _ Hc)) in El. discriminate El.
    + apply (H text i c Hc El Hcn).
Qed.

(** C10 (as amended): for every text, [_slugify] returns a non-empty
    identifier made of hyphens and alphanumeric characters only, which
    neither starts nor ends with a hyphen and has no two hyphens in a row;
    unless it is the fallback [section], its alphanumeric characters are
    characters of the lowered text. The fallback is returned when the lowered
    text has no alphanumeric character, and so when the text has none, as
    long as lowering does not make a character alphanumeric. For a text
    within Latin-1 the characters of the identifier are lowercase characters
    of Latin-1, and the fallback is returned when the text has no
    alphanumeric character. *)
Theorem slugify_identifier (db : Unicode) (text : ustr) :
  _slugify db text <> []
  /\ Forall (slug_char db) (_slugify db text)
  /\ head (_slugify db text) <> Some dash
  /\ last (_slugify db text) <> Some dash
  /\ (forall a b, _slugify db text <> a ++ dash :: dash :: b)
  /\ (_slugify db text = ulit "section"
      \/ Forall (fun c => c = dash \/ c ∈ ulower db text) (_slugify db text))
  /\ (Forall (fun c => uisalnum db c = false) (ulower db text) ->
      _slugify db text = ulit "section")
  /\ (keeps_non_alnum db -> Forall (fun c => uisalnum db c = false) text ->
      _slugify db text = ulit "section")
  /\ (Forall (fun c => latin1 c = true) text ->
      Forall (plain_slug_char db) (_slugify db text)
      /\ (Forall (fun c => uisalnum db c = false) text ->
          _slugify db text = ulit "section")).
Proof.
  destruct (slugify_shape db (fun _ => True) text) as (H1 & H2 & H3 & H4 & H5).
  { apply Forall_forall. auto. }
  { auto. }
  split; [exact H1|]. split.
  { eapply Forall_impl; [exact H2|]. intros c [->|[Ha _]]; [left|right]; auto. }
  split; [exact H3|]. split; [exact H4|]. split; [exact H5|]. split.
  { destruct (slugify_cases db text) as [[_ E]|[_ E]]; [left; exact E|right].
    rewrite E.
    destruct (slug_kept_shape db (fun c => c ∈ ulower db text) text) as (H & _).
    - apply Forall_forall. auto.
    - eapply Forall_impl; [exact H|]. intros c [->|[_ Hc]]; [left|right]; auto. }
  split; [apply slugify_fallback|]. split.
  { intros Hdb Hn. apply slugify_fallback, no_alnum_lower; auto. }
  intros Hl. split.
  - destruct (slugify_shape db (lower_latin1 db) text) as (_ & H & _).
    + apply lower_latin1_text, Hl.
    + intros c Hc. apply (section_chars db c Hc).
    + exact H.
  - intros Hn. apply slugify_fallback, no_alnum_lower; auto.
Qed.

(** C10 (as stated) fails: the text made of U+2102 alone is returned as
    it is, and U+2102 is an uppercase letter. *)
Theorem slugify_keeps_uppercase :
  _slugify letterlike [8450%N] = [8450%N]
  /\ uisalnum letterlike 8450 = true /\ uisupper letterlike 8450 = true
  /\ ~ Forall (fun c => c = dash \/ (uisalnum letterlike c = true
                                     /\ uisupper letterlike c = false))
         (_slugify letterlike [8450%N]).
Proof.
  split; [reflexivity|]. split; [reflexivity|]. split; [reflexivity|].
  intros H. inversion H as [|c l [Hc|[_ Hc]] _]; discriminate Hc.
Qed.


(** *** Lines and truncation *)

Lemma splitlines_nobreak (s : str) : Forall nobreak (splitlines s).
Proof.
  assert (H : forall n s, (length s <= n)%nat -> Forall nobreak (splitlines s)).
  { clear s. induction n as [|n IH]; intros [|c s] Hn; simpl in *;
      try (constructor; fail); [lia|].
    assert (Hs : Forall nobreak (splitlines s)) by (apply IH; lia).
    destruct (is_linebreak c) eqn:Hc.
    - constructor; [constructor|].
      destruct (bool_decide (c = CR)); [|exact Hs].
      destruct s as [|d s']; [exact Hs|].
      destruct (bool_decide (d = LF)); [|exact Hs].
      apply IH. simpl in Hn. lia.
    - destruct (splitlines s) as [|l ls]; [repeat constructor; exact Hc|].
      inversion Hs; subst. constructor; [constructor|]; assumption. }
  apply (H (length s)). lia.
Qed.

Lemma splitlines_nonempty (s : str) : s <> [] -> splitlines s <> [].
Proof.
  destruct s as [|c s]; [congruence|]. intros _. simpl.
  destruct (is_linebreak c); [discriminate|].
  destruct (splitlines s); discriminate.
Qed.

Lemma split_on_nonempty (c : ascii) (u : str) : split_on c u <> [].
Proof.
  destruct u as [|x u]; simpl; [discriminate|].
  case_bool_decide; [discriminate|]. destruct (split_on c u); discriminate.
Qed.

(** On a text with line feeds only that does not end in one, [splitlines]
    is the plain split at line feeds. *)
Lemma splitlines_lf_only (u : str) :
  lf_only u -> u <> [] -> last u <> Some LF -> splitlines u = split_on LF u.
Proof.
  induction u as [|c u IH]; [congruence|]. intros Hlf _ Hlast.
  inversion Hlf as [|? ? Hc Hu]; subst. simpl.
  destruct (decide (u = [])) as [->|Hne].
  - simpl. destruct (is_linebreak c) eqn:Eb.
    + rewrite (Hc eq_refl) in Hlast. simpl in Hlast. congruence.
    + case_bool_decide as Ec; [subst c; discriminate Eb|reflexivity].
  - assert (Hl' : last u <> Some LF).
    { intros E. apply Hlast. destruct u; [congruence|exact E]. }
    rewrite <- (IH Hu Hne Hl').
    destruct (is_linebreak c) eqn:Eb.
    + rewrite (Hc eq_refl). rewrite bool_decide_eq_false_2 by discriminate.
      rewrite bool_decide_eq_true_2 by reflexivity. reflexivity.
    + case_bool_decide as Ec; [subst c; discriminate Eb|reflexivity].
Qed.

Lemma join_cons (sep p : str) (rest : list str) :
  rest <> [] -> join sep (p :: rest) = p ++ sep ++ join sep rest.
Proof. destruct rest; [congruence|reflexivity]. Qed.

Lemma join_split_on (c : ascii) (u : str) : join [c] (split_on c u) = u.
Proof.
  induction u as [|x u IH]; simpl; [reflexivity|].
  case_bool_decide as Ex.
  - subst x. rewrite join_cons by apply split_on_nonempty. simpl. congruence.
  - pose proof (split_on_nonempty c u) as Hne.
    destruct (split_on c u) as [|l ls]; [congruence|].
    destruct ls as [|l' ls]; simpl in *; congruence.
Qed.

Lemma split_on_app (c : ascii) (u v : str) :
  split_on c (u ++ c :: v) = split_on c u ++ split_on c v.
Proof.
  induction u as [|x u IH]; simpl.
  - rewrite bool_decide_eq_true_2 by reflexivity. reflexivity.
  - rewrite IH. case_bool_decide; [reflexivity|].
    pose proof (split_on_nonempty c u) as Hne.
    destruct (split_on c u); [congruence|reflexivity].
Qed.

Lemma split_on_absent (c : ascii) (u : str) :
  Forall (fun x => x <> c) u -> split_on c u = [u].
Proof.
  induction 1 as [|x u Hx _ IH]; simpl; [reflexivity|].
  rewrite bool_decide_eq_false_2 by exact Hx. rewrite IH. reflexivity.
Qed.

Lemma nobreak_no_lf (l : str) : nobreak l -> Forall (fun x => x <> LF) l.
Proof.
  intros H. eapply Forall_impl; [exact H|]. intros x Hx ->. discriminate Hx.
Qed.

Lemma split_on_join (ls : list str) :
  Forall nobreak ls -> ls <> [] -> split_on LF (join [LF] ls) = ls.
Proof.
  induction 1 as [|l ls Hl Hls IH]; [congruence|]. intros _.
  destruct (decide (ls = [])) as [->|Hne].
  - simpl. apply split_on_absent, nobreak_no_lf, Hl.
  - rewrite join_cons by exact Hne. simpl.
    rewrite split_on_app, IH by exact Hne.
    rewrite split_on_absent by apply nobreak_no_lf, Hl. reflexivity.
Qed.

Lemma join_lf_only (ls : list str) : Forall nobreak ls -> lf_only (join [LF] ls).
Proof.
  induction 1 as [|l ls Hl Hls IH]; [constructor|].
  assert (Hll : lf_only l).
  { eapply Forall_impl; [exact Hl|]. simpl. congruence. }
  destruct (decide (ls = [])) as [->|Hne]; [exact Hll|].
  rewrite join_cons by exact Hne. apply Forall_app. split; [exact Hll|].
  constructor; [reflexivity|exact IH].
Qed.

Lemma join_app (sep : str) (a b : list str) :
  a <> [] -> b <> [] -> join sep (a ++ b) = join sep a ++ sep ++ join sep b.
Proof.
  intros Ha Hb. induction a as [|x a IH]; [congruence|].
  destruct (decide (a = [])) as [->|Hne].
  - simpl. apply join_cons. exact Hb.
  - rewrite <- app_comm_cons, !join_cons; [|exact Hne|destruct a; [congruence|discriminate]].
    rewrite IH by exact Hne. rewrite <- !app_assoc. reflexivity.
Qed.

(** A prefix of a text has no more lines than the text. *)
Lemma split_on_take_length (c : ascii) (n : nat) (u : str) :
  (length (split_on c (take n u)) <= length (split_on c u))%nat.
Proof.
  revert n. induction u as [|x u IH]; intros [|n]; simpl; try lia.
  - case_bool_decide; simpl; [lia|].
    pose proof (split_on_nonempty c u). destruct (split_on c u); simpl; [congruence|lia].
  - specialize (IH n). case_bool_decide; simpl; [lia|].
    pose proof (split_on_nonempty c u). pose proof (split_on_nonempty c (take n u)).
    destruct (split_on c u), (split_on c (take n u)); simpl in *; try congruence; lia.
Qed.

(** For limits that are not negative the two slices are plain prefixes. *)
Lemma truncate_text_nonneg (s : str) (max_chars max_lines : Z) :
  0 <= max_chars -> 0 <= max_lines -> s <> [] ->
  let lines := take (Z.to_nat max_lines) (splitlines s) in
  _truncate_text s max_chars max_lines =
    (take (Z.to_nat max_chars) (join [LF] lines),
     (Z.to_nat max_lines <? length (splitlines s))%nat
     || (Z.to_nat max_chars <? length (join [LF] lines))%nat).
Proof.
  intros HC HL Hs lines. unfold _truncate_text.
  destruct s as [|c s]; [congruence|].
  set (sl := splitlines (c :: s)) in *.
  unfold len, slice_to.
  rewrite (proj2 (Z.leb_le 0 max_chars) HC), (proj2 (Z.leb_le 0 max_lines) HL).
  destruct (Z.of_nat (length sl) >? max_lines) eqn:El.
  - apply Z.gtb_lt in El.
    rewrite (proj2 (Nat.ltb_lt _ _)) by lia. fold lines. simpl.
    destruct (Z.of_nat (length (join [LF] lines)) >? max_chars) eqn:Ec.
    + reflexivity.
    + rewrite Z.gtb_ltb in Ec. apply Z.ltb_ge in Ec.
      rewrite take_ge by lia. reflexivity.
  - rewrite Z.gtb_ltb in El. apply Z.ltb_ge in El.
    rewrite (proj2 (Nat.ltb_ge _ _)) by lia.
    assert (Hlines : lines = sl) by (apply take_ge; lia).
    rewrite Hlines. simpl.
    destruct (Z.of_nat (length (join [LF] sl)) >? max_chars) eqn:Ec.
    + apply Z.gtb_lt in Ec. rewrite (proj2 (Nat.ltb_lt _ _)) by lia. reflexivity.
    + rewrite Z.gtb_ltb in Ec. apply Z.ltb_ge in Ec.
      rewrite take_ge by lia. rewrite (proj2 (Nat.ltb_ge _ _)) by lia. reflexivity.
Qed.

Lemma truncate_text_lf_only (s : str) (max_chars max_lines : Z) :
  0 <= max_chars -> 0 <= max_lines ->
  lf_only (_truncate_text s max_chars max_lines).1.
Proof.
  intros HC HL. destruct (decide (s = [])) as [->|Hs]; [constructor|].
  rewrite truncate_text_nonneg by assumption. simpl.
  apply Forall_take, join_lf_only, Forall_take, splitlines_nobreak.
Qed.

(** The truncated text has at most [max_lines] lines when split at its line
    feeds, unless it is empty. *)
Lemma truncate_text_lines (s : str) (max_chars max_lines : Z) :
  0 <= max_chars -> 0 <= max_lines ->
  let t := (_truncate_text s max_chars max_lines).1 in
  t = [] \/ (length (split_on LF t) <= Z.to_nat max_lines)%nat.
Proof.
  intros HC HL t. subst t.
  destruct (decide (s = [])) as [->|Hs]; [left; reflexivity|].
  rewrite truncate_text_nonneg by assumption. simpl.
  set (ls := take (Z.to_nat max_lines) (splitlines s)).
  destruct (decide (ls = [])) as [E|Hne]; [left; rewrite E; apply take_nil|].
  right. etransitivity; [apply split_on_take_length|].
  rewrite split_on_join; [|apply Forall_take, splitlines_nobreak|exact Hne].
  subst ls. rewrite length_take. lia.
Qed.

Lemma retruncate_fixed (s : str) (max_chars max_lines : Z) :
  0 <= max_chars -> 0 <= max_lines ->
  let t := (_truncate_text s max_chars max_lines).1 in
  last t <> Some LF ->
  _truncate_text t max_chars max_lines = (t, false).
Proof.
  intros HC HL t Hlast.
  pose proof (truncate_text_lf_only s max_chars max_lines HC HL) as Hlf.
  pose proof (truncate_text_lines s max_chars max_lines HC HL) as Hlines.
  assert (Hlen : (length t <= Z.to_nat max_chars)%nat).
  { subst t. destruct (decide (s = [])) as [->|Hs]; [simpl; lia|].
    rewrite truncate_text_nonneg by assumption. simpl. rewrite length_take. lia. }
  fold t in Hlf, Hlines. clearbody t.
  destruct Hlines as [->|Hlines]; [reflexivity|].
  destruct (decide (t = [])) as [->|Ht]; [reflexivity|].
  rewrite truncate_text_nonneg by assumption.
  rewrite splitlines_lf_only by assumption.
  rewrite (take_ge (split_on LF t)) by lia.
  rewrite join_split_on. rewrite take_ge by lia.
  rewrite (proj2 (Nat.ltb_ge _ _)) by lia.
  rewrite (proj2 (Nat.ltb_ge _ _)) by lia. reflexivity.
Qed.

Lemma output_note_is_note : is_note output_note.
Proof.
  eexists. split; [reflexivity|]. split; [|discriminate].
  repeat constructor.
Qed.

Lemma stderr_note_is_note : is_note stderr_note.
Proof.
  eexists. split; [reflexivity|]. split; [|discriminate].
  repeat constructor.
Qed.

Lemma nobreak_last (N : str) : nobreak N -> last N <> Some LF.
Proof.
  intros H E. apply last_Some in E as [l ->].
  apply Forall_app in H as [_ H]. inversion H as [|? ? Hc _]. discriminate Hc.
Qed.

Lemma retruncate_noted (note s t : str) (max_chars max_lines : Z) :
  is_note note -> 0 <= max_chars -> 0 <= max_lines ->
  _truncate_text s max_chars max_lines = (t, true) ->
  _truncate_text (t ++ note) max_chars max_lines = (t, true).
Proof.
  intros (N & -> & HN & HNne) HC HL HT.
  pose proof (truncate_text_lf_only s max_chars max_lines HC HL) as Hlf.
  rewrite HT in Hlf. simpl in Hlf.
  destruct (decide (s = [])) as [->|Hs]; [discriminate HT|].
  rewrite truncate_text_nonneg in HT by assumption.
  set (l := Z.to_nat max_lines) in *. set (c := Z.to_nat max_chars) in *.
  set (sl := splitlines s) in *. set (ls := take l sl) in *.
  set (J := join [LF] ls) in *.
  injection HT as Ht Hflag.
  assert (Hsl : sl <> []) by (apply splitlines_nonempty, Hs).
  assert (Hnb : Forall nobreak ls) by (apply Forall_take, splitlines_nobreak).
  rewrite truncate_text_nonneg; [|assumption|assumption|destruct t; discriminate].
  fold l c.
  assert (Hsplit : splitlines (t ++ LF :: LF :: N) = split_on LF t ++ [[]; N]).
  { rewrite splitlines_lf_only.
    - rewrite split_on_app. f_equal.
      change (LF :: N) with ([] ++ LF :: N). rewrite split_on_app.
      rewrite (split_on_absent LF N) by apply nobreak_no_lf, HN. reflexivity.
    - apply Forall_app. split; [exact Hlf|].
      constructor; [reflexivity|]. constructor; [reflexivity|].
      eapply Forall_impl; [exact HN|]. simpl. congruence.
    - destruct t; discriminate.
    - rewrite last_app_cons. change (LF :: LF :: N) with ([LF; LF] ++ N).
      rewrite last_app. pose proof (nobreak_last N HN) as Hl.
      destruct (last N) eqn:E; [exact Hl|].
      destruct N; [congruence|]. apply last_None in E. discriminate. }
  rewrite Hsplit. set (A := split_on LF t).
  destruct (decide (ls = [])) as [Els|Hne].
  - assert (l = O).
    { subst ls. destruct l; [reflexivity|]. destruct sl; [congruence|discriminate]. }
    assert (Ht0 : t = []) by (rewrite <- Ht; subst J; rewrite Els; apply take_nil).
    subst A. rewrite Ht0, H. simpl. rewrite take_nil. reflexivity.
  - assert (HA : (length A <= length ls)%nat).
    { subst A. rewrite <- Ht. etransitivity; [apply split_on_take_length|].
      subst J. rewrite split_on_join by assumption. lia. }
    assert (Hls : (length ls <= l)%nat) by (subst ls; rewrite length_take; lia).
    assert (HAne : A <> []) by apply split_on_nonempty.
    assert (Hjoin : join [LF] A = t) by apply join_split_on.
    rewrite take_app_ge by lia. rewrite length_app. simpl length.
    assert (Hlt : (length t <= c)%nat) by (rewrite <- Ht, length_take; lia).
    destruct (Nat.ltb_spec c (length J)) as [Hc|Hc].
    + assert (Hct : length t = c) by (rewrite <- Ht, length_take; lia).
      destruct (take (l - length A) [[]; N]) as [|b B'] eqn:EB.
      * rewrite app_nil_r, Hjoin, take_ge by lia. f_equal.
        destruct (Nat.ltb_spec l (length A + 2)) as [?|Hl2]; [reflexivity|].
        exfalso. rewrite take_ge in EB by (simpl; lia). discriminate.
      * rewrite join_app by (assumption || discriminate). rewrite Hjoin.
        rewrite take_app_length' by (symmetry; exact Hct). f_equal.
        rewrite length_app. simpl length.
        rewrite (proj2 (Nat.ltb_lt c _)) by lia. apply orb_true_r.
    + rewrite orb_false_r in Hflag. apply Nat.ltb_lt in Hflag.
      assert (HtJ : t = J) by (rewrite <- Ht; apply take_ge; lia).
      assert (HlsL : length ls = l) by (subst ls; rewrite length_take; lia).
      assert (HAls : A = ls) by (subst A; rewrite HtJ; apply split_on_join; assumption).
      rewrite HAls, HlsL, Nat.sub_diag. simpl take. rewrite app_nil_r.
      fold J. rewrite <- HtJ, take_ge by lia.
      rewrite (proj2 (Nat.ltb_lt l (l + 2))) by lia. reflexivity.
Qed.

Lemma stored_again (note s : str) (max_chars max_lines : Z) :
  is_note note -> 0 <= max_chars -> 0 <= max_lines ->
  let '(t, cut) := _truncate_text s max_chars max_lines in
  cut = true \/ last t <> Some LF ->
  stored note (stored note s max_chars max_lines) max_chars max_lines
  = stored note s max_chars max_lines.
Proof.
  intros Hn HC HL. unfold stored.
  destruct (_truncate_text s max_chars max_lines) as [t cut] eqn:ET.
  intros Hcase. destruct cut.
  - rewrite (retruncate_noted note s t) by assumption. reflexivity.
  - destruct Hcase as [?|Hlast]; [discriminate|].
    pose proof (retruncate_fixed s max_chars max_lines HC HL) as Hfix.
    rewrite ET in Hfix. simpl in Hfix. rewrite Hfix by exact Hlast. reflexivity.
Qed.

(** C5 (as amended): for limits that are not negative, truncating a truncated
    text again changes nothing when that text does not end in a line feed, and
    storing a stored stream again (truncation, then the note when a cap was
    hit) changes nothing when a cap was hit or the truncated text does not end
    in a line feed. *)
Theorem retruncation_same_text (s : str) (max_chars max_lines : Z) :
  0 <= max_chars -> 0 <= max_lines ->
  let t := (_truncate_text s max_chars max_lines).1 in
  let cut := (_truncate_text s max_chars max_lines).2 in
  (last t <> Some LF -> _truncate_text t max_chars max_lines = (t, false))
  /\ (cut = true \/ last t <> Some LF ->
      stored output_note (stored output_note s max_chars max_lines)
        max_chars max_lines = stored output_note s max_chars max_lines
      /\ stored stderr_note (stored stderr_note s max_chars max_lines)
           max_chars max_lines = stored stderr_note s max_chars max_lines).
Proof.
  intros HC HL t cut. split.
  - apply retruncate_fixed; assumption.
  - intros Hcase.
    pose proof (stored_again output_note s max_chars max_lines
                  output_note_is_note HC HL) as Ho.
    pose proof (stored_again stderr_note s max_chars max_lines
                  stderr_note_is_note HC HL) as He.
    subst t cut. destruct (_truncate_text s max_chars max_lines) as [t cut].
    split; [apply Ho|apply He]; exact Hcase.
Qed.

Lemma retruncation_same_text_witness :
  _truncate_text (_truncate_text three_lines 4 2).1 4 2
    = ((_truncate_text three_lines 4 2).1, false)
  /\ stored output_note (stored output_note three_lines 4 2) 4 2
     = stored output_note three_lines 4 2.
Proof.
  destruct (retruncation_same_text three_lines 4 2 ltac:(lia) ltac:(lia))
    as [Hplain Hstored].
  split.
  - apply Hplain. vm_compute. discriminate.
  - apply Hstored. left. reflexivity.
Defined.

(** C5 (as stated) fails: a text that ends in two line feeds loses one of
    them at each truncation, with limits far from being reached. *)
Lemma truncation_not_idempotent :
  (_truncate_text (_truncate_text a_two_feeds 100 100).1 100 100).1
    <> (_truncate_text a_two_feeds 100 100).1
  /\ stored output_note (stored output_note a_two_feeds 100 100) 100 100
     <> stored output_note a_two_feeds 100 100.
Proof. vm_compute. split; discriminate. Qed.

(** *** [validate_home_path] *)

Lemma path_str_app (p q : path) :
  p <> [] -> q <> [] -> path_str (p ++ q) = path_str p ++ path_str q.
Proof.
  intros Hp Hq. destruct p as [|a p]; [congruence|].
  destruct q as [|b q]; [congruence|].
  change (path_str ((a :: p) ++ b :: q))
    with (concat (map (fun c => "/"%char :: c) ((a :: p) ++ b :: q))).
  rewrite map_app, concat_app. reflexivity.
Qed.

Lemma path_str_slash (p : path) : exists rest, path_str p = "/"%char :: rest.
Proof. destruct p as [|a p]; simpl; eauto. Qed.

(** Every path that resolves under the home directory is accepted. *)
Lemma validate_home_path_accepts (m : Machine) (p : path) (label : str) :
  under (home m) (resolve m p) ->
  validate_home_path m p label = inr (resolve m p).
Proof.
  intros [rest Hr]. unfold validate_home_path.
  enough (H : startswith (path_str (home m)) (path_str (resolve m p)) = true)
    by (rewrite H; reflexivity).
  rewrite Hr. apply startswith_spec.
  destruct (home m) as [|a hm] eqn:Eh.
  - simpl app. destruct (path_str_slash rest) as [r ->]. exists r. reflexivity.
  - destruct rest as [|b rest]; [exists []; rewrite !app_nil_r; reflexivity|].
    exists (path_str (b :: rest)). apply path_str_app; discriminate.
Qed.

(** [/etc] is rejected when the home directory is [/Users/jpaul]. *)
Lemma validate_home_path_rejects_etc :
  validate_home_path jpaul_mac [lit "etc"] (lit "test")
  = inl (ValueError (lit "test must be within /Users/jpaul")).
Proof. reflexivity. Qed.

(** C2 (the code departs from it): a path outside the home directory whose
    text merely begins with the text of the home directory is accepted. *)
Theorem validate_home_path_accepts_sibling :
  ~ under (home jpaul_mac) (resolve jpaul_mac sibling_of_home)
  /\ validate_home_path jpaul_mac sibling_of_home (lit "archive-dir")
     = inr sibling_of_home.
Proof.
  split; [|reflexivity].
  intros [rest H]. vm_compute in H. discriminate H.
Qed.

(** *** The environment of the spawned shell *)

(** The text [/usr/sbin:/sbin] always occurs in the search path handed to the
    shell. *)
Lemma ensure_path_prefix_text (env : gmap str str) :
  contains path_prefix (default [] (_ensure_path_prefix env !! lit "PATH")) = true.
Proof.
  unfold _ensure_path_prefix.
  set (path := default [] (env !! lit "PATH")).
  destruct (contains path_prefix path) eqn:E; cbn [negb].
  - exact E.
  - rewrite lookup_insert_eq. cbn [default].
    apply contains_spec. exists [].
    destruct path as [|c path].
    + exists []. rewrite app_nil_r. reflexivity.
    + eexists. reflexivity.
Qed.

Lemma split_on_app_sep (c : ascii) (u v : str) :
  Forall (fun x => x <> c) u -> split_on c (u ++ c :: v) = u :: split_on c v.
Proof.
  intros Hu. rewrite split_on_app, split_on_absent by exact Hu. reflexivity.
Qed.

(** When that text is missing from the starting search path, the two
    directories become its first entries. *)
Lemma ensure_path_prefix_added (env : gmap str str) :
  contains path_prefix (default [] (env !! lit "PATH")) = false ->
  exists others,
    path_entries (_ensure_path_prefix env) = lit "/usr/sbin" :: lit "/sbin" :: others.
Proof.
  intros E. unfold path_entries, _ensure_path_prefix.
  set (path := default [] (env !! lit "PATH")) in *.
  rewrite E. cbn [negb]. rewrite lookup_insert_eq. cbn [default].
  destruct path as [|c path].
  - exists []. reflexivity.
  - exists (split_on ":"%char (c :: path)). cbv beta iota delta [id].
    change (path_prefix ++ lit ":" ++ c :: path)
      with (lit "/usr/sbin" ++ ":"%char :: (lit "/sbin" ++ ":"%char :: c :: path)).
    rewrite split_on_app_sep by (repeat constructor; discriminate).
    rewrite split_on_app_sep by (repeat constructor; discriminate).
    reflexivity.
Qed.

(** C6 (the code departs from it): with a starting search path in which the
    text [/usr/sbin:/sbin] occurs inside longer entries, nothing is added and
    [/usr/sbin] is not an entry of the path the shell sees. *)
Theorem ensure_path_prefix_misses_usr_sbin :
  let env : gmap str str := {[ lit "PATH" := lit "/opt/local/usr/sbin:/sbin:/bin" ]} in
  path_entries (_ensure_path_prefix env)
    = [lit "/opt/local/usr/sbin"; lit "/sbin"; lit "/bin"]
  /\ lit "/usr/sbin" ∉ path_entries (_ensure_path_prefix env).
Proof.
  assert (E : path_entries
                (_ensure_path_prefix {[ lit "PATH" := lit "/opt/local/usr/sbin:/sbin:/bin" ]})
              = [lit "/opt/local/usr/sbin"; lit "/sbin"; lit "/bin"])
    by (vm_compute; reflexivity).
  split; [exact E|]. rewrite E. intros H.
  apply list_elem_of_In in H. simpl in H.
  destruct H as [H|[H|[H|[]]]]; vm_compute in H; discriminate H.
Qed.

(** *** [run_command] *)

(** Short of a timeout, [run_command] returns a result carrying the title and
    command it was given, with an exit code only when the process
    completed. *)
Lemma run_command_returns (h : Host) (name cmd : str) (timeout_s : Q)
    (max_chars max_lines : Z) (skip_reason : option str) :
  let outcome := subprocess_run h cmd timeout_s (_ensure_path_prefix (os_environ h)) in
  truthy skip_reason = true \/ (forall out err, outcome <> TimeoutExpired out err) ->
  exists r,
    run_command h name cmd timeout_s max_chars max_lines skip_reason = inr r
    /\ title r = name /\ command r = cmd
    /\ (forall rc, returncode r = Some rc ->
          truthy skip_reason = false /\ exists out err, outcome = Completed rc out err).
Proof.
  intros outcome H. unfold run_command. fold outcome.
  destruct (truthy skip_reason) eqn:Es.
  - eexists. split; [reflexivity|]. split; [reflexivity|]. split; [reflexivity|].
    intros rc Hrc. discriminate Hrc.
  - destruct H as [H|H]; [discriminate H|].
    destruct outcome as [rc out err|out err|ename msg] eqn:Eo.
    + eexists. split; [reflexivity|]. split; [reflexivity|]. split; [reflexivity|].
      intros rc' [= <-]. eauto.
    + destruct (H out err eq_refl).
    + eexists. split; [reflexivity|]. split; [reflexivity|]. split; [reflexivity|].
      intros rc Hrc. discriminate Hrc.
Qed.

(** When the call raises anything but a timeout, the result has no exit code,
    an empty stdout, and a stderr made of [[exception]], the class name and
    the message. *)
Lemma run_command_exception_result (h : Host) (name cmd : str) (timeout_s : Q)
    (max_chars max_lines : Z) (ename msg : str) :
  subprocess_run h cmd timeout_s (_ensure_path_prefix (os_environ h)) = Raised ename msg ->
  exists r,
    run_command h name cmd timeout_s max_chars max_lines None = inr r
    /\ returncode r = None /\ stdout r = []
    /\ stderr r = lit "[exception] " ++ ename ++ lit ": " ++ msg
    /\ startswith (lit "[exception]") (stderr r) = true
    /\ contains ename (stderr r) = true /\ contains msg (stderr r) = true.
Proof.
  intros Ho. unfold run_command. cbn [truthy]. rewrite Ho.
  eexists. split; [reflexivity|]. cbn [returncode stdout stderr].
  do 4 (split; [reflexivity|]). split.
  - apply contains_spec. exists (lit "[exception] "), (lit ": " ++ msg).
    reflexivity.
  - apply contains_spec. exists (lit "[exception] " ++ ename ++ lit ": "), [].
    rewrite app_nil_r, <- !app_assoc. reflexivity.
Qed.

(** A timeout that carries bytes makes the handler raise: whatever the
    limits, [run_command] ends with the [TypeError] of [re]. *)
Lemma run_command_timeout_bytes (h : Host) (name cmd : str) (timeout_s : Q)
    (max_chars max_lines : Z) (out err : captured) (b : Byte.byte)
    (data : list Byte.byte) :
  subprocess_run h cmd timeout_s (_ensure_path_prefix (os_environ h))
    = TimeoutExpired out err ->
  out = CapturedBytes (b :: data) \/ err = CapturedBytes (b :: data) ->
  run_command h name cmd timeout_s max_chars max_lines None = inl bytes_pattern_error.
Proof.
  intros Ho H. unfold run_command. cbn [truthy]. rewrite Ho.
  destruct H as [-> | ->]; [reflexivity|].
  destruct out as [|[|x xs]|t]; reflexivity.
Qed.

(** C4 (the code departs from it): on a host where the command writes to its
    stdout and then runs into the timeout, [subprocess.run] raises
    [TimeoutExpired] with the bytes read so far, the handler hands them to
    [_strip_ansi], and the [TypeError] raised there leaves [run_command]: no
    result is returned. *)
Theorem run_command_timeout_raises :
  subprocess_run hung_host (lit "ping -c 20 192.0.2.1") 1
    (_ensure_path_prefix (os_environ hung_host))
  = TimeoutExpired (CapturedBytes [Byte.x50; Byte.x49; Byte.x4e; Byte.x47]) NoCapture
  /\ run_command hung_host (lit "Ping") (lit "ping -c 20 192.0.2.1") 1 20000 500 None
     = inl (TypeError (lit "cannot use a string pattern on a bytes-like object")).
Proof. split; reflexivity. Qed.

(** *** Dates *)

Lemma is_digit_code (c : ascii) :
  is_digit c = true -> (48 <= code c <= 57)%N.
Proof.
  unfold is_digit, in_range. rewrite andb_true_iff, !N.leb_le. tauto.
Qed.

Lemma is_date_shape (s : str) :
  is_date s = true ->
  exists y1 y2 y3 y4 m1 m2 d1 d2,
    s = [y1; y2; y3; y4; hyphen; m1; m2; hyphen; d1; d2]
    /\ Forall (fun c => (48 <= code c <= 57)%N) [y1; y2; y3; y4; m1; m2; d1; d2].
Proof.
  intros H.
  do 10 (destruct s as [|? s]; [discriminate H|]).
  destruct s; [|discriminate H].
  unfold is_date in H.
  apply andb_prop in H as [H H2]. apply andb_prop in H as [H H1].
  apply bool_decide_eq_true in H1, H2. subst.
  cbn [forallb] in H.
  repeat (apply andb_prop in H as [?%is_digit_code H]).
  do 8 eexists. split; [reflexivity|].
  repeat (constructor; [assumption|]). constructor.
Qed.

(** Write the code of every digit as 48 plus its value, so that only
    arithmetic without subtraction is left. *)
Ltac name_code x :=
  let E := fresh "E" in
  let d := fresh "d" in
  let v := fresh "v" in
  assert (E : code x = (48 + (code x - 48))%N) by lia;
  set (d := (code x - 48)%N) in *; clearbody d;
  set (v := code x) in *; clearbody v; subst v.

Ltac name_codes :=
  repeat match goal with
         | |- context [code ?x] => is_var x; name_code x
         | H : context [code ?x] |- _ => is_var x; name_code x
         end.

(** Compare two digits; unless they are equal the order is settled. *)
Ltac cmp_digit x y :=
  destruct (N.compare_spec (code x) (code y)); cbv iota;
  [ | solve [name_codes; split; intros; first [reflexivity | discriminate | lia]] .. ].

Lemma str_le_dates (a b : str) :
  is_date a = true -> is_date b = true ->
  (str_le a b = true <-> chrono_le (ymd a) (ymd b)).
Proof.
  intros Ha Hb.
  destruct (is_date_shape a Ha) as (y1 & y2 & y3 & y4 & m1 & m2 & d1 & d2 & -> & Fa).
  destruct (is_date_shape b Hb) as (z1 & z2 & z3 & z4 & n1 & n2 & e1 & e2 & -> & Fb).
  repeat match goal with
         | H : Forall _ (_ :: _) |- _ => apply Forall_cons in H as [? H]
         end.
  unfold str_le, ymd, chrono_le, number, digit_val.
  cbn [take drop fold_left str_compare].
  rewrite !N.compare_refl.
  cmp_digit y1 z1. cmp_digit y2 z2. cmp_digit y3 z3. cmp_digit y4 z4.
  cmp_digit m1 n1. cmp_digit m2 n2. cmp_digit d1 e1. cmp_digit d2 e2.
  name_codes. split; intros; first [reflexivity | lia].
Qed.

(** C9: for two strings of the shape [YYYY-MM-DD], the string comparison
    [a <= b] holds exactly when the date of [a] is not after the date of [b];
    so the test [delete_date <= today] of [task_cleanup_archives] selects an
    archive exactly when its tagged date is today or earlier. *)
Theorem date_strings_order (a b : str) :
  is_date a = true -> is_date b = true ->
  (str_le a b = true <-> chrono_le (ymd a) (ymd b))
  /\ (forall name, pattern_group name = Some a ->
        (eligible b name = true <-> chrono_le (ymd a) (ymd b))).
Proof.
  intros Ha Hb. split; [apply str_le_dates; assumption|].
  intros name Hn. unfold eligible. rewrite Hn. apply str_le_dates; assumption.
Qed.

Lemma date_strings_order_witness :
  (str_le (lit "2000-01-01") (lit "2026-11-04") = true
   <-> chrono_le (ymd (lit "2000-01-01")) (ymd (lit "2026-11-04")))
  /\ (eligible (lit "2026-11-04") (lit "x_delete_2000-01-01.zip") = true
      <-> chrono_le (ymd (lit "2000-01-01")) (ymd (lit "2026-11-04"))).
Proof.
  destruct (date_strings_order (lit "2000-01-01") (lit "2026-11-04")
              eq_refl eq_refl) as [H1 H2].
  split; [exact H1|]. apply H2. reflexivity.
Defined.

(** The captured group of the archive pattern always has the date shape. *)
Lemma pattern_group_is_date (name d : str) :
  pattern_group name = Some d -> is_date d = true.
Proof.
  unfold pattern_group. intros H.
  match type of H with (if ?c then _ else _) = _ => destruct c eqn:E end;
    [|discriminate H].
  injection H as <-.
  rewrite !andb_true_iff in E. tauto.
Qed.

(** *** Dry runs *)

Lemma read_only_ret {A} (a : A) : read_only (ret a).
Proof. intros w. split; [reflexivity|]. exists []. rewrite app_nil_r. auto. Qed.

Lemma read_only_raise {A} (e : exn) : read_only (@raise A e).
Proof. intros w. split; [reflexivity|]. exists []. rewrite app_nil_r. auto. Qed.

Lemma read_only_log (msg : str) : read_only (log msg).
Proof. intros w. split; [reflexivity|]. exists []. rewrite app_nil_r. auto. Qed.

Lemma read_only_bind {A B} (c : M A) (k : A -> M B) :
  read_only c -> (forall a, read_only (k a)) -> read_only (bind c k).
Proof.
  intros Hc Hk w. unfold bind. specialize (Hc w).
  destruct (c w) as [w1 [e|a]]; [exact Hc|].
  destruct Hc as (Hf & x1 & Hs1 & Hd1). simpl in *.
  destruct (Hk a w1) as (Hf2 & x2 & Hs2 & Hd2).
  split; [congruence|]. exists (x1 ++ x2).
  rewrite Hs2, Hs1, app_assoc. split; [reflexivity|].
  apply Forall_app. auto.
Qed.

Lemma read_only_for_each {A} (l : list A) (body : A -> M unit) :
  (forall x, read_only (body x)) -> read_only (for_each l body).
Proof.
  intros Hb. induction l as [|x l IH]; simpl.
  - apply read_only_ret.
  - apply read_only_bind; [apply Hb|intros _; exact IH].
Qed.

Lemma read_only_du_kb (m : Machine) (p : path) : read_only (du_kb m p).
Proof.
  intros w. split; [reflexivity|]. eexists. split; [reflexivity|].
  constructor; [reflexivity|constructor].
Qed.

(** In every mode but [apply], [task_cleanup_archives] leaves the disk as it
    is and starts no process other than [du]. *)
Lemma task_cleanup_archives_read_only (m : Machine) (archive_dir : path) (mode : str) :
  mode <> MODE_APPLY -> read_only (task_cleanup_archives m archive_dir mode).
Proof.
  intros Hmode. unfold task_cleanup_archives.
  apply read_only_bind.
  { destruct (validate_home_path _ _ _); [apply read_only_raise|apply read_only_ret]. }
  intros dir. apply read_only_bind.
  { intros w. split; [reflexivity|]. exists []. rewrite app_nil_r. auto. }
  intros present. destruct (negb present); [apply read_only_log|].
  apply read_only_bind.
  { intros w. split; [reflexivity|]. exists []. rewrite app_nil_r. auto. }
  intros names. destruct (List.filter _ names) as [|c cands]; [apply read_only_log|].
  apply read_only_bind; [apply read_only_log|]. intros _.
  apply read_only_for_each. intros name.
  apply read_only_bind; [apply read_only_du_kb|]. intros size.
  rewrite bool_decide_eq_false_2 by exact Hmode. apply read_only_log.
Qed.

(** The dry run over an archive dated 2000-01-01: the file is still there
    and the log says what would be deleted. *)
Lemma task_cleanup_archives_dry_run_example :
  let w' := (task_cleanup_archives jpaul_mac archive_dir_0 MODE_DRY_RUN archives_world).1 in
  fs w' = fs archives_world
  /\ fs w' !! (archive_dir_0 ++ [lit "x_delete_2000-01-01.zip"]) = Some File
  /\ logged w' = [ lit "cleanup-archives: 1 archive(s) eligible for deletion";
                   lit "would delete: x_delete_2000-01-01.zip (0.12 GB)" ].
Proof.
  split; [|split].
  - apply task_cleanup_archives_read_only. discriminate.
  - vm_compute. reflexivity.
  - vm_compute. reflexivity.
Qed.

(** C3 (the code departs from it): a dry run of [task_archive_orphans] with an
    archive directory that does not exist yet creates it, and its parent, on
    disk. *)
Theorem task_archive_orphans_dry_run_creates_dir :
  let w' := (task_archive_orphans jpaul_mac support_dir_0 new_archive_dir
               [lit "SomeApp"] 90 MODE_DRY_RUN support_world).1 in
  fs support_world !! new_archive_dir = None
  /\ fs w' !! new_archive_dir = Some Dir
  /\ fs w' <> fs support_world
  /\ spawned w' = []
  /\ logged w' =
       [ lit "archive-orphans: delete date set to 2027-02-02";
         lit "would archive: SomeApp -> /Users/jpaul/Desktop/Archives/SomeApp_delete_2027-02-02.zip" ].
Proof.
  assert (H1 : fs support_world !! new_archive_dir = None) by (vm_compute; reflexivity).
  assert (H2 : fs (task_archive_orphans jpaul_mac support_dir_0 new_archive_dir
                     [lit "SomeApp"] 90 MODE_DRY_RUN support_world).1
               !! new_archive_dir = Some Dir) by (vm_compute; reflexivity).
  split; [exact H1|]. split; [exact H2|]. split.
  - intros E. rewrite E, H1 in H2. discriminate H2.
  - split; vm_compute; reflexivity.
Qed.

(** *** Orphaned support folders *)

Lemma orphan_names_spec (apps : list str) (skip_re : regex) (dirs : list str) (d : str) :
  d ∈ orphan_names apps skip_re dirs
  <-> d ∈ dirs /\ re_match skip_re d = false
      /\ forall app, app ∈ apps -> app_matches (lower d) app = false.
Proof.
  unfold orphan_names, is_orphan.
  rewrite !list_elem_of_In, filter_In, andb_true_iff, !negb_true_iff.
  split.
  - intros (Hd & Hs & Hn). repeat split; try assumption.
    intros app Happ. apply not_true_iff_false. intros Hm.
    apply not_true_iff_false in Hn. apply Hn. apply existsb_exists.
    exists app. split; [apply list_elem_of_In, Happ|exact Hm].
  - intros (Hd & Hs & Hn). repeat split; try assumption.
    apply not_true_iff_false. intros Hex.
    apply existsb_exists in Hex as (app & Happ & Hm).
    apply list_elem_of_In in Happ.
    rewrite (Hn app Happ) in Hm. discriminate Hm.
Qed.

Lemma for_each_orphan_lines (m : Machine) (dir : path) (names : list str) (w : World) :
  logged (for_each names (fun name =>
            let full := dir ++ [name] in
            let! size := du_kb m full in
            let mtime := default (lit "unknown") (mtime_of m full) in
            log (lit "  " ++ name ++ lit " (" ++ size_str size
                 ++ lit ", last modified: " ++ mtime ++ lit ")")) w).1
  = logged w ++ map (orphan_line m dir) names.
Proof.
  revert w. induction names as [|name names IH]; intros w; simpl.
  - rewrite app_nil_r. reflexivity.
  - unfold bind at 1. cbn -[for_each lit size_str].
    rewrite IH. cbn [logged]. rewrite <- app_assoc. reflexivity.
Qed.

(** What [task_find_orphans] logs when both directories can be listed: the
    count, then one line for each of the first [limit] orphans. *)
Lemma task_find_orphans_logged (m : Machine) (app_support_dir applications_dir : path)
    (limit : Z) (skip_re : regex) (w : World) :
  node_at (fs w) (resolve m app_support_dir) = Some Dir ->
  node_at (fs w) (resolve m applications_dir) = Some Dir ->
  let orphans :=
    orphan_names
      (installed_app_names (map fst (entries (fs w) (resolve m applications_dir))))
      skip_re
      (sorted (omap (fun '(name, nd) => match nd with Dir => Some name | File => None end)
                 (entries (fs w) (resolve m app_support_dir)))) in
  logged (task_find_orphans m app_support_dir applications_dir limit skip_re w).1
  = logged w
    ++ (lit "find-orphans: found " ++ str_of_Z (len orphans)
        ++ lit " potential orphaned folders")
    :: map (orphan_line m (resolve m app_support_dir)) (slice_to limit orphans).
Proof.
  intros Hs Ha orphans. unfold task_find_orphans.
  unfold bind at 1. unfold is_dir at 1. rewrite Hs.
  rewrite bool_decide_eq_true_2 by reflexivity. cbn [negb].
  unfold bind at 1. unfold is_dir at 1. rewrite Ha.
  rewrite bool_decide_eq_true_2 by reflexivity. cbn [negb].
  fold orphans. unfold bind at 1. unfold log at 1.
  rewrite for_each_orphan_lines. cbn [logged].
  rewrite <- app_assoc. reflexivity.
Qed.

(** C7 (as amended): with the application [Foo] installed, the support
    folders [Foo Helper] and [Bar], and a skip pattern that matches neither
    name, [Bar] is the one folder reported and [Foo Helper] is not; in general
    a folder is among the orphans exactly when the skip pattern does not match
    its name and no installed name contains, or is contained in, its lowercased
    name. *)
Theorem find_orphans_foo_bar (skip_re : regex) (limit : Z) :
  re_match skip_re (lit "Foo Helper") = false ->
  re_match skip_re (lit "Bar") = false ->
  1 <= limit ->
  logged (task_find_orphans jpaul_mac support_dir_0 apps_dir_0 limit skip_re
            orphans_world).1
  = [ lit "find-orphans: found 1 potential orphaned folders";
      lit "  Bar (0.12 GB, last modified: 2020-01-01)" ]
  /\ (forall apps dirs d,
        d ∈ orphan_names apps skip_re dirs
        <-> d ∈ dirs /\ re_match skip_re d = false
            /\ forall app, app ∈ apps -> app_matches (lower d) app = false).
Proof.
  intros Hfoo Hbar Hlimit. split; [|intros; apply orphan_names_spec].
  rewrite task_find_orphans_logged by (vm_compute; reflexivity).
  replace (installed_app_names
             (map fst (entries (fs orphans_world) (resolve jpaul_mac apps_dir_0))))
    with [lit "foo"] by (vm_compute; reflexivity).
  replace (sorted (omap (fun '(name, nd) => match nd with Dir => Some name | File => None end)
                     (entries (fs orphans_world) (resolve jpaul_mac support_dir_0))))
    with [lit "Bar"; lit "Foo Helper"] by (vm_compute; reflexivity).
  unfold orphan_names, is_orphan. cbn [List.filter].
  rewrite Hfoo, Hbar.
  replace (existsb (app_matches (lower (lit "Bar"))) [lit "foo"]) with false
    by (vm_compute; reflexivity).
  replace (existsb (app_matches (lower (lit "Foo Helper"))) [lit "foo"]) with true
    by (vm_compute; reflexivity).
  cbn [negb andb].
  unfold slice_to. rewrite (proj2 (Z.leb_le 0 limit)) by lia.
  rewrite take_ge by (simpl; lia).
  vm_compute. reflexivity.
Qed.

Lemma find_orphans_foo_bar_witness :
  logged (task_find_orphans jpaul_mac support_dir_0 apps_dir_0 30 Void
            orphans_world).1
  = [ lit "find-orphans: found 1 potential orphaned folders";
      lit "  Bar (0.12 GB, last modified: 2020-01-01)" ].
Proof.
  apply (find_orphans_foo_bar Void 30); [reflexivity|reflexivity|lia].
Defined.

(** C7 (as stated) fails: the empty pattern matches at the start of every
    name, so every folder is skipped and [Bar] is not reported. *)
Lemma find_orphans_empty_pattern :
  re_match (re_literal []) (lit "Bar") = true
  /\ logged (task_find_orphans jpaul_mac support_dir_0 apps_dir_0 30 (re_literal [])
               orphans_world).1
     = [ lit "find-orphans: found 0 potential orphaned folders" ].
Proof. split; vm_compute; reflexivity. Qed.

(** *** [main] *)

Lemma run_tasks_table (m : Machine) (o : OtherTasks) (skip_re : regex)
    (args : Args) (tasks : list str) (w : World) :
  run_tasks m o skip_re args tasks w
  = (for_each (task_table m o skip_re args)
       (fun tc => when (selected tc.1 tasks) tc.2) >> ret 0) w.
Proof.
  unfold run_tasks, task_table, for_each, bind. cbn [fst snd].
  repeat match goal with
         | |- context [when ?b ?c ?x] => destruct (when b c x) as [? [?|[]]]
         end; reflexivity.
Qed.

Lemma for_each_never_raises {A} (l : list A) (body : A -> M unit) :
  (forall x, x ∈ l -> never_raises (body x)) -> never_raises (for_each l body).
Proof.
  induction l as [|x l IH]; intros H w; simpl.
  - exists w, tt. reflexivity.
  - unfold bind. destruct (H x (list_elem_of_here _ _) w) as (w1 & [] & ->).
    apply IH. intros y Hy. apply H. apply list_elem_of_further, Hy.
Qed.

(** C8: without any task, report mode runs the report and returns 0, and the
    other modes log one line and return 2; otherwise the selected tasks run
    and, when none of them raises, [main] returns 0; no other exit code is
    ever returned. *)
Theorem main_exit_code (m : Machine) (o : OtherTasks) (skip_re : regex) (args : Args) :
  let tasks := default [] (arg_task args) in
  (tasks = [] -> arg_mode args = MODE_REPORT ->
     forall w, main m o skip_re args w = (generate_report o args >> ret 0) w)
  /\ (tasks = [] -> arg_mode args <> MODE_REPORT ->
        forall w, main m o skip_re args w
                  = (mkWorld (fs w) (logged w ++ [no_task_line]) (spawned w), inr 2))
  /\ (tasks <> [] ->
        (forall t c, (t, c) ∈ task_table m o skip_re args -> t ∈ tasks ->
                     never_raises c) ->
        forall w, exists w', main m o skip_re args w = (w', inr 0))
  /\ (forall w w' rc, main m o skip_re args w = (w', inr rc) ->
        rc = 0 \/ (rc = 2 /\ tasks = [] /\ arg_mode args <> MODE_REPORT)).
Proof.
  intros tasks. unfold main. fold tasks. split; [|split; [|split]].
  - intros -> Hmode w. rewrite bool_decide_eq_true_2 by exact Hmode.
    unfold run_tasks.
    replace (selected TASK_REPORT [TASK_REPORT]) with true by (vm_compute; reflexivity).
    replace (selected TASK_BREW [TASK_REPORT]) with false by (vm_compute; reflexivity).
    replace (selected TASK_FIND_ORPHANS [TASK_REPORT]) with false by (vm_compute; reflexivity).
    replace (selected TASK_ARCHIVE_ORPHANS [TASK_REPORT]) with false by (vm_compute; reflexivity).
    replace (selected TASK_CLEANUP_ARCHIVES [TASK_REPORT]) with false by (vm_compute; reflexivity).
    replace (selected TASK_CHROME [TASK_REPORT]) with false by (vm_compute; reflexivity).
    replace (selected TASK_COPY [TASK_REPORT]) with false by (vm_compute; reflexivity).
    unfold when, bind, ret. destruct (generate_report o args w) as [w1 [e|[]]]; reflexivity.
  - intros -> Hmode w. rewrite bool_decide_eq_false_2 by exact Hmode. reflexivity.
  - intros Hne Hok w. destruct tasks as [|t tasks'] eqn:Et; [congruence|].
    rewrite run_tasks_table. unfold bind.
    destruct (for_each_never_raises (task_table m o skip_re args)
                (fun tc => when (selected tc.1 (t :: tasks')) tc.2)) with (w := w)
      as (w1 & [] & ->).
    + intros [t0 c] Hin. unfold when, selected. cbn [fst snd].
      case_bool_decide as Hsel; [exact (Hok t0 c Hin Hsel)|].
      intros w0. exists w0, tt. reflexivity.
    + exists w1. reflexivity.
  - intros w w' rc. destruct tasks as [|t tasks'] eqn:Et.
    + case_bool_decide as Hmode.
      * rewrite run_tasks_table. unfold bind.
        destruct (for_each _ _ w) as [w1 [e|[]]]; [discriminate|].
        intros [= _ <-]. left. reflexivity.
      * intros [= _ <-]. right. auto.
    + rewrite run_tasks_table. unfold bind.
      destruct (for_each _ _ w) as [w1 [e|[]]]; [discriminate|].
      intros [= _ <-]. left. reflexivity.
Qed.

Lemma main_exit_code_witness :
  exists w', main jpaul_mac idle_tasks Void report_args support_world = (w', inr 0).
Proof.
  destruct (main_exit_code jpaul_mac idle_tasks Void report_args) as (_ & _ & H & _).
  apply (fun H1 H2 => H H1 H2 support_world); [discriminate|].
  intros t c Hin Ht. apply list_elem_of_In in Hin.
  apply list_elem_of_In in Ht. simpl in Ht. destruct Ht as [<-|[]].
  simpl in Hin.
  repeat (destruct Hin as [Hin|Hin];
          [first [discriminate Hin
                 | injection Hin as <-; intros w; exists w, tt; reflexivity]|]).
  destruct Hin.
Defined.

Lemma slugify_identifier_witness :
  _slugify letterlike (ulit "-- !! --") = ulit "section".
Proof.
  destruct (slugify_identifier letterlike (ulit "-- !! --"))
    as (_ & _ & _ & _ & _ & _ & _ & _ & H).
  apply H; repeat constructor.
Defined.

(** Two readings of the table: exit code 0 is [ok] whatever stderr holds, and
    a skip reason is [warn]/[SKIPPED] whatever the exit code. *)
Lemma badge_exit_code_zero (r : CommandResult) :
  truthy (skipped_reason r) = false -> returncode r = Some 0 ->
  badge_for_result r = (lit "ok", lit "OK").
Proof. intros Hs Hr. unfold badge_for_result. rewrite Hs, Hr. reflexivity. Qed.

Lemma badge_skipped (r : CommandResult) :
  truthy (skipped_reason r) = true ->
  badge_for_result r = (lit "warn", lit "SKIPPED").
Proof. intros Hs. unfold badge_for_result. rewrite Hs. reflexivity. Qed.

(** ** Further properties of the report pipeline *)

Lemma badge_class_cases (r : CommandResult) :
  (badge_for_result r).1 = lit "ok" \/ (badge_for_result r).1 = lit "warn"
  \/ (badge_for_result r).1 = lit "bad".
Proof.
  unfold badge_for_result.
  destruct (truthy (skipped_reason r)); [auto|].
  destruct (returncode r) as [[|p|p]|]; auto;
    repeat match goal with
           | |- context [if ?c then _ else _] => destruct c
           end; auto.
Qed.

Lemma class_in_map (cls : str) (results : list CommandResult) :
  cls ∈ map (fun r => (badge_for_result r).1) results
  <-> exists r, r ∈ results /\ (badge_for_result r).1 = cls.
Proof.
  rewrite list_elem_of_fmap. split.
  - intros (r & -> & Hr). eauto.
  - intros (r & Hr & <-). eauto.
Qed.

(** X1: a section is [bad] exactly when one of its checks is, [warn] exactly
    when none is bad and one is warn, and [ok] exactly when every check is ok
    (so also when it has no check). *)
Theorem section_status_worst (results : list CommandResult) :
  (_section_status results = lit "bad"
   <-> exists r, r ∈ results /\ (badge_for_result r).1 = lit "bad")
  /\ (_section_status results = lit "warn"
      <-> (forall r, r ∈ results -> (badge_for_result r).1 <> lit "bad")
          /\ exists r, r ∈ results /\ (badge_for_result r).1 = lit "warn")
  /\ (_section_status results = lit "ok"
      <-> forall r, r ∈ results -> (badge_for_result r).1 = lit "ok").
Proof.
  unfold _section_status.
  pose proof (class_in_map (lit "bad") results) as Hbad.
  pose proof (class_in_map (lit "warn") results) as Hwarn.
  case_bool_decide as Hb; [|case_bool_decide as Hw].
  - apply Hbad in Hb. split; [tauto|]. split.
    + split; [discriminate|]. intros [Hno _]. destruct Hb as (r & Hr & Hc).
      destruct (Hno r Hr Hc).
    + split; [discriminate|]. intros Hall. destruct Hb as (r & Hr & Hc).
      rewrite (Hall r Hr) in Hc. discriminate Hc.
  - apply Hwarn in Hw. split; [|split].
    + split; [discriminate|]. intros Hex. apply Hbad in Hex. contradiction.
    + split; [|reflexivity]. intros _. split; [|exact Hw].
      intros r Hr Hc. apply Hb, Hbad. eauto.
    + split; [discriminate|]. intros Hall. destruct Hw as (r & Hr & Hc).
      rewrite (Hall r Hr) in Hc. discriminate Hc.
  - split; [|split].
    + split; [discriminate|]. intros Hex. apply Hbad in Hex. contradiction.
    + split; [discriminate|]. intros [_ Hex]. apply Hwarn in Hex. contradiction.
    + split; [|reflexivity]. intros _ r Hr.
      destruct (badge_class_cases r) as [H|[H|H]]; [exact H| |].
      * destruct Hw. apply Hwarn. eauto.
      * destruct Hb. apply Hbad. eauto.
Qed.

(** The three counts that [_format_section_meta] prints after the number of
    checks add up to that number. *)
Lemma section_counts_add_up (results : list CommandResult) :
  count_class (lit "ok") results + count_class (lit "warn") results
  + count_class (lit "bad") results = len results.
Proof.
  unfold count_class, len.
  induction results as [|r results IH]; [reflexivity|].
  cbn [List.filter].
  destruct (badge_class_cases r) as [H|[H|H]]; rewrite H;
    repeat match goal with
           | |- context [bool_decide (lit ?x = lit ?y)] =>
               let v := eval vm_compute in (bool_decide (lit x = lit y)) in
               change (bool_decide (lit x = lit y)) with v
           end; cbn [length]; lia.
Qed.

(** Every skipped check is counted among the warnings. *)
Lemma skipped_counted_as_warn (results : list CommandResult) :
  0 <= count_skipped results <= count_class (lit "warn") results.
Proof.
  unfold count_skipped, count_class, len.
  induction results as [|r results IH]; [simpl; lia|].
  cbn [List.filter]. destruct (truthy (skipped_reason r)) eqn:Hs.
  - rewrite (badge_skipped r Hs). cbn [fst].
    rewrite bool_decide_eq_true_2 by reflexivity. cbn [length]. lia.
  - case_bool_decide; cbn [length]; lia.
Qed.

(** X2: the three counts that [_format_section_meta] prints after the number
    of checks add up to that number, and every skipped check is counted among
    the warnings, so the report's Skipped card never exceeds its WARN card. *)
Theorem section_counts (results : list CommandResult) :
  count_class (lit "ok") results + count_class (lit "warn") results
  + count_class (lit "bad") results = len results
  /\ 0 <= count_skipped results <= count_class (lit "warn") results.
Proof.
  split; [apply section_counts_add_up|apply skipped_counted_as_warn].
Qed.

(** X3: with a skip reason nothing is executed: [run_command] returns a
    result that does not depend on the host, has no exit code, says
    [Skipped: <reason>] on stdout, and is classified warn/SKIPPED. *)
Theorem run_command_skipped (h h' : Host) (name cmd reason : str) (timeout_s : Q)
    (max_chars max_lines : Z) :
  reason <> [] ->
  exists r,
    run_command h name cmd timeout_s max_chars max_lines (Some reason) = inr r
    /\ run_command h' name cmd timeout_s max_chars max_lines (Some reason) = inr r
    /\ returncode r = None
    /\ stdout r = lit "Skipped: " ++ reason
    /\ stderr r = []
    /\ skipped_reason r = Some reason
    /\ badge_for_result r = (lit "warn", lit "SKIPPED").
Proof.
  intros Hne. unfold run_command.
  destruct reason as [|c reason]; [congruence|].
  cbn [truthy]. eexists. split; [reflexivity|]. split; [reflexivity|].
  split; [reflexivity|]. split; [reflexivity|]. split; [reflexivity|].
  split; reflexivity.
Qed.

Lemma run_command_skipped_witness :
  exists r,
    run_command broken_host (lit "brew update (network)") (lit "brew update")
      120 20000 500 (Some (lit "Use --include-network")) = inr r
    /\ returncode r = None.
Proof.
  destruct (run_command_skipped broken_host quiet_host (lit "brew update (network)")
              (lit "brew update") (lit "Use --include-network") 120 20000 500)
    as (r & Hr & _ & Hrc & _).
  - discriminate.
  - exists r. split; [exact Hr|exact Hrc].
Defined.

Lemma truncate_text_empty_iff_nil (s : str) (max_chars max_lines : Z) :
  s = [] -> _truncate_text s max_chars max_lines = ([], false).
Proof. intros ->. reflexivity. Qed.

Lemma strip_captured_readable (c : captured) :
  readable c -> exists text, strip_captured c = inr text.
Proof.
  intros H. destruct c as [|[|b data]|t]; try (eexists; reflexivity).
  destruct (H b data eq_refl).
Qed.

(** X4: how what [run_command] returns is classified, by what the process
    did: exit code 0 is ok/OK, 126 and 127 are warn/MISSING, an exception is
    bad/EXC. A timeout whose exception carries text or nothing for both
    streams gives a result without exit code whose stdout ends with the
    timeout marker; it is never ok, and is warn/TIMEOUT when no stderr was
    captured. *)
Theorem run_command_classified (h : Host) (name cmd : str) (timeout_s : Q)
    (max_chars max_lines : Z) :
  let run := run_command h name cmd timeout_s max_chars max_lines None in
  let outcome := subprocess_run h cmd timeout_s (_ensure_path_prefix (os_environ h)) in
  (forall out err, outcome = Completed 0 out err ->
     exists r, run = inr r /\ badge_for_result r = (lit "ok", lit "OK"))
  /\ (forall rc out err, outcome = Completed rc out err -> rc = 126 \/ rc = 127 ->
        exists r, run = inr r /\ badge_for_result r = (lit "warn", lit "MISSING"))
  /\ (forall ename msg, outcome = Raised ename msg ->
        exists r, run = inr r /\ badge_for_result r = (lit "bad", lit "EXC"))
  /\ (forall out err, outcome = TimeoutExpired out err ->
        readable out -> readable err ->
        exists r,
          run = inr r
          /\ returncode r = None
          /\ endswith timed_out_note (stdout r) = true
          /\ (badge_for_result r).1 <> lit "ok"
          /\ (stderr r = [] -> badge_for_result r = (lit "warn", lit "TIMEOUT"))).
Proof.
  intros run outcome. subst run. unfold run_command. cbn [truthy]. fold outcome.
  split; [|split; [|split]].
  - intros out err ->. eexists. split; reflexivity.
  - intros rc out err -> [-> | ->]; eexists; split; reflexivity.
  - intros ename msg ->. eexists. split; reflexivity.
  - intros out err -> Hout Herr.
    destruct (strip_captured_readable out Hout) as (o & ->).
    destruct (strip_captured_readable err Herr) as (e & ->).
    eexists. split; [reflexivity|]. cbn [returncode stdout stderr].
    split; [reflexivity|]. split; [|split].
    + destruct (_truncate_text o max_chars max_lines).1 as [|c t]; [reflexivity|].
      unfold endswith. rewrite rev_app_distr. apply startswith_spec.
      eexists. cbn [rev app]. rewrite <- !app_assoc. reflexivity.
    + unfold badge_for_result. cbn [skipped_reason truthy returncode stderr].
      match goal with |- context [if ?c then _ else _] => destruct c end;
        discriminate.
    + intros Hnil. unfold badge_for_result.
      cbn [skipped_reason truthy returncode stderr].
      rewrite Hnil. reflexivity.
Qed.

Lemma run_command_classified_witness :
  exists r,
    run_command quiet_host (lit "Uptime") (lit "uptime") 20 20000 500 None = inr r
    /\ badge_for_result r = (lit "ok", lit "OK").
Proof.
  destruct (run_command_classified quiet_host (lit "Uptime") (lit "uptime") 20
              20000 500) as [H _].
  apply (H (lit "ok") []). reflexivity.
Defined.

(** *** Sizes *)

Lemma join_take_prefix (sep : str) (n : nat) (ls : list str) :
  join sep (take n ls) `prefix_of` join sep ls.
Proof.
  revert n. induction ls as [|l ls IH]; intros [|n]; simpl take.
  - apply prefix_nil.
  - apply prefix_nil.
  - apply prefix_nil.
  - destruct (decide (ls = [])) as [->|Hne].
    + rewrite take_nil. reflexivity.
    + destruct n as [|n].
      * simpl take. rewrite (join_cons sep l ls) by exact Hne. simpl join.
        apply prefix_app_r. reflexivity.
      * assert (Ht : take (S n) ls <> []) by (destruct ls; [congruence|discriminate]).
        rewrite !join_cons by assumption.
        apply prefix_app, prefix_app, IH.
Qed.

Lemma truncate_text_length (s : str) (max_chars max_lines : Z) :
  0 <= max_chars -> 0 <= max_lines ->
  len (_truncate_text s max_chars max_lines).1 <= max_chars.
Proof.
  intros HC HL. destruct (decide (s = [])) as [->|Hs]; [exact HC|].
  rewrite truncate_text_nonneg by assumption. cbn [fst].
  unfold len. rewrite length_take. lia.
Qed.

(** X5: for limits that are not negative, the truncated text has at most
    [max_chars] characters and at most [max_lines] lines, it is a prefix of the
    text with its line endings normalised, and it is that whole text when the
    flag says nothing was cut. *)
Theorem truncate_text_bounds (s : str) (max_chars max_lines : Z) :
  0 <= max_chars -> 0 <= max_lines ->
  let t := (_truncate_text s max_chars max_lines).1 in
  len t <= max_chars
  /\ (t = [] \/ len (split_on LF t) <= max_lines)
  /\ t `prefix_of` join [LF] (splitlines s)
  /\ ((_truncate_text s max_chars max_lines).2 = false ->
      t = join [LF] (splitlines s)).
Proof.
  intros HC HL t.
  pose proof (truncate_text_lines s max_chars max_lines HC HL) as Hlines.
  fold t in Hlines. subst t.
  destruct (decide (s = [])) as [->|Hs].
  - split; [exact HC|]. split; [left; reflexivity|].
    split; [reflexivity|]. intros _. reflexivity.
  - rewrite truncate_text_nonneg by assumption. cbn [fst snd].
    rewrite truncate_text_nonneg in Hlines by assumption. cbn [fst] in Hlines.
    unfold len. split; [rewrite length_take; lia|]. split.
    { destruct Hlines as [E|Hl]; [left; exact E|right; lia]. }
    split.
    + etransitivity; [apply prefix_take|apply join_take_prefix].
    + intros Hflag. apply orb_false_iff in Hflag as [Hl Hc].
      apply Nat.ltb_ge in Hl, Hc.
      rewrite (take_ge (splitlines s)) in * by lia.
      apply take_ge. lia.
Qed.

Lemma truncate_text_bounds_witness :
  len (_truncate_text three_lines 4 2).1 <= 4
  /\ (_truncate_text three_lines 4 2).1 `prefix_of` join [LF] (splitlines three_lines).
Proof.
  destruct (truncate_text_bounds three_lines 4 2 ltac:(lia) ltac:(lia))
    as (H1 & _ & H3 & _).
  split; [exact H1|exact H3].
Defined.

Lemma stored_length (note s : str) (max_chars max_lines : Z) :
  0 <= max_chars -> 0 <= max_lines ->
  len (stored note s max_chars max_lines) <= max_chars + len note.
Proof.
  intros HC HL.
  pose proof (truncate_text_length s max_chars max_lines HC HL) as Hlen.
  unfold stored. destruct (_truncate_text s max_chars max_lines) as [t cut].
  cbn [fst] in Hlen. unfold len in *.
  destruct cut; [rewrite length_app|]; lia.
Qed.

(** X6: for limits that are not negative, neither stream of the result of a
    command that ran to completion is longer than [max_chars] plus the length
    of its truncation note. *)
Theorem run_command_output_size (h : Host) (name cmd : str) (timeout_s : Q)
    (max_chars max_lines : Z) (rc : Z) (out err : str) :
  0 <= max_chars -> 0 <= max_lines ->
  subprocess_run h cmd timeout_s (_ensure_path_prefix (os_environ h))
    = Completed rc out err ->
  exists r,
    run_command h name cmd timeout_s max_chars max_lines None = inr r
    /\ returncode r = Some rc
    /\ len (stdout r) <= max_chars + 20
    /\ len (stderr r) <= max_chars + 20.
Proof.
  intros HC HL Ho. unfold run_command. cbn [truthy]. rewrite Ho.
  eexists. split; [reflexivity|].
  cbn [returncode stdout stderr]. split; [reflexivity|]. split.
  - apply (stored_length output_note); assumption.
  - apply (stored_length stderr_note); assumption.
Qed.

Lemma run_command_output_size_witness :
  exists r,
    run_command quiet_host (lit "Uptime") (lit "uptime") 20 1 500 None = inr r
    /\ len (stdout r) <= 1 + 20.
Proof.
  destruct (run_command_output_size quiet_host (lit "Uptime") (lit "uptime") 20 1 500
              0 (lit "ok") []) as (r & Hr & _ & Hout & _); [lia|lia|reflexivity|].
  exists r. split; [exact Hr|exact Hout].
Defined.

(** *** Control sequences *)

Lemma strip_go_sublist (k : nat) (s : str) : strip_go k s `sublist_of` s.
Proof.
  revert k. induction s as [|c s IH]; intros k; simpl; [constructor|].
  destruct k as [|k]; [|apply sublist_cons, IH].
  case_bool_decide.
  - destruct (esc_len s); [apply sublist_skip, IH|apply sublist_cons, IH].
  - apply sublist_skip, IH.
Qed.

Lemma strip_go_plain (s : str) :
  Forall (fun c => c <> ESC) s -> strip_go O s = s.
Proof.
  induction 1 as [|c s Hc _ IH]; simpl; [reflexivity|].
  rewrite bool_decide_eq_false_2 by exact Hc. rewrite IH. reflexivity.
Qed.

(** X7: [_strip_ansi] only removes characters (what is left is a subsequence
    of the text, in order), and a text without any ESC is returned as it
    is. *)
Theorem strip_ansi_only_removes (text : str) :
  _strip_ansi text `sublist_of` text
  /\ (length (_strip_ansi text) <= length text)%nat
  /\ (Forall (fun c => c <> ESC) text -> _strip_ansi text = text).
Proof.
  unfold _strip_ansi. split; [apply strip_go_sublist|]. split.
  - apply sublist_length, strip_go_sublist.
  - apply strip_go_plain.
Qed.

Lemma strip_ansi_only_removes_witness : _strip_ansi (lit "Filesystem  Size") = lit "Filesystem  Size".
Proof.
  destruct (strip_ansi_only_removes (lit "Filesystem  Size")) as (_ & _ & H).
  apply H. repeat constructor; discriminate.
Defined.

Lemma strip_go_skip (a rest : str) :
  strip_go (length a) (a ++ rest) = strip_go O rest.
Proof. induction a as [|c a IH]; simpl; [reflexivity|exact IH]. Qed.

Lemma strip_go_skip' (k : nat) (a rest : str) :
  k = length a -> strip_go k (a ++ rest) = strip_go O rest.
Proof. intros ->. apply strip_go_skip. Qed.

Lemma strip_go_esc (s : str) (k : nat) :
  esc_len s = S k -> strip_go O (ESC :: s) = strip_go k s.
Proof.
  intros H. cbn [strip_go]. rewrite bool_decide_eq_true_2 by reflexivity.
  rewrite H. reflexivity.
Qed.

Lemma span_app_stop (p : ascii -> bool) (a b : str) :
  Forall (fun c => p c = true) a ->
  match b with c :: _ => p c = false | [] => True end ->
  span p (a ++ b) = length a.
Proof.
  intros Ha Hb. induction Ha as [|c a Hc _ IH]; simpl.
  - destruct b as [|c b]; [reflexivity|]. simpl. rewrite Hb. reflexivity.
  - rewrite Hc, IH. reflexivity.
Qed.

Lemma index_of_app_first (c : ascii) (a rest : str) :
  Forall (fun x => x <> c) a -> index_of c (a ++ c :: rest) = Some (length a).
Proof.
  induction 1 as [|x a Hx _ IH]; simpl.
  - rewrite bool_decide_eq_true_2 by reflexivity. reflexivity.
  - rewrite bool_decide_eq_false_2 by exact Hx. rewrite IH. reflexivity.
Qed.

Lemma in_range_disjoint (lo hi lo' hi' : N) (c : ascii) :
  (hi < lo' \/ hi' < lo)%N -> in_range lo hi c = true -> in_range lo' hi' c = false.
Proof.
  unfold in_range. intros Hd H. apply andb_true_iff in H as [H1 H2].
  apply N.leb_le in H1, H2. apply andb_false_iff.
  destruct Hd; [left|right]; apply N.leb_gt; lia.
Qed.

(** X8: a CSI sequence (ESC, an opening bracket, parameter characters,
    intermediate characters, one final character) and an OSC sequence closed
    by BEL are removed whole: stripping continues with the text after
    them. *)
Theorem strip_ansi_removes_sequences (rest : str) :
  (forall params inter f,
     Forall (fun c => in_range 48 63 c = true) params ->
     Forall (fun c => in_range 32 47 c = true) inter ->
     in_range 64 126 f = true ->
     _strip_ansi (ESC :: "["%char :: params ++ inter ++ f :: rest) = _strip_ansi rest)
  /\ (forall body,
        Forall (fun c => c <> BEL) body ->
        _strip_ansi (ESC :: "]"%char :: body ++ BEL :: rest) = _strip_ansi rest).
Proof.
  unfold _strip_ansi. split.
  - intros params inter f Hp Hi Hf.
    assert (Ha : span (in_range 48 63) (params ++ inter ++ f :: rest) = length params).
    { apply span_app_stop; [exact Hp|].
      destruct Hi as [|c inter Hc _]; simpl.
      - eapply in_range_disjoint; [|exact Hf]. right. reflexivity.
      - eapply in_range_disjoint; [|exact Hc]. left. reflexivity. }
    assert (Hb : span (in_range 32 47) (inter ++ f :: rest) = length inter).
    { apply span_app_stop; [exact Hi|]. simpl.
      eapply in_range_disjoint; [|exact Hf]. right. reflexivity. }
    assert (Hcsi : csi_len ("["%char :: params ++ inter ++ f :: rest)
                   = (3 + length params + length inter)%nat).
    { unfold csi_len. rewrite bool_decide_eq_true_2 by reflexivity.
      cbv zeta. rewrite Ha, drop_app_length, Hb.
      rewrite app_assoc, drop_app_length', Hf by (rewrite length_app; reflexivity).
      reflexivity. }
    rewrite (strip_go_esc _ (2 + length params + length inter))
      by (unfold esc_len; rewrite Hcsi; reflexivity).
    replace ("["%char :: params ++ inter ++ f :: rest)
      with (("["%char :: params ++ inter ++ [f]) ++ rest)
      by (simpl; rewrite <- !app_assoc; reflexivity).
    apply strip_go_skip'. simpl. rewrite !length_app. simpl. lia.
  - intros body Hb.
    assert (Hosc : osc_len ("]"%char :: body ++ BEL :: rest) = (3 + length body)%nat).
    { unfold osc_len. rewrite bool_decide_eq_true_2 by reflexivity.
      rewrite index_of_app_first by exact Hb. reflexivity. }
    rewrite (strip_go_esc _ (2 + length body))
      by (unfold esc_len;
          replace (csi_len ("]"%char :: body ++ BEL :: rest)) with O by reflexivity;
          rewrite Hosc; reflexivity).
    replace ("]"%char :: body ++ BEL :: rest)
      with (("]"%char :: body ++ [BEL]) ++ rest)
      by (simpl; rewrite <- !app_assoc; reflexivity).
    apply strip_go_skip'. simpl. rewrite !length_app. simpl. lia.
Qed.

Lemma strip_ansi_removes_sequences_witness :
  _strip_ansi (ESC :: "["%char :: lit "1;31" ++ [] ++ "m"%char :: lit "error")
  = _strip_ansi (lit "error").
Proof.
  destruct (strip_ansi_removes_sequences (lit "error")) as [H _].
  apply (H (lit "1;31") [] "m"%char).
  - repeat constructor.
  - constructor.
  - reflexivity.
Defined.

(** *** The search path, again *)

(** X9: [_ensure_path_prefix] leaves every other variable alone, keeps the
    old search path as the end of the new one, and applying it twice is the
    same as applying it once. *)
Theorem ensure_path_prefix_stable (env : gmap str str) :
  _ensure_path_prefix (_ensure_path_prefix env) = _ensure_path_prefix env
  /\ (forall k, k <> lit "PATH" -> _ensure_path_prefix env !! k = env !! k)
  /\ default [] (env !! lit "PATH")
       `suffix_of` default [] (_ensure_path_prefix env !! lit "PATH").
Proof.
  split; [|split].
  - pose proof (ensure_path_prefix_text env) as H.
    unfold _ensure_path_prefix at 1.
    rewrite H. reflexivity.
  - intros k Hk. unfold _ensure_path_prefix.
    destruct (negb _); [|reflexivity].
    rewrite lookup_insert_ne by congruence. reflexivity.
  - unfold _ensure_path_prefix.
    set (path := default [] (env !! lit "PATH")).
    destruct (negb (contains path_prefix path)); [|reflexivity].
    rewrite lookup_insert_eq. cbn [default from_option id].
    destruct path as [|c path]; [apply suffix_nil|].
    rewrite app_assoc. apply suffix_app_r. reflexivity.
Qed.

(** *** Identifiers, again *)

Lemma lstrip_head (c : N) (s : ustr) : head s <> Some c -> lstrip c s = s.
Proof.
  destruct s as [|x s]; [reflexivity|]. simpl. intros H.
  rewrite bool_decide_eq_false_2 by congruence. reflexivity.
Qed.

Lemma head_rev_last {A} (l : list A) : head (rev l) = last l.
Proof. rewrite <- (rev_involutive l) at 2. symmetry. apply last_rev_head. Qed.

Lemma strip_clean (c : N) (s : ustr) :
  head s <> Some c -> last s <> Some c -> strip c s = s.
Proof.
  intros Hh Hl. unfold strip. rewrite (lstrip_head c s Hh).
  rewrite lstrip_head by (rewrite head_rev_last; exact Hl).
  apply rev_involutive.
Qed.

(** Lowercase text of Latin-1 is left as it is by [lower]. *)
Lemma ulower_fixed (db : Unicode) (s : ustr) :
  Forall (lower_latin1 db) s -> ulower db s = s.
Proof.
  intros H. rewrite ulower_latin1.
  - induction H as [|c s [Hl Hu] _ IH]; [reflexivity|]. cbn [map]. rewrite IH.
    f_equal. unfold uisupper in Hu. rewrite Hl in Hu.
    unfold lower_char. rewrite Hu. apply code_chr, Hl.
  - eapply Forall_impl; [exact H|]. intros c [Hl _]. exact Hl.
Qed.

Lemma slug_fold_clean (db : Unicode) (s : ustr) :
  forall keep ld,
    Forall (slug_char db) s ->
    (forall a b, s <> a ++ dash :: dash :: b) ->
    (ld = true -> head s <> Some dash) ->
    (fold_left (slug_step db) s (keep, ld)).1 = keep ++ s.
Proof.
  induction s as [|c s IH]; intros keep ld Hc Hd Hl; cbn [fold_left].
  - rewrite app_nil_r. reflexivity.
  - inversion Hc as [|? ? Hcc Hcs]; subst.
    assert (Hd' : forall a b, s <> a ++ dash :: dash :: b).
    { intros a b E. apply (Hd (c :: a) b). rewrite E. reflexivity. }
    destruct (decide (c = dash)) as [->|Hne].
    + destruct ld; [destruct (Hl eq_refl); reflexivity|].
      replace (slug_step db (keep, false) dash) with (keep ++ [dash], true)
        by reflexivity.
      rewrite IH; [rewrite <- app_assoc; reflexivity|exact Hcs|exact Hd'|].
      intros _ Hh. destruct s as [|x s]; [discriminate|].
      injection Hh as ->. apply (Hd [] s). reflexivity.
    + destruct Hcc as [?|Ha]; [contradiction|].
      replace (slug_step db (keep, ld) c) with (keep ++ [c], false)
        by (unfold slug_step; rewrite Ha; reflexivity).
      rewrite IH; [rewrite <- app_assoc; reflexivity|exact Hcs|exact Hd'|].
      discriminate.
Qed.

Lemma plain_slug_chars (db : Unicode) (s : ustr) :
  Forall (plain_slug_char db) s ->
  Forall (slug_char db) s /\ Forall (lower_latin1 db) s.
Proof.
  intros H. split; (eapply Forall_impl; [exact H|]).
  - intros c [->|[Ha _]]; [left|right]; auto.
  - intros c [->|[_ Hl]]; [split; reflexivity|exact Hl].
Qed.

Lemma slugify_fixed (db : Unicode) (s : ustr) : clean_slug db s -> _slugify db s = s.
Proof.
  intros (Hne & Hc & Hh & Hl & Hd). unfold _slugify.
  destruct (plain_slug_chars db s Hc) as [Hs Hlow].
  rewrite (ulower_fixed db s Hlow).
  rewrite (slug_fold_clean db s [] false Hs Hd) by discriminate.
  rewrite app_nil_l, strip_clean by assumption.
  destruct s; [congruence|reflexivity].
Qed.

Lemma slugify_clean (db : Unicode) (text : ustr) :
  Forall (fun c => latin1 c = true) text -> clean_slug db (_slugify db text).
Proof.
  intros Hl.
  destruct (slugify_shape db (lower_latin1 db) text) as (H1 & H2 & H3 & H4 & H5).
  - apply lower_latin1_text, Hl.
  - intros c Hc. apply (section_chars db c Hc).
  - split; [exact H1|]. split; [exact H2|]. split; [exact H3|].
    split; [exact H4|exact H5].
Qed.

(** X10: for a text within Latin-1, what [_slugify] returns is a clean
    identifier (non-empty, hyphens and lowercase alphanumeric characters of
    Latin-1, no hyphen at either end and no two in a row), and slugging it
    again gives the same identifier; every clean identifier is returned
    unchanged. *)
Theorem slugify_idempotent (db : Unicode) (text : ustr) :
  Forall (fun c => latin1 c = true) text ->
  clean_slug db (_slugify db text)
  /\ _slugify db (_slugify db text) = _slugify db text
  /\ (forall s, clean_slug db s -> _slugify db s = s).
Proof.
  intros Hl. pose proof (slugify_clean db text Hl) as Hc.
  split; [exact Hc|]. split; [apply slugify_fixed, Hc|apply slugify_fixed].
Qed.

Lemma slugify_idempotent_witness :
  _slugify letterlike (_slugify letterlike (ulit "Disk & Storage"))
  = _slugify letterlike (ulit "Disk & Storage").
Proof.
  destruct (slugify_idempotent letterlike (ulit "Disk & Storage")) as (_ & H & _).
  - unfold ulit. simpl. repeat constructor.
  - exact H.
Defined.

(** ** Further properties of the maintenance tasks *)

(** X11: [validate_home_path] returns the resolved path for every path that
    resolves under the home directory; whenever it accepts, what it returns
    is the resolved path, and whenever it refuses, it raises a [ValueError]
    naming the label and the home directory. *)
Theorem validate_home_path_outcomes (m : Machine) (p : path) (label : str) :
  (under (home m) (resolve m p) ->
     validate_home_path m p label = inr (resolve m p))
  /\ (forall q, validate_home_path m p label = inr q ->
        q = resolve m p
        /\ startswith (path_str (home m)) (path_str q) = true)
  /\ (forall e, validate_home_path m p label = inl e ->
        e = ValueError (label ++ lit " must be within " ++ path_str (home m))).
Proof.
  split; [apply validate_home_path_accepts|].
  unfold validate_home_path.
  destruct (startswith (path_str (home m)) (path_str (resolve m p))) eqn:E;
    cbn [negb]; split; intros x Hx; try discriminate Hx; injection Hx as <-; auto.
Qed.

Lemma validate_home_path_outcomes_witness :
  validate_home_path jpaul_mac archive_dir_0 (lit "archive-dir") = inr archive_dir_0.
Proof.
  destruct (validate_home_path_outcomes jpaul_mac archive_dir_0 (lit "archive-dir"))
    as [H _].
  apply H. exists [lit "archives"]. reflexivity.
Defined.

(** *** [ensure_dir] *)

Lemma mkdir_chain_spec (rest : path) :
  forall pre f f',
    mkdir_chain pre rest f = inr f' ->
    (forall q n, f !! q = Some n -> f' !! q = Some n)
    /\ (forall q n, f !! q = None -> f' !! q = Some n ->
          n = Dir /\ pre `prefix_of` q /\ q `prefix_of` (pre ++ rest))
    /\ (rest <> [] -> f' !! (pre ++ rest) = Some Dir).
Proof.
  induction rest as [|c rest IH]; intros pre f f' H; simpl in H.
  - injection H as <-. split; [auto|]. split; [|congruence].
    intros q n H0 H1. congruence.
  - assert (Hstep : forall g, (forall q n, f !! q = Some n -> g !! q = Some n) ->
              (forall q n, f !! q = None -> g !! q = Some n -> n = Dir /\ q = pre ++ [c]) ->
              g !! (pre ++ [c]) = Some Dir ->
              mkdir_chain (pre ++ [c]) rest g = inr f' ->
              (forall q n, f !! q = Some n -> f' !! q = Some n)
              /\ (forall q n, f !! q = None -> f' !! q = Some n ->
                    n = Dir /\ pre `prefix_of` q /\ q `prefix_of` (pre ++ c :: rest))
              /\ (c :: rest <> [] -> f' !! (pre ++ c :: rest) = Some Dir)).
    { intros g Hg1 Hg2 Hg3 Hm. destruct (IH _ _ _ Hm) as (I1 & I2 & I3).
      replace (pre ++ c :: rest) with ((pre ++ [c]) ++ rest)
        by (rewrite <- app_assoc; reflexivity).
      split; [auto|]. split.
      - intros q n H0 H1. destruct (g !! q) as [n'|] eqn:Eg.
        + destruct (Hg2 q n' H0 Eg) as [-> ->].
          rewrite (I1 _ _ Eg) in H1. injection H1 as <-.
          split; [reflexivity|]. split; [apply prefix_app_r; reflexivity|].
          apply prefix_app_r. reflexivity.
        + destruct (I2 q n Eg H1) as (-> & Hp1 & Hp2).
          split; [reflexivity|]. split; [|exact Hp2].
          etransitivity; [|exact Hp1]. apply prefix_app_r. reflexivity.
      - intros _. destruct (decide (rest = [])) as [->|Hne].
        + simpl in Hm. injection Hm as <-. rewrite app_nil_r. exact Hg3.
        + apply I3, Hne. }
    destruct (f !! (pre ++ [c])) as [[|]|] eqn:E; [discriminate H| |].
    + apply (Hstep f); auto. intros q n H0 H1. congruence.
    + apply (Hstep (<[pre ++ [c] := Dir]> f)); auto.
      * intros q n Hq. rewrite lookup_insert_ne; [exact Hq|congruence].
      * intros q n H0 H1. destruct (decide (pre ++ [c] = q)) as [<-|Hne].
        -- rewrite lookup_insert_eq in H1. injection H1 as <-. auto.
        -- rewrite lookup_insert_ne in H1 by exact Hne. congruence.
      * apply lookup_insert_eq.
Qed.


(** *** Directory listings *)

Lemma strip_prefix_spec (pre p r : path) :
  strip_prefix pre p = Some r <-> p = pre ++ r.
Proof.
  revert p. induction pre as [|a pre IH]; intros p; simpl.
  - split; congruence.
  - destruct p as [|b p]; [split; discriminate|].
    case_bool_decide as E.
    + subst b. rewrite IH. split; [intros ->; reflexivity|intros [= ->]; reflexivity].
    + split; [discriminate|]. intros [= -> _]. congruence.
Qed.



(** *** What a task may remove *)

Lemma read_only_shrinks {A} (P : path -> node -> Prop) (c : M A) :
  read_only c -> shrinks P c.
Proof.
  intros H w. destruct (H w) as [E _]. rewrite E. split; [auto|].
  intros q n H1 H2. congruence.
Qed.

Lemma shrinks_bind {A B} (P : path -> node -> Prop) (c : M A) (k : A -> M B) :
  shrinks P c -> (forall a, shrinks P (k a)) -> shrinks P (bind c k).
Proof.
  intros Hc Hk w. unfold bind. destruct (Hc w) as [C1 C2].
  destruct (c w) as [w1 [e|a]]; cbn [fst] in *; [split; assumption|].
  destruct (Hk a w1) as [K1 K2]. split.
  - intros q n Hq. apply C1, K1, Hq.
  - intros q n Hq Hgone. destruct (fs w1 !! q) as [n'|] eqn:E.
    + pose proof (C1 q n' E) as E'. rewrite Hq in E'. injection E' as <-.
      apply (K2 q n E Hgone).
    + apply (C2 q n Hq E).
Qed.

Lemma shrinks_try_except {A} (P : path -> node -> Prop) (c : M A) (h : exn -> M A) :
  shrinks P c -> (forall e, shrinks P (h e)) -> shrinks P (try_except c h).
Proof.
  intros Hc Hh w. unfold try_except. destruct (Hc w) as [C1 C2].
  destruct (c w) as [w1 [e|a]]; cbn [fst] in *; [|split; assumption].
  destruct (Hh e w1) as [K1 K2]. split.
  - intros q n Hq. apply C1, K1, Hq.
  - intros q n Hq Hgone. destruct (fs w1 !! q) as [n'|] eqn:E.
    + pose proof (C1 q n' E) as E'. rewrite Hq in E'. injection E' as <-.
      apply (K2 q n E Hgone).
    + apply (C2 q n Hq E).
Qed.

Lemma shrinks_for_each {A} (P : path -> node -> Prop) (l : list A) (body : A -> M unit) :
  (forall x, x ∈ l -> shrinks P (body x)) -> shrinks P (for_each l body).
Proof.
  induction l as [|x l IH]; intros H; simpl.
  - apply read_only_shrinks, read_only_ret.
  - apply shrinks_bind; [apply H, list_elem_of_here|]. intros _.
    apply IH. intros y Hy. apply H, list_elem_of_further, Hy.
Qed.

Lemma shrinks_unlink (m : Machine) (p : path) :
  shrinks (fun q n => q = p /\ n = File) (unlink m p).
Proof.
  intros w. unfold unlink.
  destruct (node_at (fs w) p) as [[|]|] eqn:E; [destruct (removal_error m p)|..];
    cbn [fst fs].
  - split; [auto|]. intros q n H1 H2. congruence.
  - split.
    + intros q n Hq. apply lookup_delete_Some in Hq. tauto.
    + intros q n Hq Hgone. destruct (decide (q = p)) as [->|Hne].
      * split; [reflexivity|]. destruct p; [discriminate E|].
        simpl in E. congruence.
      * rewrite lookup_delete_ne in Hgone by congruence. congruence.
  - split; [auto|]. intros q n H1 H2. congruence.
  - split; [auto|]. intros q n H1 H2. congruence.
Qed.

Lemma shrinks_weaken {A} (P Q : path -> node -> Prop) (c : M A) :
  (forall q n, P q n -> Q q n) -> shrinks P c -> shrinks Q c.
Proof.
  intros HPQ H w. destruct (H w) as [H1 H2]. split; [exact H1|].
  intros q n Hq Hg. apply HPQ, (H2 q n Hq Hg).
Qed.

Lemma read_only_query {A} (f : World -> A) : read_only (fun w => (w, inr (f w))).
Proof. intros w. split; [reflexivity|]. exists []. rewrite app_nil_r. auto. Qed.

(** [bind] when something is known about what the first computation
    returns. *)
Lemma shrinks_bind_ret {A B} (P : path -> node -> Prop) (Q : A -> Prop)
    (c : M A) (k : A -> M B) :
  shrinks P c -> (forall w w' a, c w = (w', inr a) -> Q a) ->
  (forall a, Q a -> shrinks P (k a)) -> shrinks P (bind c k).
Proof.
  intros Hc HQ Hk w. unfold bind. destruct (Hc w) as [C1 C2].
  pose proof (HQ w) as HQw.
  destruct (c w) as [w1 [e|a]]; cbn [fst] in *; [split; assumption|].
  destruct (Hk a (HQw _ _ eq_refl) w1) as [K1 K2]. split.
  - intros q n Hq. apply C1, K1, Hq.
  - intros q n Hq Hgone. destruct (fs w1 !! q) as [n'|] eqn:E.
    + pose proof (C1 q n' E) as E'. rewrite Hq in E'. injection E' as <-.
      apply (K2 q n E Hgone).
    + apply (C2 q n Hq E).
Qed.

Lemma validate_home_path_lift (m : Machine) (p : path) (label : str)
    (w w' : World) (a : path) :
  lift (validate_home_path m p label) w = (w', inr a) -> a = resolve m p /\ w' = w.
Proof.
  unfold validate_home_path. destruct (negb _); cbn; intros [= <- <-]; auto.
Qed.

Lemma read_only_lift {A} (r : exn + A) : read_only (lift r).
Proof. destruct r; [apply read_only_raise|apply read_only_ret]. Qed.

(** What [task_cleanup_archives] may remove. *)
Lemma cleanup_archives_removes_only_due (m : Machine) (archive_dir : path)
    (mode : str) (w : World) :
  let w' := (task_cleanup_archives m archive_dir mode w).1 in
  (forall q n, fs w' !! q = Some n -> fs w !! q = Some n)
  /\ (forall q n, fs w !! q = Some n -> fs w' !! q = None ->
        mode = MODE_APPLY /\ n = File
        /\ exists name, q = resolve m archive_dir ++ [name]
                        /\ glob_delete_zip name = true
                        /\ eligible (today_plus m 0) name = true).
Proof.
  set (P := fun (q : path) (n : node) =>
              mode = MODE_APPLY /\ n = File
              /\ exists name, q = resolve m archive_dir ++ [name]
                              /\ glob_delete_zip name = true
                              /\ eligible (today_plus m 0) name = true).
  enough (H : shrinks P (task_cleanup_archives m archive_dir mode)) by apply H.
  destruct (decide (mode = MODE_APPLY)) as [Hmode|Hmode];
    [|apply read_only_shrinks, task_cleanup_archives_read_only, Hmode].
  unfold task_cleanup_archives.
  apply (shrinks_bind_ret P (fun d => d = resolve m archive_dir)).
  { apply read_only_shrinks, read_only_lift. }
  { intros w0 w1 a H. apply validate_home_path_lift in H. tauto. }
  intros d ->.
  apply shrinks_bind; [apply read_only_shrinks, read_only_query|]. intros present.
  destruct (negb present); [apply read_only_shrinks, read_only_log|].
  apply (shrinks_bind_ret P (fun names => forall name, In name names ->
                                           glob_delete_zip name = true)).
  { apply read_only_shrinks, read_only_query. }
  { intros w0 w1 names [= _ <-] name Hin. apply filter_In in Hin. tauto. }
  intros names Hglob.
  assert (Hcand : forall name, name ∈ List.filter (eligible (today_plus m 0)) names ->
            glob_delete_zip name = true /\ eligible (today_plus m 0) name = true).
  { intros name Hin. apply list_elem_of_In, filter_In in Hin as [Hin He]. auto. }
  destruct (List.filter (eligible (today_plus m 0)) names) as [|c cands];
    [apply read_only_shrinks, read_only_log|].
  apply shrinks_bind; [apply read_only_shrinks, read_only_log|]. intros _.
  apply shrinks_for_each. intros name Hin.
  apply shrinks_bind; [apply read_only_shrinks, read_only_du_kb|]. intros size.
  rewrite bool_decide_eq_true_2 by exact Hmode.
  apply shrinks_try_except; [|intros e; apply read_only_shrinks, read_only_log].
  apply shrinks_bind; [|intros _; apply read_only_shrinks, read_only_log].
  eapply shrinks_weaken; [|apply shrinks_unlink].
  intros q n [-> ->]. split; [exact Hmode|]. split; [reflexivity|].
  exists name. destruct (Hcand name Hin). auto.
Qed.

(** *** Relations between the world before and after *)

Section Steps.
Context (R : World -> World -> Prop) `{!Reflexive R} `{!Transitive R}.

Lemma steps_ret {A} (a : A) : steps R (ret a).
Proof. intros w. reflexivity. Qed.

Lemma steps_raise {A} (e : exn) : steps R (@raise A e).
Proof. intros w. reflexivity. Qed.

Lemma steps_query {A} (f : World -> A) : steps R (fun w => (w, inr (f w))).
Proof. intros w. reflexivity. Qed.

Lemma steps_lift {A} (r : exn + A) : steps R (lift r).
Proof. destruct r; [apply steps_raise|apply steps_ret]. Qed.

Lemma steps_bind_ret {A B} (Q : A -> Prop) (c : M A) (k : A -> M B) :
  steps R c -> (forall w w' a, c w = (w', inr a) -> Q a) ->
  (forall a, Q a -> steps R (k a)) -> steps R (bind c k).
Proof.
  intros Hc HQ Hk w. unfold bind. pose proof (Hc w) as Hw.
  pose proof (HQ w) as HQw.
  destruct (c w) as [w1 [e|a]]; cbn [fst] in *; [exact Hw|].
  etransitivity; [exact Hw|]. apply Hk. eapply HQw. reflexivity.
Qed.

Lemma steps_bind {A B} (c : M A) (k : A -> M B) :
  steps R c -> (forall a, steps R (k a)) -> steps R (bind c k).
Proof.
  intros Hc Hk. apply (steps_bind_ret (fun _ => True)); auto.
Qed.

Lemma steps_try_except {A} (c : M A) (h : exn -> M A) :
  steps R c -> (forall e, steps R (h e)) -> steps R (try_except c h).
Proof.
  intros Hc Hh w. unfold try_except. pose proof (Hc w) as Hw.
  destruct (c w) as [w1 [e|a]]; cbn [fst] in *; [|exact Hw].
  etransitivity; [exact Hw|]. apply Hh.
Qed.

Lemma steps_for_each {A} (l : list A) (body : A -> M unit) :
  (forall x, x ∈ l -> steps R (body x)) -> steps R (for_each l body).
Proof.
  induction l as [|x l IH]; intros H; simpl.
  - apply steps_ret.
  - apply steps_bind; [apply H, list_elem_of_here|]. intros _.
    apply IH. intros y Hy. apply H, list_elem_of_further, Hy.
Qed.

Lemma steps_when (b : bool) (c : M unit) : (b = true -> steps R c) -> steps R (when b c).
Proof. destruct b; simpl; [auto|intros _; apply steps_ret]. Qed.
End Steps.

#[local] Instance spawned_only_refl (S : list str -> Prop) : Reflexive (spawned_only S).
Proof. intros w. exists []. rewrite app_nil_r. auto. Qed.

#[local] Instance spawned_only_trans (S : list str -> Prop) : Transitive (spawned_only S).
Proof.
  intros w1 w2 w3 (x & E1 & F1) (y & E2 & F2). exists (x ++ y).
  rewrite E2, E1, app_assoc. split; [reflexivity|]. apply Forall_app. auto.
Qed.

#[local] Instance removed_only_refl (P : path -> Prop) : Reflexive (removed_only P).
Proof. intros w q n H1 H2. congruence. Qed.

#[local] Instance removed_only_trans (P : path -> Prop) : Transitive (removed_only P).
Proof.
  intros w1 w2 w3 H12 H23 q n Hq Hgone.
  destruct (fs w2 !! q) as [n'|] eqn:E; [apply (H23 q n' E Hgone)|apply (H12 q n Hq E)].
Qed.

#[local] Instance grows_refl (Q : path -> node -> Prop) : Reflexive (grows Q).
Proof. intros w. split; [auto|]. intros q n H1 H2. congruence. Qed.

#[local] Instance grows_trans (Q : path -> node -> Prop) : Transitive (grows Q).
Proof.
  intros w1 w2 w3 [K12 C12] [K23 C23]. split.
  - intros q n Hq. apply K23, K12, Hq.
  - intros q n Hq Hnew. destruct (fs w2 !! q) as [n'|] eqn:E.
    + pose proof (K23 q n' E) as E'. rewrite Hnew in E'. injection E' as <-.
      apply (C12 q n Hq E).
    + apply (C23 q n E Hnew).
Qed.

Lemma steps_same_fs {A} (R : World -> World -> Prop) (c : M A) :
  (forall w w', fs w' = fs w -> R w w') -> read_only c -> steps R c.
Proof. intros HR Hc w. apply HR. apply Hc. Qed.

Lemma removed_only_same_fs (P : path -> Prop) (w w' : World) :
  fs w' = fs w -> removed_only P w w'.
Proof. intros E q n H1 H2. congruence. Qed.

Lemma grows_same_fs (Q : path -> node -> Prop) (w w' : World) :
  fs w' = fs w -> grows Q w w'.
Proof. intros E. unfold grows. rewrite E. split; [auto|]. intros q n H1 H2. congruence. Qed.

Lemma spawned_only_log (S : list str -> Prop) (msg : str) : steps (spawned_only S) (log msg).
Proof. intros w. exists []. rewrite app_nil_r. auto. Qed.

Lemma spawned_only_spawn (S : list str -> Prop) (argv : list str) :
  S argv -> steps (spawned_only S) (spawn argv).
Proof. intros H w. exists [argv]. split; [reflexivity|]. repeat constructor. exact H. Qed.

Lemma spawned_only_du_kb (m : Machine) (p : path) : steps (spawned_only is_du) (du_kb m p).
Proof.
  intros w. exists [[lit "/usr/bin/du"; lit "-sk"; path_str p]].
  split; [reflexivity|]. repeat constructor.
Qed.

Lemma spawned_only_unlink (S : list str -> Prop) (m : Machine) (p : path) :
  steps (spawned_only S) (unlink m p).
Proof.
  intros w. unfold unlink. exists []. rewrite app_nil_r.
  destruct (node_at (fs w) p) as [[|]|]; [destruct (removal_error m p)|..]; auto.
Qed.

(** What [task_cleanup_archives] may start. *)
Lemma cleanup_archives_spawns_only_du (m : Machine) (archive_dir : path)
    (mode : str) (w : World) :
  exists extra,
    spawned (task_cleanup_archives m archive_dir mode w).1 = spawned w ++ extra
    /\ Forall is_du extra.
Proof.
  enough (H : steps (spawned_only is_du) (task_cleanup_archives m archive_dir mode))
    by apply H.
  unfold task_cleanup_archives.
  apply (steps_bind (spawned_only is_du)); [apply (steps_lift (spawned_only is_du))|]. intros d.
  apply (steps_bind (spawned_only is_du)); [apply (steps_query (spawned_only is_du))|]. intros present.
  destruct (negb present); [apply spawned_only_log|].
  apply (steps_bind (spawned_only is_du)); [apply (steps_query (spawned_only is_du))|]. intros names.
  destruct (List.filter _ names) as [|c cands]; [apply spawned_only_log|].
  apply (steps_bind (spawned_only is_du)); [apply spawned_only_log|]. intros _.
  apply (steps_for_each (spawned_only is_du)). intros name _.
  apply (steps_bind (spawned_only is_du)); [apply spawned_only_du_kb|]. intros size.
  case_bool_decide; [|apply spawned_only_log].
  apply (steps_try_except (spawned_only is_du)); [|intros e; apply spawned_only_log].
  apply (steps_bind (spawned_only is_du)); [apply spawned_only_unlink|].
  intros _. apply spawned_only_log.
Qed.

(** X13: in every mode, [task_cleanup_archives] creates and changes nothing
    on disk, and whatever it removes is a file directly inside the resolved
    archive directory whose name matches the glob and whose tagged date is not
    after today; it removes something only in [apply] mode. In every mode,
    [apply] included, the only processes it starts are [du] calls. *)
Theorem cleanup_archives_effects (m : Machine) (archive_dir : path)
    (mode : str) (w : World) :
  let w' := (task_cleanup_archives m archive_dir mode w).1 in
  (forall q n, fs w' !! q = Some n -> fs w !! q = Some n)
  /\ (forall q n, fs w !! q = Some n -> fs w' !! q = None ->
        mode = MODE_APPLY /\ n = File
        /\ exists name, q = resolve m archive_dir ++ [name]
                        /\ glob_delete_zip name = true
                        /\ eligible (today_plus m 0) name = true)
  /\ exists extra, spawned w' = spawned w ++ extra /\ Forall is_du extra.
Proof.
  intros w'.
  destruct (cleanup_archives_removes_only_due m archive_dir mode w) as [K G].
  split; [exact K|]. split; [exact G|].
  apply cleanup_archives_spawns_only_du.
Qed.










(** *** Archive names *)

Lemma endswith_app (p x : str) : endswith p (x ++ p) = true.
Proof.
  unfold endswith. rewrite rev_app_distr. apply startswith_spec. eauto.
Qed.

Lemma is_date_length (s : str) : is_date s = true -> length s = 10%nat.
Proof.
  intros H. destruct (is_date_shape s H) as (? & ? & ? & ? & ? & ? & ? & ? & -> & _).
  reflexivity.
Qed.

Lemma replace_char_no_lf (folder : str) :
  LF ∉ folder -> LF ∉ replace_char " "%char "_"%char folder.
Proof.
  unfold replace_char. intros H Hin. apply list_elem_of_fmap in Hin as (c & Hc & Hin).
  case_bool_decide; [discriminate Hc|]. subst c. contradiction.
Qed.

(** X16: the name [task_archive_orphans] gives an archive is one that
    [task_cleanup_archives] recognises, with the same date: it matches the
    glob, the pattern captures the deletion date, and the archive becomes
    eligible exactly from that date on. *)
Theorem archive_name_recognised (folder delete_date : str) :
  is_date delete_date = true -> LF ∉ folder ->
  glob_delete_zip (archive_name folder delete_date) = true
  /\ pattern_group (archive_name folder delete_date) = Some delete_date
  /\ (forall today, is_date today = true ->
        (eligible today (archive_name folder delete_date) = true
         <-> chrono_le (ymd delete_date) (ymd today))).
Proof.
  intros Hd Hlf.
  set (R := replace_char " "%char "_"%char folder).
  set (body := R ++ lit "_delete_" ++ delete_date).
  assert (Hname : archive_name folder delete_date = body ++ lit ".zip").
  { unfold archive_name, body. fold R. rewrite <- !app_assoc. reflexivity. }
  pose proof (is_date_length _ Hd) as Hlen.
  assert (Hbody : take (length (body ++ lit ".zip") - 4) (body ++ lit ".zip") = body).
  { apply take_app_length'. rewrite length_app. simpl. lia. }
  assert (Hglob : glob_delete_zip (archive_name folder delete_date) = true).
  { unfold glob_delete_zip. rewrite Hname, endswith_app, Hbody. cbn [andb].
    apply contains_spec. exists R, delete_date. reflexivity. }
  assert (Hgroup : pattern_group (archive_name folder delete_date) = Some delete_date).
  { unfold pattern_group. rewrite Hname.
    replace (endswith [LF] (body ++ lit ".zip")) with false
      by (unfold endswith; rewrite rev_app_distr; reflexivity).
    rewrite Hbody, endswith_app.
    assert (Hfront : take (length body - 10) body = R ++ lit "_delete_").
    { unfold body. rewrite app_assoc. apply take_app_length'.
      rewrite !length_app. lia. }
    assert (Hdate : drop (length body - 10) body = delete_date).
    { unfold body. rewrite app_assoc. apply drop_app_length'.
      rewrite !length_app. lia. }
    rewrite Hfront, Hdate, Hd, endswith_app.
    rewrite bool_decide_eq_false_2; [reflexivity|].
    intros Hin. apply elem_of_app in Hin as [Hin|Hin].
    - apply (replace_char_no_lf folder Hlf Hin).
    - vm_compute in Hin. repeat (apply elem_of_cons in Hin as [Hin|Hin]; [discriminate Hin|]).
      inversion Hin. }
  split; [exact Hglob|]. split; [exact Hgroup|].
  intros today Ht. unfold eligible. rewrite Hgroup. apply str_le_dates; assumption.
Qed.

Lemma archive_name_recognised_witness :
  pattern_group (archive_name (lit "Amazon Cloud Drive") (lit "2027-02-02"))
  = Some (lit "2027-02-02").
Proof.
  apply (archive_name_recognised (lit "Amazon Cloud Drive") (lit "2027-02-02")).
  - reflexivity.
  - intros H. vm_compute in H.
    repeat (apply elem_of_cons in H as [H|H]; [discriminate H|]). inversion H.
Defined.

(** *** [task_archive_orphans] *)

Lemma grows_ensure_dir (d : path) :
  steps (grows (fun q n => n = Dir /\ q `prefix_of` d)) (ensure_dir d).
Proof.
  intros w. unfold ensure_dir.
  destruct (mkdir_chain [] d (fs w)) as [e|f'] eqn:E; cbn [fst]; [reflexivity|].
  destruct (mkdir_chain_spec d [] (fs w) f' E) as (H1 & H2 & _).
  split; [exact H1|]. intros q n Hq Hn. destruct (H2 q n Hq Hn) as (-> & _ & Hp). auto.
Qed.

Lemma spawned_only_ensure_dir (S : list str -> Prop) (d : path) :
  steps (spawned_only S) (ensure_dir d).
Proof.
  intros w. unfold ensure_dir. exists []. rewrite app_nil_r.
  destruct (mkdir_chain [] d (fs w)); auto.
Qed.

Lemma grows_log (Q : path -> node -> Prop) (msg : str) : steps (grows Q) (log msg).
Proof. intros w. apply grows_same_fs. reflexivity. Qed.

Lemma removed_only_log (P : path -> Prop) (msg : str) : steps (removed_only P) (log msg).
Proof. intros w. apply removed_only_same_fs. reflexivity. Qed.

(** X17: in every mode but [apply], [task_archive_orphans] starts no process
    and removes or changes nothing on disk; all it creates are directories on
    the way to the resolved archive directory. *)
Theorem archive_orphans_without_apply (m : Machine) (app_support_dir archive_dir : path)
    (folders : list str) (days : Z) (mode : str) (w : World) :
  mode <> MODE_APPLY ->
  let w' := (task_archive_orphans m app_support_dir archive_dir folders days mode w).1 in
  spawned w' = spawned w
  /\ (forall q n, fs w !! q = Some n -> fs w' !! q = Some n)
  /\ (forall q n, fs w !! q = None -> fs w' !! q = Some n ->
        n = Dir /\ q `prefix_of` resolve m archive_dir).
Proof.
  intros Hmode.
  set (task := task_archive_orphans m app_support_dir archive_dir folders days mode).
  set (G := grows (fun q n => n = Dir /\ q `prefix_of` resolve m archive_dir)).
  assert (Hs : steps (spawned_only no_process) task).
  { unfold task, task_archive_orphans.
    apply (steps_bind (spawned_only no_process)); [apply (steps_lift (spawned_only no_process))|].
    intros d.
    apply (steps_bind (spawned_only no_process)); [apply spawned_only_ensure_dir|]. intros _.
    apply (steps_bind (spawned_only no_process)); [apply spawned_only_log|]. intros _.
    apply (steps_for_each (spawned_only no_process)). intros folder _.
    apply (steps_bind (spawned_only no_process));
      [apply (steps_query (spawned_only no_process))|]. intros found.
    destruct (negb found); [apply spawned_only_log|].
    rewrite bool_decide_eq_false_2 by exact Hmode. apply spawned_only_log. }
  assert (Hg : steps G task).
  { unfold task, task_archive_orphans.
    apply (steps_bind_ret G (fun d => d = resolve m archive_dir)).
    { apply (steps_lift G). }
    { intros w0 w1 a H. apply validate_home_path_lift in H. tauto. }
    intros d ->.
    apply (steps_bind G); [apply grows_ensure_dir|]. intros _.
    apply (steps_bind G); [apply grows_log|]. intros _.
    apply (steps_for_each G). intros folder _.
    apply (steps_bind G); [apply (steps_query G)|]. intros found.
    destruct (negb found); [apply grows_log|].
    rewrite bool_decide_eq_false_2 by exact Hmode. apply grows_log. }
  intros w'. subst w'. destruct (Hs w) as (extra & E & F). destruct (Hg w) as [K C].
  split; [|split; [exact K|exact C]].
  destruct extra as [|x extra]; [rewrite E, app_nil_r; reflexivity|].
  inversion F as [|? ? Hx _]. destruct Hx.
Qed.

Lemma archive_orphans_without_apply_witness :
  spawned (task_archive_orphans jpaul_mac support_dir_0 new_archive_dir
             [lit "SomeApp"] 90 MODE_DRY_RUN support_world).1
  = spawned support_world.
Proof.
  apply (archive_orphans_without_apply jpaul_mac support_dir_0 new_archive_dir
           [lit "SomeApp"] 90 MODE_DRY_RUN support_world).
  discriminate.
Defined.

Lemma removed_only_ensure_dir (P : path -> Prop) (d : path) :
  steps (removed_only P) (ensure_dir d).
Proof.
  intros w q n Hq Hgone. destruct (grows_ensure_dir d w) as [K _].
  rewrite (K q n Hq) in Hgone. discriminate Hgone.
Qed.

Lemma removed_only_run_zip (P : path -> Prop) (m : Machine) (archive_path : path)
    (folder : str) :
  steps (removed_only P) (run_zip m archive_path folder).
Proof.
  intros w q n Hq Hgone. unfold run_zip, bind, spawn in Hgone.
  cbn [fst] in Hgone. case_bool_decide; cbn [fs] in Hgone; [|congruence].
  destruct (decide (archive_path = q)) as [->|Hne].
  - rewrite lookup_insert_eq in Hgone. discriminate Hgone.
  - rewrite lookup_insert_ne in Hgone by exact Hne. congruence.
Qed.

Lemma run_zip_returns (m : Machine) (archive_path : path) (folder : str)
    (w w' : World) (r : Z * str) :
  run_zip m archive_path folder w = (w', inr r) ->
  r = zip_answer m (zip_argv archive_path folder).
Proof. unfold run_zip, bind, spawn. intros [= _ <-]. reflexivity. Qed.

Lemma removed_only_rmtree (p : path) :
  steps (removed_only (fun q => p `prefix_of` q)) (rmtree p).
Proof.
  intros w q n Hq Hgone. unfold rmtree in Hgone. cbn [fst fs] in Hgone.
  apply map_lookup_filter_None in Hgone as [Hgone|Hgone]; [congruence|].
  specialize (Hgone n Hq). cbn in Hgone.
  destruct (strip_prefix p q) as [r|] eqn:E; [|congruence].
  apply strip_prefix_spec in E. exists r. exact E.
Qed.

Lemma steps_removed_weaken {A} (P Q : path -> Prop) (c : M A) :
  (forall q, P q -> Q q) -> steps (removed_only P) c -> steps (removed_only Q) c.
Proof. intros HPQ H w q n Hq Hg. apply HPQ, (H w q n Hq Hg). Qed.

(** X18: for folder names that are single path components, whatever
    [task_archive_orphans] removes lies in a listed folder of the support
    directory whose [zip] exited with 0, and it removes something only in
    [apply] mode: a folder whose archive could not be written is kept. *)
Theorem archive_orphans_removes_only_archived (m : Machine)
    (app_support_dir archive_dir : path) (folders : list str) (days : Z)
    (mode : str) (w : World) :
  Forall plain_name folders ->
  let w' := (task_archive_orphans m app_support_dir archive_dir folders days mode w).1 in
  forall q n, fs w !! q = Some n -> fs w' !! q = None ->
    mode = MODE_APPLY
    /\ exists folder,
         folder ∈ folders
         /\ (resolve m app_support_dir ++ [folder]) `prefix_of` q
         /\ (zip_answer m
               (zip_argv (resolve m archive_dir
                          ++ [archive_name folder (today_plus m days)]) folder)).1 = 0.
Proof.
  set (P := fun q : path =>
              mode = MODE_APPLY
              /\ exists folder,
                   folder ∈ folders
                   /\ (resolve m app_support_dir ++ [folder]) `prefix_of` q
                   /\ (zip_answer m
                         (zip_argv (resolve m archive_dir
                                    ++ [archive_name folder (today_plus m days)])
                                   folder)).1 = 0).
  intros _.
  enough (H : steps (removed_only P)
                (task_archive_orphans m app_support_dir archive_dir folders days mode))
    by apply H.
  unfold task_archive_orphans.
  apply (steps_bind_ret (removed_only P) (fun d => d = resolve m archive_dir)).
  { apply (steps_lift (removed_only P)). }
  { intros w0 w1 a H. apply validate_home_path_lift in H. tauto. }
  intros d ->.
  apply (steps_bind (removed_only P)); [apply removed_only_ensure_dir|]. intros _.
  apply (steps_bind (removed_only P)); [apply removed_only_log|]. intros _.
  apply (steps_for_each (removed_only P)). intros folder Hin.
  apply (steps_bind (removed_only P)); [apply (steps_query (removed_only P))|].
  intros found. destruct (negb found); [apply removed_only_log|].
  case_bool_decide as Hmode; cbn [negb]; [|apply removed_only_log].
  apply (steps_try_except (removed_only P)); [|intros e; apply removed_only_log].
  apply (steps_bind (removed_only P)); [apply removed_only_log|]. intros _.
  apply (steps_bind_ret (removed_only P)
           (fun proc => proc = zip_answer m
              (zip_argv (resolve m archive_dir
                         ++ [archive_name folder (today_plus m days)]) folder))).
  { apply removed_only_run_zip. }
  { intros w0 w1 r H. apply run_zip_returns in H. exact H. }
  intros proc ->. case_bool_decide as Hrc; cbn [negb]; [|apply removed_only_log].
  apply (steps_bind (removed_only P)); [|intros _; apply removed_only_log].
  eapply steps_removed_weaken; [|apply removed_only_rmtree].
  intros q Hq. split; [exact Hmode|]. exists folder. auto.
Qed.

Lemma archive_orphans_removes_only_archived_witness :
  (zip_answer jpaul_mac
     (zip_argv (resolve jpaul_mac new_archive_dir
                ++ [archive_name (lit "SomeApp") (today_plus jpaul_mac 90)])
        (lit "SomeApp"))).1 = 0
  /\ exists folder,
       folder ∈ [lit "SomeApp"]
       /\ (resolve jpaul_mac support_dir_0 ++ [folder])
            `prefix_of` (support_dir_0 ++ [lit "SomeApp"]).
Proof.
  destruct (archive_orphans_removes_only_archived jpaul_mac support_dir_0
              new_archive_dir [lit "SomeApp"] 90 MODE_APPLY support_world)
    with (q := support_dir_0 ++ [lit "SomeApp"]) (n := Dir)
    as [_ (folder & Hin & Hpre & _)].
  - constructor; [|constructor].
    split; [discriminate|]. split; [|split; discriminate].
    intros H. apply list_elem_of_In in H. simpl in H.
    repeat (destruct H as [H|H]; [discriminate H|]). destruct H.
  - vm_compute. reflexivity.
  - vm_compute. reflexivity.
  - split; [reflexivity|]. exists folder. split; [exact Hin | exact Hpre].
Defined.

(** *** [task_find_orphans] *)

Lemma task_find_orphans_read_only (m : Machine) (app_support_dir applications_dir : path)
    (limit : Z) (skip_re : regex) :
  read_only (task_find_orphans m app_support_dir applications_dir limit skip_re).
Proof.
  unfold task_find_orphans.
  apply read_only_bind; [apply read_only_query|]. intros found.
  destruct (negb found); [apply read_only_log|].
  apply read_only_bind; [apply read_only_query|]. intros listable.
  destruct (negb listable); [apply read_only_log|].
  intros w.
  apply (read_only_bind (log _) (fun _ => for_each _ _)); [apply read_only_log|].
  intros _. apply read_only_for_each. intros name.
  apply read_only_bind; [apply read_only_du_kb|]. intros size. apply read_only_log.
Qed.

Lemma slice_to_length {A} (n : Z) (l : list A) :
  0 <= n -> len (slice_to n l) <= n.
Proof.
  intros H. unfold slice_to, len. rewrite (proj2 (Z.leb_le 0 n)) by exact H.
  rewrite length_take. lia.
Qed.

(** X19: [task_find_orphans] leaves the disk as it is, starts no process
    other than [du], and for a limit that is not negative logs at most one
    line per folder up to the limit, after the line with the count. *)
Theorem find_orphans_harmless (m : Machine) (app_support_dir applications_dir : path)
    (limit : Z) (skip_re : regex) (w : World) :
  let w' := (task_find_orphans m app_support_dir applications_dir limit skip_re w).1 in
  fs w' = fs w
  /\ (exists extra, spawned w' = spawned w ++ extra /\ Forall is_du extra)
  /\ (0 <= limit -> len (logged w') <= len (logged w) + 1 + limit).
Proof.
  intros w'. subst w'.
  destruct (task_find_orphans_read_only m app_support_dir applications_dir limit
              skip_re w) as [Hfs Hsp].
  split; [exact Hfs|]. split; [exact Hsp|].
  intros Hlimit.
  destruct (decide (node_at (fs w) (resolve m app_support_dir) = Some Dir)) as [Hs|Hs];
    [destruct (decide (node_at (fs w) (resolve m applications_dir) = Some Dir)) as [Ha|Ha]|].
  - rewrite (task_find_orphans_logged m app_support_dir applications_dir limit skip_re w Hs Ha).
    unfold len. rewrite length_app. cbn [length]. rewrite length_map.
    pose proof (slice_to_length limit
                  (orphan_names
                     (installed_app_names
                        (map fst (entries (fs w) (resolve m applications_dir))))
                     skip_re
                     (sorted (omap (fun '(name, nd) => match nd with
                                                      | Dir => Some name
                                                      | File => None
                                                      end)
                                (entries (fs w) (resolve m app_support_dir)))))
                  Hlimit) as Hl.
    unfold len in Hl. lia.
  - unfold task_find_orphans. unfold bind at 1, is_dir at 1.
    rewrite bool_decide_eq_true_2 by exact Hs. cbn [negb].
    unfold bind at 1, is_dir at 1.
    rewrite bool_decide_eq_false_2 by exact Ha. cbn [negb log fst logged].
    unfold len. rewrite length_app. cbn [length]. lia.
  - unfold task_find_orphans. unfold bind at 1, is_dir at 1.
    rewrite bool_decide_eq_false_2 by exact Hs. cbn [negb log fst logged].
    unfold len. rewrite length_app. cbn [length]. lia.
Qed.

Lemma filter_none {A} (f : A -> bool) (l : list A) :
  (forall x, f x = false) -> List.filter f l = [].
Proof.
  intros H. induction l as [|x l IH]; [reflexivity|]. simpl. rewrite H. exact IH.
Qed.

Lemma contains_nil (s : str) : contains [] s = true.
Proof. destruct s; reflexivity. Qed.

(** X20: an entry of the applications directory that is named just [.app]
    stands for the empty application name, which is contained in every folder
    name: with it, no folder is ever reported as orphaned. *)
Theorem dot_app_hides_orphans (names : list str) (skip_re : regex) (dirs : list str) :
  lit ".app" ∈ names ->
  orphan_names (installed_app_names names) skip_re dirs = [].
Proof.
  intros Hin. unfold orphan_names. apply filter_none. intros d.
  unfold is_orphan. apply andb_false_iff. right. apply negb_false_iff.
  apply existsb_exists. exists []. split.
  - unfold installed_app_names. apply in_map_iff. exists (lit ".app").
    split; [reflexivity|]. apply filter_In. split; [|reflexivity].
    apply list_elem_of_In, Hin.
  - unfold app_matches. rewrite contains_nil. apply orb_true_r.
Qed.

Lemma dot_app_hides_orphans_witness :
  orphan_names (installed_app_names [lit "Foo.app"; lit ".app"]) Void
    [lit "Bar"; lit "Foo Helper"] = [].
Proof.
  apply dot_app_hides_orphans. apply list_elem_of_further, list_elem_of_here.
Defined.

(** *** [main], again *)

(** X21: which tasks run, and in which order, depends only on which task
    names were given: their order on the command line and repetitions make no
    difference. *)
Theorem run_tasks_selection (m : Machine) (o : OtherTasks) (skip_re : regex)
    (args : Args) (tasks tasks' : list str) :
  (forall t, t ∈ tasks <-> t ∈ tasks') ->
  run_tasks m o skip_re args tasks = run_tasks m o skip_re args tasks'.
Proof.
  intros H.
  assert (Hsel : forall t, selected t tasks = selected t tasks').
  { intros t. unfold selected. apply bool_decide_ext, H. }
  unfold run_tasks. rewrite !Hsel. reflexivity.
Qed.

Lemma run_tasks_selection_witness :
  run_tasks jpaul_mac idle_tasks Void report_args
    [TASK_COPY; TASK_REPORT; TASK_COPY]
  = run_tasks jpaul_mac idle_tasks Void report_args [TASK_REPORT; TASK_COPY].
Proof.
  apply run_tasks_selection. intros t. rewrite !elem_of_cons. tauto.
Defined.

Lemma for_each_app {A} (a b : list A) (body : A -> M unit) (w : World) :
  for_each (a ++ b) body w = (for_each a body >> for_each b body) w.
Proof.
  revert w. induction a as [|x a IH]; intros w; [reflexivity|].
  cbn [app for_each]. unfold bind in *.
  destruct (body x w) as [w1 [e|[]]]; [reflexivity|]. apply IH.
Qed.

Lemma for_each_skipped {A} (l : list A) (body : A -> M unit) (w : World) :
  (forall x, x ∈ l -> body x = ret tt) -> for_each l body w = (w, inr tt).
Proof.
  induction l as [|x l IH]; intros H; [reflexivity|].
  cbn [for_each]. unfold bind. rewrite (H x (list_elem_of_here _ _)). cbn [ret].
  apply IH. intros y Hy. apply H, list_elem_of_further, Hy.
Qed.

(** X22: [main] catches nothing: when the tasks selected before a selected
    task, in the fixed order, have run without raising and that task raises,
    [main] ends with its exception in the world the task left, and none of
    the later tasks runs. *)
Theorem run_tasks_stops_at_exception (m : Machine) (o : OtherTasks) (skip_re : regex)
    (args : Args) (tasks : list str) (before after : list (str * M unit))
    (t : str) (c : M unit) (w w0 w1 : World) (e : exn) :
  task_table m o skip_re args = before ++ (t, c) :: after ->
  for_each before (fun tc => when (selected tc.1 tasks) tc.2) w = (w0, inr tt) ->
  t ∈ tasks ->
  c w0 = (w1, inl e) ->
  run_tasks m o skip_re args tasks w = (w1, inl e)
  /\ (arg_task args = Some tasks -> main m o skip_re args w = (w1, inl e)).
Proof.
  intros Htable Hbefore Ht Hc.
  assert (Hrun : run_tasks m o skip_re args tasks w = (w1, inl e)).
  { rewrite run_tasks_table, Htable. unfold bind at 1.
    rewrite for_each_app. unfold bind at 1. rewrite Hbefore.
    cbn [for_each]. unfold bind at 1, when, selected. cbn [fst snd].
    rewrite bool_decide_eq_true_2 by exact Ht. rewrite Hc. reflexivity. }
  split; [exact Hrun|]. intros Hargs. unfold main. rewrite Hargs. cbn [default].
  destruct tasks as [|t0 tasks']; [inversion Ht|exact Hrun].
Qed.

Lemma run_tasks_stops_at_exception_witness :
  main jpaul_mac noisy_tasks Void brew_etc_args support_world
  = (mkWorld (fs support_world) [lit "brew"] [],
     inl (ValueError (lit "archive-dir must be within /Users/jpaul"))).
Proof.
  apply (run_tasks_stops_at_exception jpaul_mac noisy_tasks Void brew_etc_args
           [TASK_COPY; TASK_CLEANUP_ARCHIVES; TASK_BREW]
           (take 4 (task_table jpaul_mac noisy_tasks Void brew_etc_args))
           (drop 5 (task_table jpaul_mac noisy_tasks Void brew_etc_args))
           TASK_CLEANUP_ARCHIVES
           (task_cleanup_archives jpaul_mac [lit "etc"] MODE_APPLY)
           support_world (mkWorld (fs support_world) [lit "brew"] [])).
  - reflexivity.
  - vm_compute. reflexivity.
  - apply list_elem_of_further, list_elem_of_here.
  - reflexivity.
  - reflexivity.
Defined.

(** ** Package upkeep *)

#[local] Instance same_disk_refl : Reflexive same_disk.
Proof. intros w. reflexivity. Qed.

#[local] Instance same_disk_trans : Transitive same_disk.
Proof. intros w1 w2 w3 H12 H23. unfold same_disk in *. congruence. Qed.

#[local] Instance writes_only_refl (T : path -> Prop) : Reflexive (writes_only T).
Proof. intros w q _. reflexivity. Qed.

#[local] Instance writes_only_trans (T : path -> Prop) : Transitive (writes_only T).
Proof. intros w1 w2 w3 H12 H23 q Hq. rewrite (H23 q Hq). apply H12, Hq. Qed.

Lemma same_disk_log (msg : str) : steps same_disk (log msg).
Proof. intros w. reflexivity. Qed.

Lemma same_disk_spawn (argv : list str) : steps same_disk (spawn argv).
Proof. intros w. reflexivity. Qed.

Lemma writes_only_log (T : path -> Prop) (msg : str) : steps (writes_only T) (log msg).
Proof. intros w q _. reflexivity. Qed.

Lemma writes_only_spawn (T : path -> Prop) (argv : list str) :
  steps (writes_only T) (spawn argv).
Proof. intros w q _. reflexivity. Qed.

Lemma writes_only_write_text (T : path -> Prop) (p : path) :
  T p -> steps (writes_only T) (write_text p).
Proof.
  intros Hp w q Hq. unfold write_text.
  destruct (_ && _); cbn [fst fs]; [|reflexivity].
  apply lookup_insert_ne. intros ->. contradiction.
Qed.

Lemma spawned_only_write_text (S : list str -> Prop) (p : path) :
  steps (spawned_only S) (write_text p).
Proof.
  intros w. unfold write_text. exists []. rewrite app_nil_r.
  destruct (_ && _); auto.
Qed.

Lemma validate_brew_bin_lift (b : BrewHost) (brew_bin : str) (w w' : World) (a : str) :
  lift (validate_brew_bin b brew_bin) w = (w', inr a) -> a = brew_bin.
Proof.
  unfold validate_brew_bin.
  destruct (negb (startswith _ _)); [discriminate|].
  destruct (negb (brew_executable b brew_bin)); [discriminate|].
  intros [= _ <-]. reflexivity.
Qed.

Lemma maybe_run_dry_run (b : BrewHost) (brew_bin desc : str) (args : list str)
    (allow : bool) :
  maybe_run b MODE_DRY_RUN brew_bin desc args allow
  = log (lit "brew: would run " ++ desc ++ lit ": " ++ join (lit " ") args).
Proof. reflexivity. Qed.

Section Brew.
Context (R : World -> World -> Prop) `{!Reflexive R} `{!Transitive R}.
Context (Hlog : forall msg, steps R (log msg)).

Lemma steps_run_brew (b : BrewHost) (brew_bin : str) (args : list str) :
  steps R (spawn (brew_bin :: args)) -> steps R (run_brew b brew_bin args).
Proof.
  intros Hs. unfold run_brew.
  apply (steps_bind R); [apply Hlog|]. intros _.
  apply (steps_bind R); [exact Hs|]. intros _. apply (steps_lift R).
Qed.

Lemma steps_maybe_run (b : BrewHost) (mode brew_bin desc : str) (args : list str)
    (allow : bool) :
  (mode <> MODE_DRY_RUN -> (mode = MODE_REPORT -> allow = true) ->
   steps R (spawn (brew_bin :: args))) ->
  steps R (maybe_run b mode brew_bin desc args allow).
Proof.
  intros Hs. unfold maybe_run.
  destruct (bool_decide (mode = MODE_REPORT) && negb allow) eqn:E1; [apply Hlog|].
  destruct (decide (mode = MODE_DRY_RUN)) as [Hdry|Hdry].
  { rewrite bool_decide_eq_true_2 by exact Hdry. apply Hlog. }
  rewrite (bool_decide_eq_false_2 (mode = MODE_DRY_RUN)) by exact Hdry.
  apply (steps_bind R).
  - apply steps_run_brew, Hs; [exact Hdry|]. intros Hrep.
    rewrite bool_decide_eq_true_2 in E1 by exact Hrep.
    destruct allow; [reflexivity|discriminate E1].
  - intros proc. destruct (negb (bool_decide (proc.1.1 = 0)));
      [apply Hlog|apply (steps_ret R)].
Qed.

Lemma steps_write_listing (b : BrewHost) (brew_bin : str) (args : list str)
    (target : path) (what : str) :
  steps R (spawn (brew_bin :: args)) -> steps R (write_text target) ->
  steps R (write_listing b brew_bin args target what).
Proof.
  intros Hs Hw. unfold write_listing.
  apply (steps_bind R); [apply steps_run_brew, Hs|]. intros proc.
  case_bool_decide; [|apply Hlog].
  apply (steps_bind R); [exact Hw|]. intros _. apply Hlog.
Qed.

Lemma steps_fix_missing_casks (b : BrewHost) (mode brew_bin : str)
    (fix_casks : list str) :
  steps R (spawn [brew_bin; lit "list"; lit "--cask"]) ->
  (mode = MODE_APPLY -> forall args, steps R (spawn (brew_bin :: args))) ->
  steps R (fix_missing_casks b mode brew_bin fix_casks).
Proof.
  intros Hs Happly. unfold fix_missing_casks.
  apply (steps_bind R); [apply steps_run_brew, Hs|]. intros proc.
  destruct (negb (bool_decide (proc.1.1 = 0))); [apply Hlog|]. intros w.
  match goal with
  | |- context [match ?l with [] => _ | _ :: _ => _ end] => destruct l as [|c cs]
  end; [apply Hlog|].
  case_bool_decide as Hmode; cbn [negb]; [|apply Hlog].
  revert w.
  apply (steps_bind R); [apply Hlog|]. intros _.
  apply (steps_bind R); [apply steps_run_brew, Happly, Hmode|]. intros _.
  apply (steps_bind R); [apply steps_run_brew, Happly, Hmode|]. intros _.
  apply (steps_ret R).
Qed.
Lemma effective_flags_fix (mode : str) (f : BrewFlags) :
  do_fix_casks (effective_flags mode f) = do_fix_casks f.
Proof. unfold effective_flags. destruct (_ && _); reflexivity. Qed.

Lemma steps_brew_dry_run (m : Machine) (b : BrewHost) (brew_bin : str)
    (list_file cask_file : path) (flags : BrewFlags) (fix_casks : list str) :
  (do_fix_casks flags = true ->
   steps R (spawn [brew_bin; lit "list"; lit "--cask"])) ->
  steps R (brew_maintenance m b MODE_DRY_RUN brew_bin list_file cask_file flags
             fix_casks).
Proof.
  intros Hfix. unfold brew_maintenance.
  apply (steps_bind_ret R (fun x => x = brew_bin)).
  { apply (steps_lift R). }
  { intros w0 w1 a H. apply validate_brew_bin_lift in H. exact H. }
  intros ? ->.
  apply (steps_bind R); [apply (steps_lift R)|]. intros lf.
  apply (steps_bind R); [apply (steps_lift R)|]. intros cf.
  cbv zeta.
  do 8 (apply (steps_bind R);
        [apply (steps_when R); intros _; rewrite maybe_run_dry_run; apply Hlog
        |intros _]).
  do 2 (apply (steps_bind R);
        [apply (steps_when R); intros _;
         rewrite bool_decide_eq_true_2 by reflexivity; apply Hlog
        |intros _]).
  apply (steps_when R). rewrite effective_flags_fix. intros Hf.
  apply steps_fix_missing_casks; [apply Hfix, Hf|discriminate].
Qed.

Lemma steps_brew_report (m : Machine) (b : BrewHost) (brew_bin : str)
    (list_file cask_file : path) (flags : BrewFlags) (fix_casks : list str) :
  (forall argv, inspecting brew_bin argv -> steps R (spawn argv)) ->
  steps R (write_text (resolve m list_file)) ->
  steps R (write_text (resolve m cask_file)) ->
  steps R (brew_maintenance m b MODE_REPORT brew_bin list_file cask_file flags
             fix_casks).
Proof.
  intros Hsp Hwl Hwc. unfold brew_maintenance.
  apply (steps_bind_ret R (fun x => x = brew_bin)).
  { apply (steps_lift R). }
  { intros w0 w1 a H. apply validate_brew_bin_lift in H. exact H. }
  intros ? ->.
  apply (steps_bind_ret R (fun x => x = resolve m list_file)).
  { apply (steps_lift R). }
  { intros w0 w1 a H. apply validate_home_path_lift in H. tauto. }
  intros ? ->.
  apply (steps_bind_ret R (fun x => x = resolve m cask_file)).
  { apply (steps_lift R). }
  { intros w0 w1 a H. apply validate_home_path_lift in H. tauto. }
  intros ? ->.
  cbv zeta.
  do 5 (apply (steps_bind R); [apply (steps_when R); intros _; apply Hlog|intros _]).
  apply (steps_bind R).
  { apply (steps_when R). intros _. apply steps_maybe_run. intros _ _.
    apply Hsp. left. reflexivity. }
  intros _. apply (steps_bind R).
  { apply (steps_when R). intros _. apply steps_maybe_run. intros _ _.
    apply Hsp. right. left. reflexivity. }
  intros _.
  apply (steps_bind R); [apply (steps_when R); intros _; apply Hlog|intros _].
  apply (steps_bind R).
  { apply (steps_when R). intros _.
    rewrite bool_decide_eq_false_2 by discriminate.
    apply steps_write_listing; [|exact Hwl]. apply Hsp. right. right. left. reflexivity. }
  intros _. apply (steps_bind R).
  { apply (steps_when R). intros _.
    rewrite bool_decide_eq_false_2 by discriminate.
    apply steps_write_listing; [|exact Hwc]. apply Hsp. right. right. right. reflexivity. }
  intros _. apply (steps_when R). intros _.
  apply steps_fix_missing_casks; [|discriminate].
  apply Hsp. right. right. right. reflexivity.
Qed.
End Brew.

(** X23: a dry run of the brew task leaves the disk as it is, and the only
    process it can start is the read-only [brew list --cask], and that only
    when the fixing of missing casks was asked for: without that flag, brew is
    not run at all. *)
Theorem brew_dry_run_runs_nothing (m : Machine) (b : BrewHost) (brew_bin : str)
    (list_file cask_file : path) (flags : BrewFlags) (fix_casks : list str)
    (w : World) :
  let w' := (brew_maintenance m b MODE_DRY_RUN brew_bin list_file cask_file flags
               fix_casks w).1 in
  fs w' = fs w
  /\ exists extra,
       spawned w' = spawned w ++ extra
       /\ Forall (fun argv => do_fix_casks flags = true
                              /\ argv = [brew_bin; lit "list"; lit "--cask"]) extra.
Proof.
  split.
  - apply (steps_brew_dry_run same_disk same_disk_log).
    intros _. apply same_disk_spawn.
  - apply (steps_brew_dry_run
             (spawned_only (fun argv => do_fix_casks flags = true
                                        /\ argv = [brew_bin; lit "list"; lit "--cask"]))).
    + intros msg. apply spawned_only_log.
    + intros Hf. apply spawned_only_spawn. auto.
Qed.

(** X24: in report mode the brew task starts only inspecting commands
    (doctor, missing, list, list --cask), never an update, upgrade,
    autoremove, cleanup, untap, uninstall or install; on disk it touches at
    most the two listing files. *)
Theorem brew_report_mode_inspects (m : Machine) (b : BrewHost) (brew_bin : str)
    (list_file cask_file : path) (flags : BrewFlags) (fix_casks : list str)
    (w : World) :
  let w' := (brew_maintenance m b MODE_REPORT brew_bin list_file cask_file flags
               fix_casks w).1 in
  (exists extra, spawned w' = spawned w ++ extra
                 /\ Forall (inspecting brew_bin) extra)
  /\ (forall q, q <> resolve m list_file -> q <> resolve m cask_file ->
        fs w' !! q = fs w !! q).
Proof.
  split.
  - apply (steps_brew_report (spawned_only (inspecting brew_bin))).
    + intros msg. apply spawned_only_log.
    + intros argv Ha. apply spawned_only_spawn, Ha.
    + apply spawned_only_write_text.
    + apply spawned_only_write_text.
  - intros q H1 H2.
    apply (steps_brew_report
             (writes_only (fun q => q = resolve m list_file \/ q = resolve m cask_file))).
    + intros msg. apply writes_only_log.
    + intros argv _. apply writes_only_spawn.
    + apply writes_only_write_text. left. reflexivity.
    + apply writes_only_write_text. right. reflexivity.
    + tauto.
Qed.

(** X25: outside report and dry-run mode nothing is done by default: with no
    action flag at all, the brew task validates its arguments and returns
    without logging, starting or writing anything. *)
Theorem brew_apply_without_flags (m : Machine) (b : BrewHost) (mode brew_bin : str)
    (list_file cask_file : path) (flags : BrewFlags) (fix_casks : list str)
    (w : World) :
  mode <> MODE_REPORT -> mode <> MODE_DRY_RUN -> any_flag flags = false ->
  startswith (lit "/") brew_bin = true -> brew_executable b brew_bin = true ->
  under (home m) (resolve m list_file) -> under (home m) (resolve m cask_file) ->
  brew_maintenance m b mode brew_bin list_file cask_file flags fix_casks w
  = (w, inr tt).
Proof.
  intros Hr Hd Hnone Habs Hexe Hl Hc. unfold brew_maintenance.
  unfold validate_brew_bin. rewrite Habs, Hexe. cbn [negb lift].
  rewrite (validate_home_path_accepts m list_file _ Hl).
  rewrite (validate_home_path_accepts m cask_file _ Hc). cbn [lift].
  unfold effective_flags.
  rewrite (bool_decide_eq_false_2 (mode = MODE_REPORT)) by exact Hr.
  rewrite (bool_decide_eq_false_2 (mode = MODE_DRY_RUN)) by exact Hd.
  cbn [orb andb].
  unfold any_flag in Hnone. repeat (apply orb_false_iff in Hnone as [Hnone ?]).
  repeat match goal with H : _ = false |- _ => rewrite H; clear H end.
  reflexivity.
Qed.

Lemma brew_apply_without_flags_witness :
  brew_maintenance jpaul_mac calm_brew MODE_APPLY brew_bin_0 list_file_0 cask_file_0
    no_flags [] support_world
  = (support_world, inr tt).
Proof.
  apply brew_apply_without_flags; try discriminate; try reflexivity.
  - exists [lit ".brew-list.txt"]. reflexivity.
  - exists [lit ".brew-cask.txt"]. reflexivity.
Defined.


(** ** Browser cleanup and copy test *)

Section Inspect.
Context (R : World -> World -> Prop) `{!Reflexive R} `{!Transitive R}.
Context (m : Machine).
Context (Hlog : forall msg, steps R (log msg)).
Context (Hdu : forall p, steps R (du_kb m p)).

Lemma steps_copy_without_apply (h : CopyHost) (src dst : path) (mode : str) :
  mode <> MODE_APPLY -> steps R (copy_speed_test m h src dst mode).
Proof.
  intros Hmode. unfold copy_speed_test.
  apply (steps_bind R); [apply (steps_query R)|]. intros src_found.
  destruct (negb src_found); [apply Hlog|].
  apply (steps_bind R); [apply (steps_query R)|]. intros parent_found.
  destruct (negb parent_found); [apply Hlog|].
  apply (steps_bind R); [apply Hdu|]. intros size_kb.
  apply (steps_bind R).
  { destruct (known_size size_kb); [apply Hlog|apply (steps_ret R)]. }
  intros _. rewrite bool_decide_eq_false_2 by exact Hmode. apply Hlog.
Qed.

Context (Hpgrep : steps R (spawn pgrep_argv)).

Lemma steps_chrome_running (h : ChromeHost) : steps R (chrome_running h).
Proof.
  unfold chrome_running. apply (steps_bind R); [exact Hpgrep|].
  intros _. apply (steps_query R).
Qed.

Lemma steps_list_profiles (chrome_dir : path) : steps R (list_profiles chrome_dir).
Proof.
  intros w. unfold list_profiles.
  destruct (node_at (fs w) chrome_dir) as [[|]|]; reflexivity.
Qed.

Lemma steps_clean_one (chrome_dir : path) (mode profile name : str) :
  (mode = MODE_APPLY -> steps R (clear_dir m (chrome_dir ++ [profile; name]))) ->
  steps R (clean_one m chrome_dir mode profile name).
Proof.
  intros Hclear. unfold clean_one.
  apply (steps_bind R); [apply (steps_query R)|]. intros found.
  destruct (negb found); [apply (steps_ret R)|].
  case_bool_decide as Hmode; [|apply Hlog].
  apply (steps_bind R); [|intros _; apply Hlog].
  apply Hclear, Hmode.
Qed.

Lemma steps_clean_profiles (chrome_dir : path) (mode : str) :
  (forall profile name,
     is_profile profile = true -> name ∈ CHROME_CLEAN_DIRS -> mode = MODE_APPLY ->
     steps R (clear_dir m (chrome_dir ++ [profile; name]))) ->
  steps R (clean_profiles m chrome_dir mode).
Proof.
  intros Hclear. unfold clean_profiles.
  apply (steps_bind_ret R (Forall (fun p => is_profile p = true))).
  { apply steps_list_profiles. }
  { intros w w' a. unfold list_profiles.
    destruct (node_at (fs w) chrome_dir) as [[|]|]; try discriminate.
    intros [= _ <-]. apply Forall_forall. intros name Hin.
    apply list_elem_of_omap in Hin. destruct Hin as ([x [|]] & _ & Hx); [discriminate|].
    destruct (is_profile x) eqn:E; [|discriminate]. congruence. }
  intros profiles Hall. destruct profiles as [|p ps]; [apply Hlog|].
  apply (steps_bind R); [apply Hlog|]. intros _.
  apply (steps_bind R).
  { apply (steps_for_each R). intros profile _.
    apply (steps_bind R); [apply Hdu|]. intros size. apply Hlog. }
  intros _. apply (steps_for_each R). intros profile Hin.
  apply (steps_for_each R). intros name Hname.
  apply steps_clean_one. intros Hmode.
  apply Hclear; [|exact Hname|exact Hmode].
  rewrite Forall_forall in Hall. apply Hall, Hin.
Qed.

Lemma steps_chrome_without_apply (h : ChromeHost) (chrome_dir : path) (mode : str)
    (kill_chrome : bool) :
  mode <> MODE_APPLY -> steps R (chrome_cleanup m h chrome_dir mode kill_chrome).
Proof.
  intros Hmode. unfold chrome_cleanup.
  apply (steps_bind R); [apply (steps_lift R)|]. intros d.
  apply (steps_bind R); [apply (steps_query R)|]. intros found.
  destruct (negb found); [apply Hlog|].
  apply (steps_bind R); [apply steps_chrome_running|]. intros running.
  assert (Hclean : steps R (clean_profiles m d mode)).
  { apply steps_clean_profiles. intros ? ? ? ? ?. contradiction. }
  destruct running; [|exact Hclean].
  destruct (negb kill_chrome); [apply Hlog|].
  rewrite bool_decide_eq_false_2 by exact Hmode. apply Hlog.
Qed.

Context (Hspawn : forall argv, steps R (spawn argv)).


End Inspect.

#[local] Instance shrunk_refl (P : path -> Prop) : Reflexive (shrunk P).
Proof. intros w. split; [auto|]. intros q n H1 H2. congruence. Qed.

#[local] Instance shrunk_trans (P : path -> Prop) : Transitive (shrunk P).
Proof.
  intros w1 w2 w3 [K12 G12] [K23 G23]. split.
  - intros q n Hq. apply K12, K23, Hq.
  - intros q n Hq Hgone. destruct (fs w2 !! q) as [n'|] eqn:E.
    + apply (G23 q n' E Hgone).
    + apply (G12 q n Hq E).
Qed.






#[local] Instance keeps_stuck_refl (m : Machine) : Reflexive (keeps_stuck m).
Proof. intros w q n H1 H2. auto. Qed.

#[local] Instance keeps_stuck_trans (m : Machine) : Transitive (keeps_stuck m).
Proof.
  intros w1 w2 w3 H12 H23 q n Hq Hs.
  destruct (H12 q n Hq Hs) as [Hq2 Hs2]. apply (H23 q n Hq2 Hs2).
Qed.





Lemma spawned_only_weaken (S T : list str -> Prop) (w w' : World) :
  (forall argv, S argv -> T argv) -> spawned_only S w w' -> spawned_only T w w'.
Proof.
  intros HST (extra & E & F). exists extra. split; [exact E|].
  eapply Forall_impl; [exact F|exact HST].
Qed.

Lemma same_disk_du_kb (m : Machine) (p : path) : steps same_disk (du_kb m p).
Proof. intros w. reflexivity. Qed.

(** X26: in every mode but [apply], the browser cleanup and the copy test
    leave the disk as it is; the cleanup starts nothing but [du] and the
    [pgrep] that looks for the browser (it never asks it to quit and never
    signals it), and the copy test starts nothing but [du]: no [rsync]. *)
Theorem chrome_and_copy_without_apply (m : Machine) (hk : ChromeHost) (hc : CopyHost)
    (chrome_dir src dst : path) (mode : str) (kill_chrome : bool) (w : World) :
  mode <> MODE_APPLY ->
  let w1 := (chrome_cleanup m hk chrome_dir mode kill_chrome w).1 in
  let w2 := (copy_speed_test m hc src dst mode w).1 in
  fs w1 = fs w
  /\ (exists extra, spawned w1 = spawned w ++ extra
                    /\ Forall (fun argv => is_du argv \/ is_pgrep argv) extra)
  /\ fs w2 = fs w
  /\ (exists extra, spawned w2 = spawned w ++ extra /\ Forall is_du extra).
Proof.
  intros Hmode w1 w2. split; [|split; [|split]].
  - apply (steps_chrome_without_apply same_disk m same_disk_log (same_disk_du_kb m)
             (same_disk_spawn pgrep_argv) hk chrome_dir mode kill_chrome Hmode).
  - set (S := fun argv => is_du argv \/ is_pgrep argv).
    apply (steps_chrome_without_apply (spawned_only S) m (spawned_only_log S)).
    + intros p w0. eapply spawned_only_weaken; [|apply spawned_only_du_kb].
      intros argv H. left. exact H.
    + apply spawned_only_spawn. right. reflexivity.
    + exact Hmode.
  - apply (steps_copy_without_apply same_disk m same_disk_log (same_disk_du_kb m)
             hc src dst mode Hmode).
  - apply (steps_copy_without_apply (spawned_only is_du) m (spawned_only_log is_du)
             (spawned_only_du_kb m) hc src dst mode Hmode).
Qed.

Lemma chrome_and_copy_without_apply_witness :
  fs (chrome_cleanup jpaul_mac chrome_stubborn chrome_dir_0 MODE_DRY_RUN true
        chrome_world).1 = fs chrome_world.
Proof.
  apply (chrome_and_copy_without_apply jpaul_mac chrome_stubborn slow_disk chrome_dir_0
           chrome_dir_0 chrome_dir_0 MODE_DRY_RUN true chrome_world).
  discriminate.
Defined.









Lemma bind_run {A B} (c : M A) (k : A -> M B) (w w1 : World) (a : A) :
  c w = (w1, inr a) -> bind c k w = k a w1.
Proof. intros E. unfold bind. rewrite E. reflexivity. Qed.

Lemma never_raises_du_kb (m : Machine) (p : path) : never_raises (du_kb m p).
Proof. intros w. eexists _, _. reflexivity. Qed.





(** X29: [close_chrome] escalates in order: it asks the browser to quit, sends
    TERM only if the browser is still found after that, and KILL only if it
    is still found after TERM; it looks for the browser after each step,
    stops at the first look that does not find it, and returns whether the
    last look did not find it. It logs nothing and leaves the disk alone. *)
Theorem close_chrome_escalates (h : ChromeHost) (w : World) :
  let r := close_chrome h w in
  let script := [quit_argv; pgrep_argv; term_argv; pgrep_argv; kill_argv; pgrep_argv] in
  fs r.1 = fs w /\ logged r.1 = logged w
  /\ r.2 = inr (negb (chrome_alive h (spawned r.1)))
  /\ exists n, (1 <= n <= 3)%nat
       /\ spawned r.1 = spawned w ++ take (2 * n) script
       /\ (forall k, (1 <= k < n)%nat ->
             chrome_alive h (spawned w ++ take (2 * k) script) = true)
       /\ ((n < 3)%nat -> r.2 = inr true).
Proof.
  intros r script. subst r.
  unfold close_chrome, bind, spawn, chrome_running, bind, spawn, ret.
  cbn [fs logged spawned fst snd].
  destruct (chrome_alive h ((spawned w ++ [quit_argv]) ++ [pgrep_argv])) eqn:E1;
    cbn [negb fs logged spawned fst snd].
  2: { rewrite E1. split; [reflexivity|]. split; [reflexivity|].
       split; [reflexivity|]. exists 1%nat. rewrite <- app_assoc.
       split; [lia|]. split; [reflexivity|]. split; [|reflexivity].
       intros k Hk. lia. }
  destruct (chrome_alive h ((((spawned w ++ [quit_argv]) ++ [pgrep_argv])
                             ++ [term_argv]) ++ [pgrep_argv])) eqn:E2;
    cbn [negb fs logged spawned fst snd].
  2: { rewrite E2. split; [reflexivity|]. split; [reflexivity|].
       split; [reflexivity|]. exists 2%nat. rewrite <- !app_assoc.
       split; [lia|]. split; [reflexivity|]. split; [|reflexivity].
       intros k Hk. assert (k = 1)%nat as -> by lia.
       rewrite <- app_assoc in E1. exact E1. }
  split; [reflexivity|]. split; [reflexivity|]. split; [reflexivity|].
  exists 3%nat. rewrite <- !app_assoc.
  split; [lia|]. split; [reflexivity|]. split; [|lia].
  intros k Hk. assert (k = 1 \/ k = 2)%nat as [-> | ->] by lia.
  - rewrite <- app_assoc in E1. exact E1.
  - rewrite <- !app_assoc in E2. exact E2.
Qed.

(** ** Report rendering *)

Lemma replace_with_app (old : ascii) (new a b : str) :
  replace_with old new (a ++ b) = replace_with old new a ++ replace_with old new b.
Proof. apply flat_map_app. Qed.

Lemma html_escape_app (a b : str) : html_escape (a ++ b) = html_escape a ++ html_escape b.
Proof. unfold html_escape. rewrite !replace_with_app. reflexivity. Qed.

Lemma skeleton_app (a b : str) : skeleton (a ++ b) = skeleton a ++ skeleton b.
Proof. apply List.filter_app. Qed.

Lemma skeleton_escape_char (c : ascii) : skeleton (html_escape [c]) = [].
Proof. destruct c as [[|] [|] [|] [|] [|] [|] [|] [|]]; reflexivity. Qed.

Lemma skeleton_escape (s : str) : skeleton (html_escape s) = [].
Proof.
  induction s as [|c s IH]; [reflexivity|].
  change (c :: s) with ([c] ++ s).
  rewrite html_escape_app, skeleton_app, skeleton_escape_char, IH. reflexivity.
Qed.

Lemma skeleton_quoted (s : str) : skeleton (quoted s) = dquote :: skeleton s ++ [dquote].
Proof.
  unfold quoted. change (dquote :: s ++ [dquote]) with ([dquote] ++ s ++ [dquote]).
  rewrite !skeleton_app. reflexivity.
Qed.

Lemma skeleton_cons_lf (s : str) : skeleton (LF :: s) = skeleton s.
Proof. reflexivity. Qed.

Lemma skeleton_join_lf (parts : list str) :
  skeleton (join [LF] parts) = concat (map skeleton parts).
Proof.
  induction parts as [|p [|p' rest] IH]; [reflexivity| |].
  - simpl. rewrite app_nil_r. reflexivity.
  - change (join [LF] (p :: p' :: rest)) with (p ++ [LF] ++ join [LF] (p' :: rest)).
    rewrite !skeleton_app, IH. reflexivity.
Qed.

Lemma skeleton_class (r : CommandResult) : skeleton (badge_for_result r).1 = [].
Proof. destruct (badge_class_cases r) as [-> | [-> | ->]]; reflexivity. Qed.

Lemma skeleton_badges (f f' : Q -> str) (r r' : CommandResult) :
  same_parts r r' ->
  skeleton (concat (badges f r)) = skeleton (concat (badges f' r')).
Proof.
  intros [_ Hskip]. unfold badges.
  assert (H : forall g x,
            skeleton (concat
              ([ lit "<span class=" ++ quoted (lit "badge " ++ (badge_for_result x).1)
                 ++ lit ">" ++ html_escape (badge_for_result x).2 ++ lit "</span>";
                 lit "<span class=" ++ quoted (lit "badge") ++ lit ">"
                 ++ html_escape (g (duration_s x) ++ lit "s") ++ lit "</span>" ]
               ++ match skipped_reason x with
                  | Some (c :: reason) =>
                      [ lit "<span class=" ++ quoted (lit "badge warn") ++ lit ">"
                        ++ html_escape (c :: reason) ++ lit "</span>" ]
                  | _ => []
                  end))
            = skeleton (lit "<span class=") ++ [dquote; dquote]
              ++ skeleton (lit "></span><span class=") ++ [dquote; dquote]
              ++ skeleton (lit "></span>")
              ++ (if truthy (skipped_reason x)
                  then skeleton (lit "<span class=") ++ [dquote; dquote]
                       ++ skeleton (lit "></span>")
                  else [])).
  { intros g x. rewrite concat_app, skeleton_app. cbn [concat].
    rewrite !skeleton_app, !skeleton_quoted, !skeleton_app, !skeleton_escape,
      skeleton_class.
    destruct (skipped_reason x) as [[|c reason]|]; cbn [truthy concat];
      [reflexivity| |reflexivity].
    rewrite !skeleton_app, !skeleton_quoted, !skeleton_escape. reflexivity. }
  rewrite (H f r), (H f' r'), Hskip. reflexivity.
Qed.

Lemma skeleton_open (b : bool) : skeleton (if b then lit "open" else []) = [].
Proof. destruct b; reflexivity. Qed.

Lemma skeleton_stdout (s : str) :
  skeleton match s with
           | [] => lit "(no output)"
           | _ :: _ => html_escape s
           end = [].
Proof. destruct s; [reflexivity|apply skeleton_escape]. Qed.

Lemma skeleton_stderr (s s' : str) :
  (s = [] <-> s' = []) ->
  skeleton match s with
           | [] => []
           | _ :: _ =>
               lit "    <div class=" ++ quoted (lit "subhead") ++ lit ">stderr</div>"
               ++ LF :: lit "    <pre>" ++ html_escape s ++ lit "</pre>"
           end
  = skeleton match s' with
             | [] => []
             | _ :: _ =>
                 lit "    <div class=" ++ quoted (lit "subhead") ++ lit ">stderr</div>"
                 ++ LF :: lit "    <pre>" ++ html_escape s' ++ lit "</pre>"
             end.
Proof.
  intros H. destruct s as [|c s], s' as [|c' s']; [reflexivity| | |].
  - destruct H as [H _]. discriminate (H eq_refl).
  - destruct H as [_ H]. discriminate (H eq_refl).
  - rewrite !skeleton_app, !skeleton_quoted, !skeleton_cons_lf, !skeleton_app,
      !skeleton_escape. reflexivity.
Qed.

Lemma skeleton_block (f f' : Q -> str) (r r' : CommandResult) :
  same_parts r r' -> skeleton (render_block f r) = skeleton (render_block f' r').
Proof.
  intros Hsame. pose proof (skeleton_badges f f' r r' Hsame) as Hb.
  destruct Hsame as [Herr _]. pose proof (skeleton_stderr _ _ Herr) as He.
  unfold render_block. rewrite !skeleton_join_lf. cbn [map concat].
  rewrite !skeleton_app, !skeleton_quoted, !skeleton_escape, !skeleton_open,
    !skeleton_stdout, Hb, He.
  reflexivity.
Qed.

Lemma skeleton_blocks (f f' : Q -> str) (rs rs' : list CommandResult) :
  Forall2 same_parts rs rs' ->
  skeleton (join [LF] (map (render_block f) rs))
  = skeleton (join [LF] (map (render_block f') rs')).
Proof.
  intros H. rewrite !skeleton_join_lf.
  induction H as [|r r' rs rs' Hr _ IH]; [reflexivity|].
  cbn [map concat]. rewrite (skeleton_block f f' r r' Hr), IH. reflexivity.
Qed.

(** X30: everything a report section shows of its checks is escaped: the tags
    and attribute delimiters of the rendered section (its [<], [>] and double
    quotes, in order) are the same for any two sections whose checks have
    pairwise the same parts, whatever their titles, commands, outputs, skip
    reasons, durations and classes are. No text of a check can open or close
    a tag or an attribute. *)
Theorem render_section_escapes (bullet bullet' : str) (fixed2 fixed2' : Q -> str)
    (s s' : ReportSection) :
  Forall2 same_parts (results s) (results s') ->
  skeleton (render_results_section bullet fixed2 s)
  = skeleton (render_results_section bullet' fixed2' s').
Proof.
  intros H. pose proof (skeleton_blocks fixed2 fixed2' _ _ H) as Hb.
  unfold render_results_section. rewrite !skeleton_join_lf. cbn [map concat].
  rewrite !skeleton_app, !skeleton_quoted, !skeleton_escape, Hb.
  reflexivity.
Qed.

Lemma render_section_escapes_witness :
  skeleton (render_results_section (lit "*") tenth hostile_section)
  = skeleton (render_results_section (lit "*") tenth plain_section).
Proof.
  apply (render_section_escapes (lit "*") (lit "*") tenth tenth hostile_section
           plain_section).
  constructor; [|constructor]. split; [|reflexivity]. split; reflexivity.
Defined.
